(** * Num2FracStr: a shallow embedding of [src/js/num2decstrl.js]

    The repository is one JavaScript function, [Num2FracStr], which renders a
    number (or a numeric-looking string) as a fixed-point decimal string.
    The function is three regular expressions and a handful of string
    built-ins, so the embedding has three layers:

    - a backtracking regular-expression matcher (ordered alternation, greedy
      repetition, capture groups, anchors, negative lookahead), with
      [String.prototype.match] and [String.prototype.replace] on top of it;
    - the JavaScript built-ins the function calls: [String], [Number],
      [padEnd], [slice], [repeat], and the number arithmetic on the exponent;
    - [Num2FracStr] itself, written statement by statement.

    What the model takes from ECMA-262 and what it leaves out:

    - strings are lists of characters of one byte; a character beyond them
      would behave in the three patterns like any character that is not a
      digit, a sign, the point or the letter e;
    - a number given as input is known to the function only through
      [String(number)], so it is represented by what Number::toString reads:
      the sign, the digits and the position of the point;
    - the exponent is a JavaScript number (an IEEE double): [Number] rounds
      to the nearest double and overflows to an infinity, a sum of two
      doubles is rounded again, [padEnd] clamps its length to 2^53 - 1 and
      [repeat] throws a RangeError for an infinite count;
    - ECMA-262 allows strings of up to 2^53 - 1 characters and an engine
      stops earlier, with a RangeError, at a limit of its own (about 2^29
      characters in V8); the model puts no bound on the length of a string.
      So where [padEnd], [repeat] or a concatenation builds a text of that
      size the code throws and the model returns.  The model and the code
      agree wherever the code returns, and the properties about the text
      of a long result are stated for a result that is returned. *)

From Stdlib Require Import Ascii String ZArith QArith Qpower Lia Bool Arith List.
Import ListNotations.

Local Open Scope Z_scope.

(** ** Strings *)

Abbreviation str := (list ascii).

Definition lit (s : string) : str := list_ascii_of_string s.

Definition str_eqb (a b : str) : bool :=
  if list_eq_dec ascii_dec a b then true else false.

(** A string is truthy in JavaScript when it is not empty. *)
Definition truthy_str (s : str) : bool :=
  match s with [] => false | _ :: _ => true end.

(** ** Character classes of the three regular expressions *)

Definition in_range (lo hi : nat) (c : ascii) : bool :=
  (lo <=? nat_of_ascii c)%nat && (nat_of_ascii c <=? hi)%nat.

Definition is_digit : ascii -> bool := in_range 48 57.   (* [0-9] *)
Definition is_nonzero : ascii -> bool := in_range 49 57. (* [1-9] *)
Definition is_zero (c : ascii) : bool := Ascii.eqb c "0".
Definition is_dot (c : ascii) : bool := Ascii.eqb c ".".
Definition is_sign (c : ascii) : bool := Ascii.eqb c "+" || Ascii.eqb c "-". (* [+-] *)
Definition is_exp (c : ascii) : bool := Ascii.eqb c "e" || Ascii.eqb c "E".  (* [eE] *)

(** ** A backtracking matcher *)

Module Regex.

(** The fragment of the JavaScript pattern language that the source uses. *)
Inductive regex : Type :=
| Empty                          (* the empty pattern *)
| Class (p : ascii -> bool)      (* one character of a class *)
| Seq (r1 r2 : regex)            (* r1 r2 *)
| Alt (r1 r2 : regex)            (* r1|r2, left alternative first *)
| Star (r : regex)               (* r*, greedy *)
| Group (n : nat) (r : regex)    (* capture group number n *)
| Bol                            (* ^ without the m flag *)
| Eol                            (* $ without the m flag *)
| NotAhead (r : regex).          (* (?!r) *)

(* r?, greedy; the same as "r or nothing" for an r that cannot match the
   empty text, which is the case of every r? in the source *)
Definition Opt (r : regex) : regex := Alt r Empty.
Definition Plus (r : regex) : regex := Seq r (Star r).   (* r+, greedy *)

(** A matcher state: the index reached in the input, the input left to
    read, and the captures closed so far (latest first). *)
Record mstate : Type := MState {
  m_pos : nat;
  m_rest : str;
  m_caps : list (nat * str)
}.

Definition close_group (n : nat) (start st : mstate) : mstate :=
  MState (m_pos st) (m_rest st)
         ((n, firstn (m_pos st - m_pos start) (m_rest start)) :: m_caps st).

(** Greedy iteration: one more round first, then stop here.  A round that
    consumes nothing is not taken (ECMA-262, RepeatMatcher). *)
Fixpoint iterate (step : mstate -> list mstate) (fuel : nat) (st : mstate)
  : list mstate :=
  match fuel with
  | O => [st]
  | S f =>
      flat_map (fun st' => if (m_pos st <? m_pos st')%nat
                           then iterate step f st' else [])
               (step st) ++ [st]
  end.

(** [run r st] lists every way [r] matches at [st], in the order in which
    a backtracking engine tries them. *)
Fixpoint run (r : regex) (st : mstate) {struct r} : list mstate :=
  match r with
  | Empty => [st]
  | Class p =>
      match m_rest st with
      | c :: t => if p c then [MState (S (m_pos st)) t (m_caps st)] else []
      | [] => []
      end
  | Seq r1 r2 => flat_map (run r2) (run r1 st)
  | Alt r1 r2 => run r1 st ++ run r2 st
  | Star r1 => iterate (run r1) (S (length (m_rest st))) st
  | Group n r1 => map (close_group n st) (run r1 st)
  | Bol => if (m_pos st =? 0)%nat then [st] else []
  | Eol => match m_rest st with [] => [st] | _ :: _ => [] end
  | NotAhead r1 => match run r1 st with [] => [st] | _ :: _ => [] end
  end.

(** The result of [RegExp.prototype.exec]: where the match starts, the
    matched text, and the captures. *)
Record match_result : Type := MatchResult {
  index : nat;
  matched : str;
  captures : list (nat * str)
}.

(** The engine tries every start index from the left and keeps the first
    way of matching at the first index that has one. *)
Fixpoint exec_at (r : regex) (i : nat) (rest : str) : option match_result :=
  match run r (MState i rest []) with
  | st :: _ => Some (MatchResult i (firstn (m_pos st - i) rest) (m_caps st))
  | [] =>
      match rest with
      | [] => None
      | _ :: t => exec_at r (S i) t
      end
  end.

Definition exec (r : regex) (s : str) : option match_result := exec_at r 0 s.

(** [match[n]]: [None] is JavaScript's [undefined] (the group took no part
    in the match). *)
Fixpoint lookup (n : nat) (caps : list (nat * str)) : option str :=
  match caps with
  | [] => None
  | (k, v) :: t => if (k =? n)%nat then Some v else lookup n t
  end.

Definition group (m : match_result) (n : nat) : option str :=
  lookup n (captures m).

(** Replacement patterns: literal text and [$n]. *)
Inductive repl_item : Type :=
| RText (s : str)
| RGroup (n : nat).

Definition expand_item (m : match_result) (it : repl_item) : str :=
  match it with
  | RText s => s
  | RGroup n => match group m n with Some v => v | None => [] end
  end.

Definition expand (m : match_result) (tpl : list repl_item) : str :=
  flat_map (expand_item m) tpl.

(** [s.replace(r, tpl)] for a pattern without the g flag. *)
Definition replace (s : str) (r : regex) (tpl : list repl_item) : str :=
  match exec r s with
  | None => s
  | Some m =>
      firstn (index m) s ++ expand m tpl
        ++ skipn (index m + length (matched m)) s
  end.

End Regex.

Import Regex.

Infix ">>" := Seq (at level 61, right associativity).

(** The patterns of the source, transcribed token by token (the comments
    quote them with blanks between the tokens). *)

(** [^ ([+-]?) 0* ([1-9][0-9]*|) (?: \. ([0-9]*[1-9]|) 0* )? (?: [eE] ([+-]?[0-9]+) )? $] *)
Definition re_number : regex :=
  Bol
  >> Group 1 (Opt (Class is_sign))
  >> Star (Class is_zero)
  >> Group 2 (Alt (Class is_nonzero >> Star (Class is_digit)) Empty)
  >> Opt (Class is_dot
          >> Group 3 (Alt (Star (Class is_digit) >> Class is_nonzero) Empty)
          >> Star (Class is_zero))
  >> Opt (Class is_exp
          >> Group 4 (Opt (Class is_sign) >> Plus (Class is_digit)))
  >> Eol.

(** [^ (?: 0 (?! \. | $ ) )+] *)
Definition re_leading_zeros : regex :=
  Bol >> Plus (Class is_zero >> NotAhead (Alt (Class is_dot) Eol)).

(** [(?: \. 0+ | ( \. [0-9]* [1-9] ) 0+ ) $] *)
Definition re_trailing_zeros : regex :=
  Alt (Class is_dot >> Plus (Class is_zero))
      (Group 1 (Class is_dot >> Star (Class is_digit) >> Class is_nonzero)
       >> Plus (Class is_zero))
  >> Eol.

(** ** JavaScript numbers *)

(** *** Numbers as inputs

    A number reaches [Num2FracStr] only through [String(number)].  Following
    ECMA-262 (Number::toString), a finite nonzero number is given by its
    sign, the digits [s] of its shortest round-trip decimal and the position
    [n] of the decimal point: the value is [0.s * 10^n]. *)
Inductive number : Type :=
| NaN
| Infinity (negative : bool)
| Zero (negative : bool)
| Finite (negative : bool) (digits : str) (n : Z).

Definition digit_char (d : Z) : ascii := ascii_of_nat (48 + Z.to_nat d).

Fixpoint decimal_digits (fuel : nat) (z : Z) : str :=
  match fuel with
  | O => []
  | S f =>
      if z <? 10 then [digit_char z]
      else decimal_digits f (z / 10) ++ [digit_char (z mod 10)]
  end.

(** The decimal numeral of a natural number. *)
Definition decimal (z : Z) : str := decimal_digits (S (Z.to_nat (Z.log2 z))) z.

Definition zeros (k : nat) : str := repeat "0"%char k.

(** Number::toString(x, 10), steps 1 to 10. *)
Definition Number_toString (x : number) : str :=
  match x with
  | NaN => lit "NaN"
  | Zero _ => lit "0"
  | Infinity neg => (if neg then lit "-" else []) ++ lit "Infinity"
  | Finite neg s n =>
      let k := Z.of_nat (length s) in
      (if neg then lit "-" else []) ++
      (if (-5 <=? n) && (n <=? 21) then
         if k <=? n then s ++ zeros (Z.to_nat (n - k))
         else if 0 <? n then
           firstn (Z.to_nat n) s ++ lit "." ++ skipn (Z.to_nat n) s
         else lit "0." ++ zeros (Z.to_nat (- n)) ++ s
       else
         let e := n - 1 in
         let c := if e <? 0 then lit "-" else lit "+" in
         match s with
         | [d] => [d] ++ lit "e" ++ c ++ decimal (Z.abs e)
         | _ => firstn 1 s ++ lit "." ++ skipn 1 s
                  ++ lit "e" ++ c ++ decimal (Z.abs e)
         end)
  end.

(** The two kinds of argument the function is written for. *)
Inductive value : Type :=
| VNumber (x : number)
| VString (s : str).

(** [String(number)] *)
Definition String_ (v : value) : str :=
  match v with
  | VNumber x => Number_toString x
  | VString s => s
  end.

(** [typeof number == "number"] *)
Definition typeof_number (v : value) : bool :=
  match v with VNumber _ => true | VString _ => false end.

(** *** Numbers in the exponent arithmetic

    [exponent] and [mantissa_int_len] are doubles whose values are integers,
    infinities, or NaN. *)
Inductive num : Type :=
| NNaN
| NInf (negative : bool)
| NFin (z : Z).

(** Round an integer to the nearest double, ties to even; magnitudes that
    round to [2^1024] or more become infinite. *)
Definition round_double (z : Z) : num :=
  let a := Z.abs z in
  if a <? 2 ^ 53 then NFin z
  else
    let e := Z.log2 a - 52 in
    let q := Z.shiftr a e in
    let r := a - Z.shiftl q e in
    let half := Z.shiftl 1 (e - 1) in
    let q' := if r <? half then q
              else if half <? r then q + 1
              else if Z.even q then q else q + 1 in
    let v := Z.shiftl q' e in
    if 2 ^ 1024 <=? v then NInf (z <? 0) else NFin (Z.sgn z * v).

Definition digit_value (c : ascii) : Z := Z.of_nat (nat_of_ascii c) - 48.

(** The integer written by a run of decimal digits. *)
Definition Z_of_digits (ds : str) : Z :=
  fold_left (fun acc c => 10 * acc + digit_value c) ds 0.

(** The integer written by [[+-]?[0-9]+], the form of the fourth group. *)
Definition Z_of_signed (t : str) : Z :=
  match t with
  | c :: ds =>
      if Ascii.eqb c "-" then - Z_of_digits ds
      else if Ascii.eqb c "+" then Z_of_digits ds
      else Z_of_digits t
  | [] => 0
  end.

Definition is_signed_digits (t : str) : bool :=
  match t with
  | c :: ds =>
      if is_sign c then truthy_str ds && forallb is_digit ds
      else forallb is_digit t
  | [] => false
  end.

(** [Number(match[4])].  [Number(undefined)] is NaN.  Of the strings, only
    signed decimal integers are modelled, since the pattern lets nothing
    else into the fourth group (lemma [group4_signed_digits] below); any
    other string is mapped to NaN. *)
Definition Number_ (g : option str) : num :=
  match g with
  | None => NNaN
  | Some t => if is_signed_digits t then round_double (Z_of_signed t) else NNaN
  end.

(** Truthiness of a number: NaN and zero are falsy. *)
Definition truthy_num (d : num) : bool :=
  match d with
  | NNaN => false
  | NInf _ => true
  | NFin z => negb (z =? 0)
  end.

(** [len + d], where [len] is the length of a string. *)
Definition num_add_length (len : nat) (d : num) : num :=
  match d with
  | NFin z => round_double (Z.of_nat len + z)
  | _ => d
  end.

(** [len <= d] *)
Definition length_le_num (len : nat) (d : num) : bool :=
  match d with
  | NNaN => false
  | NInf neg => negb neg
  | NFin z => Z.of_nat len <=? z
  end.

(** [0 < d] *)
Definition num_pos (d : num) : bool :=
  match d with
  | NNaN => false
  | NInf neg => negb neg
  | NFin z => 0 <? z
  end.

(** [-d] *)
Definition num_neg (d : num) : num :=
  match d with
  | NNaN => NNaN
  | NInf neg => NInf (negb neg)
  | NFin z => NFin (- z)
  end.

(** ** String built-ins *)

Inductive error : Type :=
| Error (message : str)   (* new Error(message) *)
| RangeError.             (* thrown by the built-ins *)

Inductive outcome (A : Type) : Type :=
| Return (a : A)
| Throw (e : error).

Arguments Return {A} a.
Arguments Throw {A} e.

Definition bind {A B : Type} (o : outcome A) (f : A -> outcome B) : outcome B :=
  match o with
  | Return a => f a
  | Throw e => Throw e
  end.

Notation "x <- c ;; k" := (bind c (fun x => k))
  (at level 100, c at next level, right associativity).

(** ToLength: clamp to [0, 2^53 - 1]. *)
Definition ToLength (d : num) : Z :=
  match d with
  | NNaN => 0
  | NInf neg => if neg then 0 else 2 ^ 53 - 1
  | NFin z => Z.min (Z.max z 0) (2 ^ 53 - 1)
  end.

(** [s.padEnd(maxLength, "0")].  An engine throws a RangeError when the
    padded text would be longer than its limit on strings; that limit is
    not part of the model, which pads up to the 2^53 - 1 of ToLength. *)
Definition padEnd0 (s : str) (maxLength : num) : str :=
  let intMaxLength := ToLength maxLength in
  if intMaxLength <=? Z.of_nat (length s) then s
  else s ++ zeros (Z.to_nat (intMaxLength - Z.of_nat (length s))).

(** The index that [slice] derives from a relative position. *)
Definition slice_index (len : nat) (d : num) : nat :=
  match d with
  | NNaN => O
  | NInf neg => if neg then O else len
  | NFin z => if z <? 0 then Z.to_nat (Z.max (Z.of_nat len + z) 0)
              else Z.to_nat (Z.min z (Z.of_nat len))
  end.

(** [s.slice(start, end)]; [end] omitted means the length of [s]. *)
Definition slice (s : str) (start : num) (end_ : option num) : str :=
  let from := slice_index (length s) start in
  let to := match end_ with
            | None => length s
            | Some d => slice_index (length s) d
            end in
  firstn (to - from) (skipn from s).

(** ["0".repeat(count)]: a negative or infinite count is a RangeError.  For
    a finite count an engine throws a RangeError as well when the text would
    be longer than its limit on strings; that limit is not part of the
    model. *)
Definition repeat0 (count : num) : outcome str :=
  match count with
  | NNaN => Return []
  | NInf _ => Throw RangeError
  | NFin z => if z <? 0 then Throw RangeError else Return (zeros (Z.to_nat z))
  end.

(** ** The function *)

(** The four constants that the function reads off the match. *)
Record parsed : Type := Parsed {
  sign : str;
  mantissa_int : str;
  mantissa_frac : str;
  exponent : num
}.

Definition group_text (m : match_result) (n : nat) : str :=
  match group m n with Some v => v | None => [] end.

Definition parse_match (m : match_result) : parsed :=
  {| sign := match group m 1 with
             | Some g => if str_eqb g (lit "-") then lit "-" else []
             | None => []
             end;
     (* the second group takes part in every match (lemma [group2_defined]) *)
     mantissa_int := group_text m 2;
     mantissa_frac := match group m 3 with
                      | Some g => if truthy_str g then g else []
                      | None => []
                      end;
     exponent := Number_ (group m 4) |}.

(** [numStr.match(...)] followed by the four [const] lines. *)
Definition parse (numStr : str) : option parsed :=
  option_map parse_match (exec re_number numStr).

(** The [if (exponent) ... else if ... else if ...] statement: the value of
    [returnValue] when it is done. *)
Definition reconstruct (p : parsed) : outcome str :=
  if truthy_num (exponent p) then
    let mantissa_str := mantissa_int p ++ mantissa_frac p in
    let mantissa_len := length mantissa_str in
    if (0 <? mantissa_len)%nat then
      let mantissa_int_len := num_add_length (length (mantissa_int p)) (exponent p) in
      if length_le_num mantissa_len mantissa_int_len then
        Return (padEnd0 mantissa_str mantissa_int_len)
      else if num_pos mantissa_int_len then
        Return (slice mantissa_str (NFin 0) (Some mantissa_int_len)
                  ++ lit "." ++ slice mantissa_str mantissa_int_len None)
      else
        z <- repeat0 (num_neg mantissa_int_len) ;;
        Return (lit "0." ++ z ++ mantissa_str)
    else Return []
  else if truthy_str (mantissa_frac p) then
    Return ((if truthy_str (mantissa_int p) then mantissa_int p else lit "0")
              ++ lit "." ++ mantissa_frac p)
  else if truthy_str (mantissa_int p) then
    Return (mantissa_int p)
  else Return [].

(** The two [replace] calls of the [return] statement. *)
Definition normalize_zeros (returnValue : str) : str :=
  replace (replace returnValue re_leading_zeros [])
          re_trailing_zeros [RGroup 1].

(** The [return] statement. *)
Definition finish (sign : str) (returnValue : str) : str :=
  if truthy_str returnValue then sign ++ normalize_zeros returnValue
  else lit "0".

Definition quote : ascii := ascii_of_nat 34.

Definition invalid_number (numStr : str) : error :=
  Error (lit "Invalid Number: " ++ [quote] ++ numStr ++ [quote]).

Definition Num2FracStr (number : value) : outcome str :=
  let numStr := String_ number in
  match parse numStr with
  | None =>
      if typeof_number number then Return numStr
      else Throw (invalid_number numStr)
  | Some p =>
      returnValue <- reconstruct p ;;
      Return (finish (sign p) returnValue)
  end.

(** ** The grammar, read directly

    A scanner for the numeric-literal grammar (an optional sign, digits, an
    optional point followed by digits, an optional exponent: e or E, an
    optional sign, at least one digit), written without the matcher.  It
    keeps the digits as they stand in the text. *)

Fixpoint take_while (p : ascii -> bool) (s : str) : str :=
  match s with
  | c :: t => if p c then c :: take_while p t else []
  | [] => []
  end.

Fixpoint drop_while (p : ascii -> bool) (s : str) : str :=
  match s with
  | c :: t => if p c then drop_while p t else s
  | [] => []
  end.

(** Remove the zeros at the end of a run of digits. *)
Fixpoint strip_trailing (ds : str) : str :=
  match ds with
  | [] => []
  | c :: t =>
      match strip_trailing t with
      | [] => if is_zero c then [] else [c]
      | t' => c :: t'
      end
  end.

Record raw : Type := Raw {
  r_sign : str;          (* empty, "+" or "-" *)
  r_int : str;           (* the digits before the point *)
  r_frac : option str;   (* the digits after the point, when there is a point *)
  r_exp : option str     (* the text after e or E, when there is an exponent *)
}.

Definition scan_exp (ri : str) (rf : option str) (sg : str) (s : str)
  : option raw :=
  match s with
  | [] => Some (Raw sg ri rf None)
  | c :: t =>
      if is_exp c && is_signed_digits t then Some (Raw sg ri rf (Some t))
      else None
  end.

Definition scan_frac (ri : str) (sg : str) (s : str) : option raw :=
  match s with
  | c :: t =>
      if is_dot c
      then scan_exp ri (Some (take_while is_digit t)) sg (drop_while is_digit t)
      else scan_exp ri None sg s
  | [] => scan_exp ri None sg s
  end.

Definition scan_int (sg : str) (s : str) : option raw :=
  scan_frac (take_while is_digit s) sg (drop_while is_digit s).

Definition scan (s : str) : option raw :=
  match s with
  | c :: t => if is_sign c then scan_int [c] t else scan_int [] s
  | [] => scan_int [] s
  end.

(** The captures that the pattern of [match] takes from a literal. *)
Definition raw_captures (r : raw) : list (nat * str) :=
  match r_exp r with Some e => [(4%nat, e)] | None => [] end
  ++ match r_frac r with Some f => [(3%nat, strip_trailing f)] | None => [] end
  ++ [(2%nat, drop_while is_zero (r_int r)); (1%nat, r_sign r)].

(** The number a literal denotes, in exact rational arithmetic. *)
Definition raw_exponent (r : raw) : Z :=
  match r_exp r with Some e => Z_of_signed e | None => 0 end.

Definition raw_frac (r : raw) : str :=
  match r_frac r with Some f => f | None => [] end.

Definition decimal_Q (negative : bool) (m : Z) (e : Z) : Q :=
  (if negative then -1 else 1) * inject_Z m * (10 # 1) ^ e.

Definition raw_value (r : raw) : Q :=
  decimal_Q (str_eqb (r_sign r) (lit "-"))
            (Z_of_digits (r_int r ++ raw_frac r))
            (raw_exponent r - Z.of_nat (length (raw_frac r))).

Definition literal_value (s : str) : option Q := option_map raw_value (scan s).

(** ** Closed forms used in the proofs about the matcher *)

(** All the ways [p*] matches, longest first. *)
Fixpoint star_class (p : ascii -> bool) (i : nat) (rest : str)
  (caps : list (nat * str)) : list mstate :=
  match rest with
  | c :: t =>
      if p c then star_class p (S i) t caps ++ [MState i rest caps]
      else [MState i rest caps]
  | [] => [MState i [] caps]
  end.

(** The state after the longest run of [p]. *)
Definition skip (p : ascii -> bool) (st : mstate) : mstate :=
  MState (m_pos st + length (take_while p (m_rest st)))
         (drop_while p (m_rest st)) (m_caps st).

(** The tail of [re_number] from the exponent on. *)
Definition tail_exp : regex :=
  Opt (Class is_exp >> Group 4 (Opt (Class is_sign) >> Plus (Class is_digit)))
  >> Eol.

Definition tail_frac : regex :=
  Opt (Class is_dot
       >> Group 3 (Alt (Star (Class is_digit) >> Class is_nonzero) Empty)
       >> Star (Class is_zero))
  >> tail_exp.

Definition tail_int : regex :=
  Group 2 (Alt (Class is_nonzero >> Star (Class is_digit)) Empty) >> tail_frac.

Definition after_exp (st : mstate) : list mstate :=
  match m_rest st with
  | [] => [st]
  | c :: t =>
      if is_exp c && is_signed_digits t
      then [MState (m_pos st + length (m_rest st)) [] ((4%nat, t) :: m_caps st)]
      else []
  end.

Definition after_frac (st : mstate) : list mstate :=
  match m_rest st with
  | c :: t =>
      if is_dot c
      then after_exp (MState (S (m_pos st) + length (take_while is_digit t))
                             (drop_while is_digit t)
                             ((3%nat, strip_trailing (take_while is_digit t))
                                :: m_caps st))
      else after_exp st
  | [] => after_exp st
  end.

Definition after_int (st : mstate) : list mstate :=
  after_frac (MState (m_pos st + length (take_while is_digit (m_rest st)))
                     (drop_while is_digit (m_rest st))
                     ((2%nat, take_while is_digit (m_rest st)) :: m_caps st)).

(** A zero that the first [replace] removes: one that is followed by a
    character other than the point. *)
Definition strippable (s : str) : bool :=
  match s with
  | c :: c' :: _ => is_zero c && negb (is_dot c')
  | _ => false
  end.

Fixpoint strip_leading (s : str) : str :=
  match s with
  | c :: t => if strippable s then strip_leading t else s
  | [] => []
  end.

(** What the second [replace] does to [a ++ "." ++ ds]. *)
Definition strip_fraction (a ds : str) : str :=
  match strip_trailing ds with
  | [] => match ds with [] => a ++ lit "." | _ :: _ => a end
  | core => a ++ lit "." ++ core
  end.

(** The constants of [parse_match], from the scanner's view of the text. *)
Definition parsed_of_raw (r : raw) : parsed :=
  {| sign := if str_eqb (r_sign r) (lit "-") then lit "-" else [];
     mantissa_int := drop_while is_zero (r_int r);
     mantissa_frac := strip_trailing (raw_frac r);
     exponent := Number_ (r_exp r) |}.

(** One round of the first [replace]: a zero, not followed by the point or
    by the end. *)
Definition lead_zero : regex :=
  Class is_zero >> NotAhead (Alt (Class is_dot) Eol).

(** ** Canonical decimal strings *)

(** The integer part once the first [replace] is done with it: the leading
    zeros are gone, except one when there is nothing else. *)
Definition lead (a : str) : str :=
  match drop_while is_zero a with
  | [] => match a with [] => [] | _ :: _ => lit "0" end
  | x :: u => x :: u
  end.

(** Digits that start with a nonzero one. *)
Definition positive_digits (I : str) : Prop :=
  forallb is_digit I = true
  /\ exists c t, I = c :: t /\ is_nonzero c = true.

Definition canonical_int (I : str) : Prop :=
  I = lit "0" \/ positive_digits I.

(** Digits that end with a nonzero one. *)
Definition canonical_frac (F : str) : Prop :=
  forallb is_digit F = true /\ F <> [] /\ strip_trailing F = F.

Definition sign_text (sg : str) : Prop := sg = [] \/ sg = lit "-".

(** The two forms of a result, the sign apart. *)
Definition canonical_unsigned (U : str) : Prop :=
  positive_digits U
  \/ exists I F, U = I ++ lit "." ++ F /\ canonical_int I /\ canonical_frac F.

(** The strings that [Num2FracStr] returns for an input of the grammar. *)
Inductive canonical : str -> Prop :=
| canonical_zero : canonical (lit "0")
| canonical_integer sg I :
    sign_text sg -> positive_digits I -> canonical (sg ++ I)
| canonical_fraction sg I F :
    sign_text sg -> canonical_int I -> canonical_frac F ->
    canonical (sg ++ I ++ lit "." ++ F).

(** The invariants of the parsed constants (section 3 of the specification,
    and that they are digits). *)
Definition wf_parsed (p : parsed) : Prop :=
  sign_text (sign p)
  /\ (mantissa_int p = [] \/ positive_digits (mantissa_int p))
  /\ forallb is_digit (mantissa_frac p) = true
  /\ strip_trailing (mantissa_frac p) = mantissa_frac p.

Definition mantissa (p : parsed) : str := mantissa_int p ++ mantissa_frac p.

(** The exponent part of the text of a literal. *)
Definition exp_text (r : raw) (s : str) : Prop :=
  match r_exp r with
  | None => s = []
  | Some e => exists c, s = c :: e /\ is_exp c = true
                        /\ is_signed_digits e = true
  end.

(** The three forms of a [returnValue] that is not empty, for the
    mantissa [m]. *)
Inductive shape (m : str) : str -> Prop :=
| shape_padded k : shape m (m ++ zeros k)
| shape_split n :
    (0 < n < length m)%nat ->
    shape m (firstn n m ++ lit "." ++ skipn n m)
| shape_small k : shape m (lit "0." ++ zeros k ++ m).

(** ** Numbers that a double can be

    The digits of a finite nonzero double are its shortest round-trip
    decimal: at most 17 digits, the first and the last not zero; the
    decimal point lies between 10^-323 and 10^309. *)
Definition wf_number (x : number) : Prop :=
  match x with
  | Finite _ s n =>
      positive_digits s /\ strip_trailing s = s
      /\ (length s <= 17)%nat /\ -323 <= n <= 309
  | _ => True
  end.

Definition wf_value (v : value) : Prop :=
  match v with
  | VNumber x => wf_number x
  | VString _ => True
  end.

(** The text after the sign of a literal. *)
Definition frac_text (o : option str) : str :=
  match o with Some F => lit "." ++ F | None => [] end.

(** ** Notions used by the statements *)

(** The characters a literal is made of. *)
Definition is_literal_char (c : ascii) : bool :=
  is_digit c || is_sign c || is_dot c || is_exp c.

(** White space and line terminators of JavaScript among the characters
    below 256: tab, line feed, vertical tab, form feed, carriage return,
    space, no-break space. *)
Definition is_space (c : ascii) : bool :=
  existsb (Nat.eqb (nat_of_ascii c)) [9; 10; 11; 12; 13; 32; 160]%nat.

(** A result without its minus sign. *)
Definition unsigned_part (out : str) : str :=
  match out with
  | c :: t => if Ascii.eqb c "-" then t else out
  | [] => []
  end.

(** The reconstruction step in the words of the specification (section 4.1,
    step 2), for a literal whose exponent is the integer [e]. *)
Definition splitPoint (p : parsed) (e : Z) : Z :=
  Z.of_nat (length (mantissa_int p)) + e.

Definition spec_unsigned (p : parsed) (e : Z) : str :=
  let m := mantissa p in
  let sp := splitPoint p e in
  if Z.of_nat (length m) <=? sp
  then m ++ zeros (Z.to_nat (sp - Z.of_nat (length m)))
  else if 0 <? sp
  then firstn (Z.to_nat sp) m ++ lit "." ++ skipn (Z.to_nat sp) m
  else lit "0." ++ zeros (Z.to_nat (- sp)) ++ m.

(** The exponent written in a text, 0 when there is none. *)
Definition literal_exponent (s : str) : Z :=
  match scan s with
  | Some r => raw_exponent r
  | None => 0
  end.

(** A literal of the grammar whose exponent no double holds: 1e-1000...0,
    with four hundred zeros. *)
Definition tiny_literal : str := lit "1e-1" ++ zeros 400.

(** ** The fixed notation of a number

    The three forms in which Number::toString writes the digits [s] of a
    number with the decimal point after the [n]-th digit, taken without the
    test that confines them to -5 <= n <= 21. *)
Definition fixed_notation (s : str) (n : Z) : str :=
  let k := Z.of_nat (length s) in
  if k <=? n then s ++ zeros (Z.to_nat (n - k))
  else if 0 <? n then
    firstn (Z.to_nat n) s ++ lit "." ++ skipn (Z.to_nat n) s
  else lit "0." ++ zeros (Z.to_nat (- n)) ++ s.

Definition Number_fixed (x : number) : str :=
  match x with
  | NaN => lit "NaN"
  | Zero _ => lit "0"
  | Infinity neg => (if neg then lit "-" else []) ++ lit "Infinity"
  | Finite neg s n => (if neg then lit "-" else []) ++ fixed_notation s n
  end.

(** The text of a decimal number from a sign, the digits before the point
    and the digits after it; no point is written when nothing follows. *)
Definition decimal_text (neg : bool) (I F : str) : str :=
  (if neg then lit "-" else [])
    ++ I ++ match F with [] => [] | _ :: _ => lit "." ++ F end.

(** * Properties *)

(** ** Examples from the comments of the source *)

Example ex_12145e7 :
  Num2FracStr (VString (lit "12.145e+7")) = Return (lit "121450000").
Proof. vm_compute. reflexivity. Qed.

Example ex_12145e2 :
  Num2FracStr (VString (lit "12.145e+2")) = Return (lit "1214.5").
Proof. vm_compute. reflexivity. Qed.

Example ex_12145em7 :
  Num2FracStr (VString (lit "12.145e-7")) = Return (lit "0.0000012145").
Proof. vm_compute. reflexivity. Qed.

(** ** Character classes *)

Ltac by_cases_on_ascii c :=
  destruct c as [[] [] [] [] [] [] [] []]; vm_compute; try reflexivity;
  try discriminate; auto.

Lemma is_zero_eq c : is_zero c = true -> c = "0"%char.
Proof. unfold is_zero. intros H. apply Ascii.eqb_eq in H. exact H. Qed.

Lemma nonzero_is_digit c : is_nonzero c = true -> is_digit c = true.
Proof. by_cases_on_ascii c. Qed.

Lemma zero_is_digit c : is_zero c = true -> is_digit c = true.
Proof. by_cases_on_ascii c. Qed.

Lemma nonzero_not_zero c : is_nonzero c = true -> is_zero c = false.
Proof. by_cases_on_ascii c. Qed.

Lemma digit_zero_or_nonzero c :
  is_digit c = true -> is_zero c = negb (is_nonzero c).
Proof. by_cases_on_ascii c. Qed.

Lemma nondigit_not_nonzero c : is_digit c = false -> is_nonzero c = false.
Proof. by_cases_on_ascii c. Qed.

Lemma nondigit_not_zero c : is_digit c = false -> is_zero c = false.
Proof. by_cases_on_ascii c. Qed.

Lemma digit_not_exp c : is_digit c = true -> is_exp c = false.
Proof. by_cases_on_ascii c. Qed.

Lemma digit_not_dot c : is_digit c = true -> is_dot c = false.
Proof. by_cases_on_ascii c. Qed.

Lemma digit_not_sign c : is_digit c = true -> is_sign c = false.
Proof. by_cases_on_ascii c. Qed.

Lemma dot_not_exp c : is_dot c = true -> is_exp c = false.
Proof. by_cases_on_ascii c. Qed.

Lemma dot_not_digit c : is_dot c = true -> is_digit c = false.
Proof. by_cases_on_ascii c. Qed.

Lemma sign_not_exp c : is_sign c = true -> is_exp c = false.
Proof. by_cases_on_ascii c. Qed.

Lemma sign_not_dot c : is_sign c = true -> is_dot c = false.
Proof. by_cases_on_ascii c. Qed.

Lemma sign_not_digit c : is_sign c = true -> is_digit c = false.
Proof. by_cases_on_ascii c. Qed.

Lemma exp_not_digit c : is_exp c = true -> is_digit c = false.
Proof. by_cases_on_ascii c. Qed.

Lemma is_dot_eq c : is_dot c = true -> c = "."%char.
Proof. unfold is_dot. intros H. apply Ascii.eqb_eq in H. exact H. Qed.

(** ** Runs of characters *)

Section Runs.

Variable p : ascii -> bool.

Lemma take_drop_while s : take_while p s ++ drop_while p s = s.
Proof.
  induction s as [|c t IH]; simpl; [reflexivity|].
  destruct (p c); simpl; [now rewrite IH | reflexivity].
Qed.

Lemma take_while_all s : forallb p s = true -> take_while p s = s.
Proof.
  induction s as [|c t IH]; simpl; [reflexivity|].
  intros H. apply andb_true_iff in H as [Hc Ht]. rewrite Hc, IH; auto.
Qed.

Lemma drop_while_all s : forallb p s = true -> drop_while p s = [].
Proof.
  induction s as [|c t IH]; simpl; [reflexivity|].
  intros H. apply andb_true_iff in H as [Hc Ht]. rewrite Hc. auto.
Qed.

Lemma drop_while_nil_all s : drop_while p s = [] -> forallb p s = true.
Proof.
  induction s as [|c t IH]; simpl; [reflexivity|].
  destruct (p c); simpl; [exact IH | discriminate].
Qed.

Lemma forallb_take_while s : forallb p (take_while p s) = true.
Proof.
  induction s as [|c t IH]; simpl; [reflexivity|].
  destruct (p c) eqn:E; simpl; [now rewrite E | reflexivity].
Qed.

Lemma drop_while_head s c t : drop_while p s = c :: t -> p c = false.
Proof.
  induction s as [|a u IH]; simpl; [discriminate|].
  destruct (p a) eqn:E; [exact IH|]. intros H. injection H as -> _. exact E.
Qed.

Lemma take_while_app_stop a c t :
  forallb p a = true -> p c = false -> take_while p (a ++ c :: t) = a.
Proof.
  induction a as [|x a IH]; simpl; intros Ha Hc.
  - now rewrite Hc.
  - apply andb_true_iff in Ha as [Hx Ha]. rewrite Hx, IH; auto.
Qed.

Lemma drop_while_app_stop a c t :
  forallb p a = true -> p c = false -> drop_while p (a ++ c :: t) = c :: t.
Proof.
  induction a as [|x a IH]; simpl; intros Ha Hc.
  - now rewrite Hc.
  - apply andb_true_iff in Ha as [Hx Ha]. rewrite Hx, IH; auto.
Qed.

Lemma take_while_app_all a b :
  forallb p a = true -> take_while p (a ++ b) = a ++ take_while p b.
Proof.
  induction a as [|x a IH]; simpl; intros Ha; [reflexivity|].
  apply andb_true_iff in Ha as [Hx Ha]. rewrite Hx, IH; auto.
Qed.

Lemma drop_while_app_all a b :
  forallb p a = true -> drop_while p (a ++ b) = drop_while p b.
Proof.
  induction a as [|x a IH]; simpl; intros Ha; [reflexivity|].
  apply andb_true_iff in Ha as [Hx Ha]. rewrite Hx, IH; auto.
Qed.

End Runs.

Lemma forallb_weaken (p q : ascii -> bool) s :
  (forall c, p c = true -> q c = true) ->
  forallb p s = true -> forallb q s = true.
Proof.
  intros Hpq. induction s as [|c t IH]; simpl; [reflexivity|].
  intros H. apply andb_true_iff in H as [Hc Ht]. rewrite (Hpq _ Hc). auto.
Qed.

(** Skipping zeros first does not change where the digits end. *)
Lemma take_digits_drop_zeros s :
  take_while is_digit (drop_while is_zero s)
  = drop_while is_zero (take_while is_digit s).
Proof.
  induction s as [|c t IH]; simpl; [reflexivity|].
  destruct (is_zero c) eqn:Z.
  - rewrite (zero_is_digit _ Z). simpl. now rewrite Z.
  - simpl. destruct (is_digit c); simpl; [now rewrite Z | reflexivity].
Qed.

Lemma drop_digits_drop_zeros s :
  drop_while is_digit (drop_while is_zero s) = drop_while is_digit s.
Proof.
  induction s as [|c t IH]; simpl; [reflexivity|].
  destruct (is_zero c) eqn:Z.
  - now rewrite (zero_is_digit _ Z).
  - reflexivity.
Qed.

Lemma length_take_drop_zeros s :
  (length (take_while is_zero s)
   + length (take_while is_digit (drop_while is_zero s))
   = length (take_while is_digit s))%nat.
Proof.
  induction s as [|c t IH]; simpl; [reflexivity|].
  destruct (is_zero c) eqn:Z.
  - rewrite (zero_is_digit _ Z). simpl. now rewrite IH.
  - simpl. destruct (is_digit c); reflexivity.
Qed.

(** ** Trailing zeros *)

Lemma strip_trailing_cons c t :
  strip_trailing (c :: t)
  = match strip_trailing t with
    | [] => if is_zero c then [] else [c]
    | t' => c :: t'
    end.
Proof. reflexivity. Qed.

Lemma strip_trailing_zeros_nil ds :
  forallb is_zero ds = true -> strip_trailing ds = [].
Proof.
  induction ds as [|c t IH]; [reflexivity|]. simpl forallb.
  intros H. apply andb_true_iff in H as [Hc Ht].
  rewrite strip_trailing_cons, IH, Hc; auto.
Qed.

Lemma strip_trailing_nil_zeros ds :
  strip_trailing ds = [] -> forallb is_zero ds = true.
Proof.
  induction ds as [|c t IH]; [reflexivity|].
  rewrite strip_trailing_cons. simpl forallb.
  destruct (strip_trailing t); [|discriminate].
  destruct (is_zero c); [auto | discriminate].
Qed.

(** A run of digits is its stripped part followed by zeros only. *)
Lemma strip_trailing_split ds :
  exists k, ds = strip_trailing ds ++ zeros k.
Proof.
  induction ds as [|c t [k IH]]; [exists O; reflexivity|].
  rewrite strip_trailing_cons.
  destruct (strip_trailing t) as [|x u] eqn:E.
  - destruct (is_zero c) eqn:Z.
    + exists (S k). rewrite (is_zero_eq _ Z).
      change (zeros (S k)) with ("0"%char :: zeros k). simpl. f_equal. exact IH.
    + exists k. simpl. f_equal. exact IH.
  - exists k. rewrite <- app_comm_cons. f_equal. exact IH.
Qed.

Lemma strip_trailing_last ds c u :
  strip_trailing ds = u ++ [c] -> is_zero c = false.
Proof.
  revert u. induction ds as [|a t IH]; intros u.
  - destruct u; discriminate.
  - rewrite strip_trailing_cons.
    destruct (strip_trailing t) as [|x v] eqn:E.
    + destruct (is_zero a) eqn:Z; [destruct u; discriminate|].
      destruct u as [|y u]; simpl; intros H.
      * injection H as ->. exact Z.
      * injection H as _ H. destruct u; discriminate.
    + destruct u as [|y u]; simpl; intros H; [discriminate|].
      injection H as _ H. eapply IH. exact H.
Qed.

Lemma strip_trailing_app_zeros ds k :
  strip_trailing (ds ++ zeros k) = strip_trailing ds.
Proof.
  induction ds as [|c t IH].
  - simpl. apply strip_trailing_zeros_nil.
    induction k; simpl; auto.
  - change ((c :: t) ++ zeros k) with (c :: (t ++ zeros k)).
    now rewrite !strip_trailing_cons, IH.
Qed.

Lemma strip_trailing_fixed ds c :
  is_zero c = false -> strip_trailing (ds ++ [c]) = ds ++ [c].
Proof.
  intros Z. induction ds as [|a t IH]; simpl.
  - now rewrite Z.
  - rewrite IH. destruct (t ++ [c]) eqn:E; [destruct t; discriminate|].
    reflexivity.
Qed.

Lemma strip_trailing_idem ds : strip_trailing (strip_trailing ds) = strip_trailing ds.
Proof.
  destruct (strip_trailing ds) as [|x u] eqn:E; [reflexivity|].
  destruct (exists_last (l := x :: u)) as (v & c & Hv); [discriminate|].
  rewrite Hv. apply strip_trailing_fixed.
  eapply strip_trailing_last. rewrite E. exact Hv.
Qed.

Lemma forallb_strip_trailing p ds :
  forallb p ds = true -> forallb p (strip_trailing ds) = true.
Proof.
  destruct (strip_trailing_split ds) as [k Hk]. intros H.
  rewrite Hk in H at 1. rewrite forallb_app in H.
  apply andb_true_iff in H. tauto.
Qed.

(** ** The matcher: unfolding equations *)

Lemma flat_map_flat_map {A B C : Type} (f : B -> list C) (g : A -> list B) l :
  flat_map f (flat_map g l) = flat_map (fun x => flat_map f (g x)) l.
Proof.
  induction l as [|a l IH]; simpl; [reflexivity|].
  now rewrite flat_map_app, IH.
Qed.

Lemma flat_map_map {A B C : Type} (f : B -> list C) (g : A -> B) l :
  flat_map f (map g l) = flat_map (fun x => f (g x)) l.
Proof.
  induction l as [|a l IH]; simpl; [reflexivity|]. now rewrite IH.
Qed.

Lemma flat_map_single {A B : Type} (f : A -> list B) a :
  flat_map f [a] = f a.
Proof. simpl. apply app_nil_r. Qed.

Lemma run_seq r1 r2 st : run (r1 >> r2) st = flat_map (run r2) (run r1 st).
Proof. reflexivity. Qed.

Lemma run_alt r1 r2 st : run (Alt r1 r2) st = run r1 st ++ run r2 st.
Proof. reflexivity. Qed.

Lemma run_empty st : run Empty st = [st].
Proof. reflexivity. Qed.

Lemma run_opt r st : run (Opt r) st = run r st ++ [st].
Proof. reflexivity. Qed.

Lemma run_plus r st : run (Plus r) st = flat_map (run (Star r)) (run r st).
Proof. reflexivity. Qed.

Lemma run_group n r st : run (Group n r) st = map (close_group n st) (run r st).
Proof. reflexivity. Qed.

Lemma run_class_cons p i c t caps :
  run (Class p) (MState i (c :: t) caps)
  = if p c then [MState (S i) t caps] else [].
Proof. reflexivity. Qed.

Lemma run_class_nil p i caps : run (Class p) (MState i [] caps) = [].
Proof. reflexivity. Qed.

Lemma run_eol st :
  run Eol st = match m_rest st with [] => [st] | _ :: _ => [] end.
Proof. reflexivity. Qed.

Lemma run_star r st :
  run (Star r) st = iterate (run r) (S (length (m_rest st))) st.
Proof. reflexivity. Qed.

(** ** Greedy repetition of a class *)

Lemma iterate_S step f st :
  iterate step (S f) st
  = flat_map (fun st' => if (m_pos st <? m_pos st')%nat
                         then iterate step f st' else [])
             (step st) ++ [st].
Proof. reflexivity. Qed.

Lemma iterate_class p rest :
  forall fuel i caps,
    (length rest < fuel)%nat ->
    iterate (run (Class p)) fuel (MState i rest caps) = star_class p i rest caps.
Proof.
  induction rest as [|c t IH]; intros fuel i caps Hf;
    (destruct fuel as [|f]; [inversion Hf|]).
  - reflexivity.
  - rewrite iterate_S, run_class_cons. simpl star_class.
    destruct (p c); [|reflexivity].
    rewrite flat_map_single. simpl m_pos.
    replace (i <? S i)%nat with true by (symmetry; apply Nat.ltb_lt; lia).
    rewrite IH; [reflexivity | simpl in Hf; lia].
Qed.

Lemma run_star_class p i rest caps :
  run (Star (Class p)) (MState i rest caps) = star_class p i rest caps.
Proof. rewrite run_star. apply iterate_class. simpl. lia. Qed.

(** A continuation that cannot start with a character of the class only
    ever succeeds after the longest run. *)
Lemma star_then p (k : mstate -> list mstate) :
  (forall i c t caps, p c = true -> k (MState i (c :: t) caps) = []) ->
  forall rest i caps,
    flat_map k (star_class p i rest caps) = k (skip p (MState i rest caps)).
Proof.
  intros Hk. induction rest as [|c t IH]; intros i caps.
  - simpl. unfold skip. simpl. rewrite Nat.add_0_r. apply app_nil_r.
  - simpl star_class. unfold skip. simpl m_rest. simpl take_while.
    simpl drop_while. destruct (p c) eqn:E.
    + rewrite flat_map_app, IH, flat_map_single, (Hk _ _ _ _ E), app_nil_r.
      unfold skip. simpl. now rewrite Nat.add_succ_r.
    + rewrite flat_map_single. simpl. now rewrite Nat.add_0_r.
Qed.

Lemma run_star_then p r st :
  (forall i c t caps, p c = true -> run r (MState i (c :: t) caps) = []) ->
  run (Star (Class p) >> r) st = run r (skip p st).
Proof.
  intros H. destruct st as [i rest caps].
  rewrite run_seq, run_star_class. now apply star_then.
Qed.

(** ** A digit run followed by a nonzero digit

    [[0-9]*[1-9]] offers the positions after each nonzero digit of the run,
    the last one first.  A continuation that fails while a nonzero digit is
    still ahead in the run succeeds only from the last one. *)
Lemma last_nonzero (G : mstate -> list mstate) :
  (forall i rest caps,
      strip_trailing (take_while is_digit rest) <> [] ->
      G (MState i rest caps) = []) ->
  forall rest i caps,
    flat_map G (run (Star (Class is_digit) >> Class is_nonzero)
                    (MState i rest caps))
    = if truthy_str (strip_trailing (take_while is_digit rest))
      then G (MState (i + length (strip_trailing (take_while is_digit rest)))
                     (skipn (length (strip_trailing (take_while is_digit rest)))
                            rest) caps)
      else [].
Proof.
  intros HG rest i caps. rewrite run_seq, run_star_class.
  revert i. induction rest as [|c t IH]; intros i.
  - reflexivity.
  - simpl star_class. simpl take_while. destruct (is_digit c) eqn:D.
    + rewrite flat_map_app, flat_map_app, IH, flat_map_single, run_class_cons.
      rewrite strip_trailing_cons.
      remember (strip_trailing (take_while is_digit t)) as core eqn:E.
      destruct core as [|x u].
      * rewrite (digit_zero_or_nonzero _ D).
        destruct (is_nonzero c); simpl.
        -- rewrite app_nil_r. f_equal; f_equal; lia.
        -- reflexivity.
      * destruct (is_nonzero c).
        -- rewrite flat_map_single, (HG (S i) t caps), app_nil_r
             by (rewrite <- E; discriminate).
           simpl. f_equal; f_equal; lia.
        -- simpl. rewrite app_nil_r. f_equal; f_equal; lia.
    + rewrite flat_map_single, run_class_cons.
      now rewrite (nondigit_not_nonzero _ D).
Qed.

(** How a text splits at the end of its leading digit run. *)
Lemma digit_run_split t :
  exists k,
    t = strip_trailing (take_while is_digit t) ++ zeros k
          ++ drop_while is_digit t
    /\ (length (strip_trailing (take_while is_digit t)) + k
        = length (take_while is_digit t))%nat.
Proof.
  destruct (strip_trailing_split (take_while is_digit t)) as [k Hk].
  exists k. split.
  - rewrite app_assoc, <- Hk. symmetry. apply take_drop_while.
  - rewrite Hk at 2. rewrite length_app. unfold zeros. now rewrite repeat_length.
Qed.

Lemma forallb_zeros k : forallb is_zero (zeros k) = true.
Proof. induction k; simpl; auto. Qed.

Lemma length_zeros k : length (zeros k) = k.
Proof. apply repeat_length. Qed.

Lemma drop_while_digit_head_not_zero t c u :
  drop_while is_digit t = c :: u -> is_zero c = false.
Proof.
  intros H. apply drop_while_head in H. now apply nondigit_not_zero.
Qed.

(** Skipping zeros from just after the stripped part of the run reaches
    the end of the run. *)
Lemma skip_zeros_after_core t i caps :
  let core := strip_trailing (take_while is_digit t) in
  skip is_zero (MState (i + length core) (skipn (length core) t) caps)
  = MState (i + length (take_while is_digit t)) (drop_while is_digit t) caps.
Proof.
  intros core. destruct (digit_run_split t) as (k & Hsplit & Hlen).
  fold core in Hsplit, Hlen. unfold skip. simpl.
  assert (Hs : skipn (length core) t = zeros k ++ drop_while is_digit t).
  { rewrite Hsplit at 1. rewrite skipn_app, skipn_all, Nat.sub_diag. reflexivity. }
  rewrite Hs.
  assert (Ht : take_while is_zero (zeros k ++ drop_while is_digit t) = zeros k
               /\ drop_while is_zero (zeros k ++ drop_while is_digit t)
                  = drop_while is_digit t).
  { destruct (drop_while is_digit t) as [|c u] eqn:E.
    - rewrite app_nil_r. split.
      + apply take_while_all, forallb_zeros.
      + apply drop_while_all, forallb_zeros.
    - pose proof (drop_while_digit_head_not_zero t c u E) as Z. split.
      + apply take_while_app_stop; [apply forallb_zeros | exact Z].
      + apply drop_while_app_stop; [apply forallb_zeros | exact Z]. }
  destruct Ht as [-> ->]. rewrite length_zeros. f_equal. lia.
Qed.

(** When a nonzero digit is still ahead in the run, skipping zeros stops
    at a digit. *)
Lemma skip_zeros_stops_at_digit rest :
  strip_trailing (take_while is_digit rest) <> [] ->
  exists c u, drop_while is_zero rest = c :: u /\ is_digit c = true.
Proof.
  induction rest as [|a t IH]; simpl; [congruence|].
  destruct (is_digit a) eqn:D; [|simpl; congruence].
  destruct (is_zero a) eqn:Z.
  - rewrite strip_trailing_cons, Z.
    destruct (strip_trailing (take_while is_digit t)) eqn:E; [congruence|].
    intros _. apply IH. discriminate.
  - intros _. now exists a, t.
Qed.

Lemma zero_run_is_digit_run t :
  strip_trailing (take_while is_digit t) = [] ->
  take_while is_zero t = take_while is_digit t
  /\ drop_while is_zero t = drop_while is_digit t.
Proof.
  induction t as [|c u IH]; simpl; [auto|].
  destruct (is_digit c) eqn:D.
  - rewrite strip_trailing_cons.
    destruct (strip_trailing (take_while is_digit u)) eqn:E; [|discriminate].
    destruct (is_zero c) eqn:Z; [|discriminate].
    intros _. destruct (IH eq_refl) as [-> ->]. auto.
  - rewrite (nondigit_not_zero _ D). auto.
Qed.

(** ** The pattern of [match]: the exponent *)

(** [p+] followed by something that needs the end of the input. *)
Lemma plus_to_end p (K : mstate -> list mstate) :
  (forall i c t caps, K (MState i (c :: t) caps) = []) ->
  forall u j caps,
    flat_map K (run (Plus (Class p)) (MState j u caps))
    = if truthy_str u && forallb p u
      then K (MState (j + length u) [] caps) else [].
Proof.
  intros HK u j caps. rewrite run_plus, flat_map_flat_map.
  destruct u as [|a v]; [reflexivity|].
  rewrite run_class_cons. simpl truthy_str. simpl forallb.
  destruct (p a); [|reflexivity].
  rewrite flat_map_single, run_star_class, star_then by (intros; apply HK).
  unfold skip. simpl.
  destruct (forallb p v) eqn:F.
  - rewrite (take_while_all _ _ F), (drop_while_all _ _ F).
    f_equal; f_equal; lia.
  - destruct (drop_while p v) eqn:E; [|apply HK].
    apply drop_while_nil_all in E. congruence.
Qed.

Lemma run_tail_exp st : run tail_exp st = after_exp st.
Proof.
  destruct st as [i rest caps]. unfold tail_exp, after_exp.
  rewrite run_seq, run_opt, flat_map_app, flat_map_single, run_eol.
  rewrite run_seq. cbn [m_pos m_rest m_caps].
  destruct rest as [|c t]; [reflexivity|].
  rewrite run_class_cons, app_nil_r.
  destruct (is_exp c); [|reflexivity].
  rewrite flat_map_single, run_group, flat_map_map, run_seq, run_opt.
  rewrite flat_map_flat_map, flat_map_app, flat_map_single. simpl andb.
  set (K := fun x => run Eol (close_group 4 (MState (S i) t caps) x)).
  assert (HK : forall j c t' caps', K (MState j (c :: t') caps') = [])
    by reflexivity.
  rewrite (plus_to_end is_digit K HK).
  destruct t as [|a v]; [reflexivity|].
  rewrite run_class_cons. unfold is_signed_digits.
  destruct (is_sign a) eqn:Sg.
  - rewrite flat_map_single, (plus_to_end is_digit K HK).
    simpl (forallb is_digit (a :: v)).
    rewrite (sign_not_digit _ Sg). simpl andb. rewrite app_nil_r.
    destruct (truthy_str v && forallb is_digit v); [|reflexivity].
    unfold K, close_group. cbn [m_pos m_rest m_caps]. rewrite run_eol.
    cbn [m_pos m_rest m_caps].
    replace (S (S i) + length v - S i)%nat with (length (a :: v))
      by (cbn [length]; lia).
    rewrite firstn_all. do 2 f_equal. cbn [length]; lia.
  - cbn [flat_map app truthy_str andb forallb].
    destruct (is_digit a && forallb is_digit v); [|reflexivity].
    unfold K, close_group. cbn [m_pos m_rest m_caps]. rewrite run_eol.
    cbn [m_pos m_rest m_caps].
    replace (S i + length (a :: v) - S i)%nat with (length (a :: v)) by lia.
    rewrite firstn_all. do 2 f_equal. cbn [length]; lia.
Qed.

Lemma after_exp_fails i c t caps :
  is_exp c = false -> after_exp (MState i (c :: t) caps) = [].
Proof. unfold after_exp. simpl. now intros ->. Qed.

(** ** The pattern of [match]: the fraction *)

Lemma run_tail_frac st : run tail_frac st = after_frac st.
Proof.
  destruct st as [i rest caps]. unfold tail_frac, after_frac.
  rewrite run_seq, run_opt, flat_map_app, flat_map_single, run_tail_exp.
  cbn [m_pos m_rest m_caps].
  destruct rest as [|c t]; [reflexivity|].
  rewrite run_seq, run_class_cons.
  destruct (is_dot c) eqn:Dot; [|reflexivity].
  rewrite (after_exp_fails _ _ _ _ (dot_not_exp _ Dot)), app_nil_r.
  rewrite flat_map_single, run_seq, flat_map_flat_map.
  rewrite run_group, flat_map_map, run_alt, flat_map_app, run_empty.
  set (st1 := MState (S i) t caps).
  set (G := fun x =>
              flat_map (run tail_exp)
                       (run (Star (Class is_zero)) (close_group 3 st1 x))).
  rewrite (flat_map_single G).
  assert (HG : forall x, G x = after_exp (skip is_zero (close_group 3 st1 x))).
  { intros [j u cs]. unfold G, close_group. cbn [m_pos m_rest m_caps]. rewrite run_star_class, star_then.
    - apply run_tail_exp.
    - intros j' c' t' caps' Z. rewrite run_tail_exp.
      apply after_exp_fails. apply digit_not_exp. now apply zero_is_digit. }
  assert (Hfail : forall j u cs,
             strip_trailing (take_while is_digit u) <> [] ->
             G (MState j u cs) = []).
  { intros j u cs Hne. rewrite HG. unfold close_group, skip. simpl.
    destruct (skip_zeros_stops_at_digit u Hne) as (c' & u' & -> & Dg).
    apply after_exp_fails. now apply digit_not_exp. }
  unfold st1 at 1. rewrite (last_nonzero G Hfail).
  remember (strip_trailing (take_while is_digit t)) as core eqn:E.
  destruct core as [|x u].
  - simpl truthy_str. simpl app. rewrite HG. unfold close_group, st1, skip.
    cbn [m_pos m_rest m_caps].
    rewrite Nat.sub_diag. simpl firstn.
    destruct (zero_run_is_digit_run t (eq_sym E)) as [-> ->]. reflexivity.
  - simpl truthy_str. rewrite !HG.
    assert (Hsecond : after_exp (skip is_zero (close_group 3 st1 st1)) = []).
    { unfold close_group, st1, skip. simpl.
      destruct (skip_zeros_stops_at_digit t) as (c' & u' & -> & Dg);
        [rewrite <- E; discriminate|].
      apply after_exp_fails. now apply digit_not_exp. }
    rewrite Hsecond, app_nil_r.
    unfold close_group, st1. cbn [m_pos m_rest m_caps].
    replace (S i + length (x :: u) - S i)%nat with (length (x :: u)) by lia.
    pose proof (skip_zeros_after_core t (S i)
                  ((3%nat, firstn (length (x :: u)) t) :: caps)) as Hskip.
    cbv zeta in Hskip. rewrite <- E in Hskip. rewrite Hskip.
    destruct (digit_run_split t) as (k & Hsplit & _). rewrite <- E in Hsplit.
    assert (Hcore : firstn (length (x :: u)) t = x :: u).
    { rewrite Hsplit at 1.
      now rewrite firstn_app, firstn_all, Nat.sub_diag, firstn_O, app_nil_r. }
    rewrite Hcore. reflexivity.
Qed.

Lemma after_frac_fails i c t caps :
  is_exp c = false -> is_dot c = false ->
  after_frac (MState i (c :: t) caps) = [].
Proof.
  intros E D. unfold after_frac. simpl. rewrite D.
  now apply after_exp_fails.
Qed.

(** ** The pattern of [match]: the integer digits *)

Lemma run_tail_int i rest caps :
  match rest with c :: _ => is_zero c = false | [] => True end ->
  run tail_int (MState i rest caps) = after_int (MState i rest caps).
Proof.
  intros Hz. unfold tail_int, after_int.
  rewrite run_seq, run_group, flat_map_map, run_alt, flat_map_app, run_empty,
    flat_map_single, run_tail_frac.
  cbn [m_pos m_rest m_caps].
  destruct rest as [|c t].
  - simpl. unfold close_group. simpl.
    now rewrite Nat.add_0_r, firstn_nil.
  - rewrite run_seq, run_class_cons. simpl take_while. simpl drop_while.
    destruct (is_digit c) eqn:D.
    + assert (NZ : is_nonzero c = true).
      { rewrite (digit_zero_or_nonzero _ D) in Hz.
        now destruct (is_nonzero c). }
      rewrite NZ, flat_map_single, run_star_class.
      unfold close_group at 2. cbn [m_pos m_rest m_caps].
      rewrite (after_frac_fails _ _ _ _ (digit_not_exp _ D) (digit_not_dot _ D)).
      rewrite app_nil_r, star_then.
      * rewrite run_tail_frac. unfold skip, close_group.
        cbn [m_pos m_rest m_caps].
        replace (S i + length (take_while is_digit t) - i)%nat
          with (length (c :: take_while is_digit t)) by (cbn [length]; lia).
        assert (Hf : firstn (length (c :: take_while is_digit t)) (c :: t)
                     = c :: take_while is_digit t).
        { rewrite <- (take_drop_while is_digit t) at 2.
          rewrite app_comm_cons.
          now rewrite firstn_app, firstn_all, Nat.sub_diag, firstn_O, app_nil_r. }
        rewrite Hf. do 2 f_equal. cbn [length]; lia.
      * intros j c' t' caps' Dg. rewrite run_tail_frac.
        unfold close_group. cbn [m_pos m_rest m_caps].
        apply after_frac_fails; [now apply digit_not_exp | now apply digit_not_dot].
    + rewrite (nondigit_not_nonzero _ D). simpl flat_map.
      unfold close_group. simpl. rewrite Nat.sub_diag, Nat.add_0_r. reflexivity.
Qed.

Lemma run_tail_int_zero i c t caps :
  is_zero c = true -> run tail_int (MState i (c :: t) caps) = [].
Proof.
  intros Z. pose proof (zero_is_digit _ Z) as D.
  unfold tail_int.
  rewrite run_seq, run_group, flat_map_map, run_alt, flat_map_app, run_empty,
    flat_map_single, run_tail_frac, run_seq, run_class_cons.
  rewrite (digit_zero_or_nonzero _ D) in Z.
  destruct (is_nonzero c); [discriminate|]. simpl.
  unfold close_group. simpl.
  apply after_frac_fails; [now apply digit_not_exp | now apply digit_not_dot].
Qed.

(** ** The pattern of [match] as a whole *)

Lemma exec_at_eq r i rest :
  exec_at r i rest
  = match run r (MState i rest []) with
    | st :: _ => Some (MatchResult i (firstn (m_pos st - i) rest) (m_caps st))
    | [] => match rest with [] => None | _ :: t => exec_at r (S i) t end
    end.
Proof. destruct rest; reflexivity. Qed.

Lemma exec_at_bol r rest :
  forall i, (0 < i)%nat -> exec_at (Bol >> r) i rest = None.
Proof.
  induction rest as [|c t IH]; intros i Hi; rewrite exec_at_eq, run_seq;
    cbn [run m_pos]; (destruct (i =? 0)%nat eqn:E; [apply Nat.eqb_eq in E; lia|]);
    cbn [flat_map].
  - reflexivity.
  - apply IH. lia.
Qed.

Lemma exec_bol r s :
  exec (Bol >> r) s
  = match run r (MState 0 s []) with
    | st :: _ => Some (MatchResult 0 (firstn (m_pos st) s) (m_caps st))
    | [] => None
    end.
Proof.
  unfold exec. rewrite exec_at_eq, run_seq.
  change (run Bol (MState 0 s [])) with [MState 0 s []].
  rewrite flat_map_single.
  destruct (run r (MState 0 s [])) as [|st l].
  - destruct s; [reflexivity|]. apply exec_at_bol. lia.
  - now rewrite Nat.sub_0_r.
Qed.

Lemma run_zeros_tail_int st :
  run (Star (Class is_zero) >> tail_int) st = after_int (skip is_zero st).
Proof.
  rewrite run_star_then by (intros; now apply run_tail_int_zero).
  destruct st as [i rest caps]. unfold skip. cbn [m_pos m_rest m_caps].
  apply run_tail_int.
  destruct (drop_while is_zero rest) as [|c t] eqn:E; [exact I|].
  eapply drop_while_head. exact E.
Qed.

Lemma length_take_drop p s :
  (length (take_while p s) + length (drop_while p s) = length s)%nat.
Proof. rewrite <- length_app. now rewrite take_drop_while. Qed.

(** After the sign, the matcher and the scanner agree. *)
Lemma after_int_scan i s1 sg :
  after_int (skip is_zero (MState i s1 [(1%nat, sg)]))
  = match scan_int sg s1 with
    | Some r => [MState (i + length s1) [] (raw_captures r)]
    | None => []
    end.
Proof.
  unfold after_int, skip, scan_int. cbn [m_pos m_rest m_caps].
  rewrite take_digits_drop_zeros, drop_digits_drop_zeros.
  pose proof (length_take_drop_zeros s1) as L1.
  rewrite take_digits_drop_zeros in L1.
  pose proof (length_take_drop is_digit s1) as L2.
  unfold after_frac, scan_frac. cbn [m_pos m_rest m_caps].
  destruct (drop_while is_digit s1) as [|c t] eqn:E2.
  - unfold after_exp, scan_exp, raw_captures. cbn. do 2 f_equal.
    cbn [length] in L2. lia.
  - pose proof (length_take_drop is_digit t) as L3.
    destruct (is_dot c).
    + unfold after_exp, scan_exp. cbn [m_pos m_rest m_caps].
      destruct (drop_while is_digit t) as [|c' t'] eqn:E3.
      * unfold raw_captures. cbn. do 2 f_equal. cbn [length] in *. lia.
      * destruct (is_exp c' && is_signed_digits t'); [|reflexivity].
        unfold raw_captures. cbn. do 2 f_equal. cbn [length] in *. lia.
    + unfold after_exp, scan_exp. cbn [m_pos m_rest m_caps].
      destruct (is_exp c && is_signed_digits t); [|reflexivity].
      unfold raw_captures. cbn. do 2 f_equal. cbn [length] in *. lia.
Qed.

Lemma re_number_unfold :
  re_number
  = Bol >> Group 1 (Opt (Class is_sign)) >> Star (Class is_zero) >> tail_int.
Proof. reflexivity. Qed.

Lemma run_re_number s :
  run (Group 1 (Opt (Class is_sign)) >> Star (Class is_zero) >> tail_int)
      (MState 0 s [])
  = match scan s with
    | Some r => [MState (length s) [] (raw_captures r)]
    | None => []
    end.
Proof.
  rewrite run_seq, run_group, flat_map_map, run_opt, flat_map_app,
    flat_map_single.
  unfold close_group. cbn [m_pos m_rest m_caps].
  assert (Hplain : forall sg,
             run (Star (Class is_zero) >> tail_int)
                 (MState 0 s [(1%nat, sg)])
             = match scan_int sg s with
               | Some r => [MState (length s) [] (raw_captures r)]
               | None => []
               end).
  { intros sg. rewrite run_zeros_tail_int. apply after_int_scan. }
  destruct s as [|c t].
  - rewrite run_class_nil. cbn [flat_map app firstn]. apply Hplain.
  - rewrite run_class_cons. unfold scan.
    destruct (is_sign c) eqn:Sg.
    + rewrite flat_map_single. cbn [m_pos m_rest m_caps].
      rewrite Nat.sub_diag, firstn_O.
      rewrite run_zeros_tail_int, after_int_scan.
      rewrite run_zeros_tail_int.
      assert (Hskip : skip is_zero (MState 0 (c :: t) [(1%nat, [])])
                      = MState 0 (c :: t) [(1%nat, [])]).
      { unfold skip. cbn [m_pos m_rest m_caps take_while drop_while].
        rewrite (nondigit_not_zero _ (sign_not_digit _ Sg)). reflexivity. }
      rewrite Hskip. unfold after_int. cbn [m_pos m_rest m_caps take_while drop_while].
      rewrite (sign_not_digit _ Sg).
      rewrite after_frac_fails, app_nil_r;
        [| now apply sign_not_exp | now apply sign_not_dot].
      replace (1 - 0)%nat with 1%nat by lia. cbn [firstn].
      reflexivity.
    + cbn [flat_map app]. rewrite Nat.sub_diag, firstn_O. apply Hplain.
Qed.

(** The pattern accepts exactly the texts of the grammar, matches the whole
    text, and captures what [raw_captures] says. *)
Theorem exec_re_number s :
  exec re_number s
  = option_map (fun r => MatchResult 0 s (raw_captures r)) (scan s).
Proof.
  rewrite re_number_unfold, exec_bol, run_re_number.
  destruct (scan s); [|reflexivity].
  cbn [m_pos m_caps option_map]. now rewrite firstn_all.
Qed.

(** ** What [parse] returns *)

Theorem parse_scan s : parse s = option_map parsed_of_raw (scan s).
Proof.
  unfold parse. rewrite exec_re_number.
  destruct (scan s) as [[sg ri rf re]|]; [|reflexivity].
  cbn [option_map]. f_equal.
  unfold parse_match, parsed_of_raw, group, group_text, raw_captures, raw_frac.
  cbn [captures r_sign r_int r_frac r_exp].
  destruct re as [e|], rf as [f|]; cbn [app lookup Nat.eqb];
    try reflexivity.
  - destruct (strip_trailing f); reflexivity.
  - destruct (strip_trailing f); reflexivity.
Qed.

(** ** The first [replace]: leading zeros *)

Lemma run_lead_zero i rest caps :
  run lead_zero (MState i rest caps)
  = if strippable rest then [MState (S i) (tl rest) caps] else [].
Proof.
  unfold lead_zero. rewrite run_seq.
  destruct rest as [|c [|c' t]].
  - reflexivity.
  - rewrite run_class_cons. cbn [strippable].
    destruct (is_zero c); reflexivity.
  - rewrite run_class_cons. cbn [strippable tl].
    destruct (is_zero c); [|reflexivity].
    rewrite flat_map_single. cbn [run m_rest andb].
    destruct (is_dot c'); reflexivity.
Qed.

Lemma length_strip_leading s : (length (strip_leading s) <= length s)%nat.
Proof.
  induction s as [|c t IH]; [apply Nat.le_refl|].
  cbn [strip_leading]. destruct (strippable (c :: t)); cbn [length]; lia.
Qed.

Lemma skipn_strip_leading s :
  skipn (length s - length (strip_leading s)) s = strip_leading s.
Proof.
  induction s as [|c t IH]; [reflexivity|].
  cbn [strip_leading]. destruct (strippable (c :: t)).
  - pose proof (length_strip_leading t).
    replace (length (c :: t) - length (strip_leading t))%nat
      with (S (length t - length (strip_leading t))) by (cbn [length]; lia).
    exact IH.
  - now rewrite Nat.sub_diag.
Qed.

Lemma iterate_lead_zero rest :
  forall fuel i caps,
    (length rest < fuel)%nat ->
    exists l,
      iterate (run lead_zero) fuel (MState i rest caps)
      = MState (i + (length rest - length (strip_leading rest)))
               (strip_leading rest) caps :: l.
Proof.
  induction rest as [|c t IH]; intros fuel i caps Hf;
    (destruct fuel as [|f]; [inversion Hf|]); rewrite iterate_S, run_lead_zero.
  - exists []. cbn. now rewrite Nat.add_0_r.
  - cbn [strip_leading]. destruct (strippable (c :: t)).
    + rewrite flat_map_single. cbn [m_pos tl].
      replace (i <? S i)%nat with true by (symmetry; apply Nat.ltb_lt; lia).
      destruct (IH f (S i) caps) as [l Hl]; [cbn [length] in Hf; lia|].
      rewrite Hl. eexists. cbn [app]. f_equal. f_equal.
      pose proof (length_strip_leading t). cbn [length]. lia.
    + exists []. cbn [flat_map app]. now rewrite Nat.sub_diag, Nat.add_0_r.
Qed.

Theorem replace_leading_zeros s :
  replace s re_leading_zeros [] = strip_leading s.
Proof.
  unfold replace, re_leading_zeros. rewrite exec_bol, run_plus.
  fold lead_zero. rewrite run_lead_zero.
  destruct s as [|c t]; [reflexivity|].
  cbn [strip_leading tl]. destruct (strippable (c :: t)); [|reflexivity].
  rewrite flat_map_single, run_star.
  destruct (iterate_lead_zero t (S (length t)) 1 [] (Nat.lt_succ_diag_r _))
    as [l Hl].
  cbn [m_rest]. rewrite Hl. cbn [index matched m_pos firstn expand flat_map app].
  pose proof (length_strip_leading t) as Hle.
  rewrite length_firstn.
  replace (Nat.min (1 + (length t - length (strip_leading t))) (length (c :: t)))
    with (S (length t - length (strip_leading t))) by (cbn [length]; lia).
  cbn [Nat.add skipn]. apply skipn_strip_leading.
Qed.

(** ** The second [replace]: trailing zeros of the fraction *)

Lemma run_trailing_nil i caps : run re_trailing_zeros (MState i [] caps) = [].
Proof. reflexivity. Qed.

Lemma run_trailing_nodot i c t caps :
  is_dot c = false -> run re_trailing_zeros (MState i (c :: t) caps) = [].
Proof.
  intros D. unfold re_trailing_zeros.
  rewrite run_seq, run_alt, !run_seq, run_group, run_seq, !run_class_cons, D.
  reflexivity.
Qed.

Lemma all_zeros_no_core u :
  forallb is_zero u = true -> strip_trailing (take_while is_digit u) = [].
Proof.
  intros Z. rewrite take_while_all.
  - now apply strip_trailing_zeros_nil.
  - eapply forallb_weaken; [|exact Z]. apply zero_is_digit.
Qed.

Lemma run_trailing_dot i c ds :
  is_dot c = true -> forallb is_digit ds = true ->
  run re_trailing_zeros (MState i (c :: ds) [])
  = match strip_trailing ds with
    | [] => if truthy_str ds then [MState (S i + length ds) [] []] else []
    | x :: u =>
        if (length (x :: u) <? length ds)%nat
        then [MState (S i + length ds) [] [(1%nat, c :: x :: u)]]
        else []
    end.
Proof.
  intros Dot Dg. unfold re_trailing_zeros.
  rewrite run_seq, run_alt, flat_map_app.
  assert (HK : forall j a t caps, run Eol (MState j (a :: t) caps) = [])
    by reflexivity.
  (* the first alternative *)
  rewrite run_seq, run_class_cons, Dot, flat_map_single.
  rewrite (plus_to_end is_zero (run Eol) HK).
  (* the second alternative *)
  rewrite run_seq, flat_map_flat_map, run_group, flat_map_map.
  rewrite run_seq, run_class_cons, Dot, flat_map_single.
  set (st := MState i (c :: ds) []).
  set (G := fun x => flat_map (run Eol)
                              (run (Plus (Class is_zero)) (close_group 1 st x))).
  assert (HG : forall j u cs,
             G (MState j u cs)
             = if truthy_str u && forallb is_zero u
               then [MState (j + length u) []
                            ((1%nat, firstn (j - i) (c :: ds)) :: cs)]
               else []).
  { intros j u cs. unfold G, close_group, st. cbn [m_pos m_rest m_caps].
    now rewrite (plus_to_end is_zero (run Eol) HK). }
  assert (Hfail : forall j u cs,
             strip_trailing (take_while is_digit u) <> [] ->
             G (MState j u cs) = []).
  { intros j u cs Hne. rewrite HG.
    destruct (forallb is_zero u) eqn:Z; [|now rewrite andb_false_r].
    elim Hne. now apply all_zeros_no_core. }
  rewrite (last_nonzero G Hfail), (take_while_all _ _ Dg).
  destruct (strip_trailing_split ds) as [k Hk].
  remember (strip_trailing ds) as core eqn:E.
  destruct core as [|x u].
  - cbn [truthy_str]. rewrite app_nil_r.
    cbn [app] in Hk. rewrite Hk, forallb_zeros, andb_true_r.
    destruct (truthy_str (zeros k)); reflexivity.
  - assert (Z : forallb is_zero ds = false).
    { destruct (forallb is_zero ds) eqn:Z; [|reflexivity].
      apply strip_trailing_zeros_nil in Z. congruence. }
    rewrite Z, andb_false_r. cbn [app truthy_str]. rewrite HG.
    assert (Hs : skipn (length (x :: u)) ds = zeros k).
    { rewrite Hk at 1. now rewrite skipn_app, skipn_all, Nat.sub_diag. }
    rewrite Hs, forallb_zeros, andb_true_r.
    assert (Hl : length ds = (length (x :: u) + k)%nat).
    { rewrite Hk at 1. now rewrite length_app, length_zeros. }
    rewrite Hl, length_zeros.
    destruct k as [|k].
    + cbn [zeros repeat truthy_str].
      replace (length (x :: u) <? length (x :: u) + 0)%nat with false
        by (symmetry; apply Nat.ltb_ge; lia).
      reflexivity.
    + cbn [zeros repeat truthy_str].
      replace (length (x :: u) <? length (x :: u) + S k)%nat with true
        by (symmetry; apply Nat.ltb_lt; lia).
      replace (S i + length (x :: u) - i)%nat with (S (length (x :: u))) by lia.
      cbn [firstn]. rewrite Hk at 1.
      rewrite firstn_app, firstn_all, Nat.sub_diag, firstn_O, app_nil_r.
      do 2 f_equal. lia.
Qed.

Lemma exec_trailing_nodots a :
  forallb (fun c => negb (is_dot c)) a = true ->
  forall i rest,
    exec_at re_trailing_zeros i (a ++ rest)
    = exec_at re_trailing_zeros (i + length a) rest.
Proof.
  induction a as [|c t IH]; intros Ha i rest.
  - cbn. now rewrite Nat.add_0_r.
  - cbn [forallb] in Ha. apply andb_true_iff in Ha as [Hc Ht].
    apply negb_true_iff in Hc.
    rewrite <- app_comm_cons, exec_at_eq, (run_trailing_nodot _ _ _ _ Hc).
    rewrite (IH Ht). f_equal. cbn [length]. lia.
Qed.

Lemma exec_trailing_none a :
  forallb (fun c => negb (is_dot c)) a = true ->
  forall i, exec_at re_trailing_zeros i a = None.
Proof.
  intros Ha i. rewrite <- (app_nil_r a), exec_trailing_nodots by exact Ha.
  reflexivity.
Qed.

Lemma digits_no_dots ds :
  forallb is_digit ds = true -> forallb (fun c => negb (is_dot c)) ds = true.
Proof.
  apply forallb_weaken. intros c D. now rewrite (digit_not_dot _ D).
Qed.

(** A text without a point is left alone. *)
Theorem replace_trailing_zeros_nodot a :
  forallb (fun c => negb (is_dot c)) a = true ->
  replace a re_trailing_zeros [RGroup 1] = a.
Proof.
  intros Ha. unfold replace, exec. now rewrite exec_trailing_none.
Qed.

(** A text with one point, followed by digits only. *)
Theorem replace_trailing_zeros_dot a ds :
  forallb (fun c => negb (is_dot c)) a = true ->
  forallb is_digit ds = true ->
  replace (a ++ lit "." ++ ds) re_trailing_zeros [RGroup 1]
  = strip_fraction a ds.
Proof.
  intros Ha Dg. unfold replace, exec.
  rewrite exec_trailing_nodots by exact Ha.
  cbn [lit list_ascii_of_string app Nat.add].
  rewrite exec_at_eq, run_trailing_dot by (auto; reflexivity).
  unfold strip_fraction.
  destruct (strip_trailing_split ds) as [k Hk].
  remember (strip_trailing ds) as core eqn:E.
  assert (Hfirst : firstn (length a) (a ++ "."%char :: ds) = a).
  { now rewrite firstn_app, firstn_all, Nat.sub_diag, firstn_O, app_nil_r. }
  assert (Hmatched : firstn (S (length a) + length ds - length a)
                            ("."%char :: ds) = "."%char :: ds).
  { apply firstn_all2. cbn [length]. lia. }
  assert (Hrest : skipn (length a + length ("."%char :: ds))
                        (a ++ "."%char :: ds) = []).
  { apply skipn_all2. rewrite length_app. lia. }
  destruct core as [|x u].
  - destruct ds as [|d ds'].
    + cbn [truthy_str]. rewrite (exec_trailing_none [] eq_refl). reflexivity.
    + cbn [truthy_str m_pos m_caps index matched].
      rewrite Hmatched, Hfirst, Hrest. cbn. now rewrite !app_nil_r.
  - destruct (length (x :: u) <? length ds)%nat eqn:L.
    + cbn [m_pos m_caps index matched]. rewrite Hmatched, Hfirst, Hrest.
      cbn. now rewrite !app_nil_r.
    + rewrite (exec_trailing_none ds (digits_no_dots _ Dg)).
      apply Nat.ltb_ge in L.
      assert (k = O).
      { apply (f_equal (@length ascii)) in Hk.
        rewrite length_app, length_zeros in Hk. lia. }
      subst k. cbn [zeros repeat] in Hk. rewrite app_nil_r in Hk.
      now rewrite <- Hk.
Qed.

(** ** The two [replace] calls on digits and on digits with a point *)

Lemma lead_cons_zero c t :
  is_zero c = true -> t <> [] -> lead (c :: t) = lead t.
Proof.
  intros Z Ht. unfold lead. cbn [drop_while]. rewrite Z.
  destruct (drop_while is_zero t); [|reflexivity].
  destruct t; [congruence | reflexivity].
Qed.

Lemma lead_cons_nonzero c t : is_zero c = false -> lead (c :: t) = c :: t.
Proof. intros Z. unfold lead. cbn [drop_while]. now rewrite Z. Qed.

Lemma strip_leading_digits a rest :
  forallb is_digit a = true ->
  match rest with [] => True | c :: _ => is_dot c = true end ->
  strip_leading (a ++ rest) = lead a ++ rest.
Proof.
  intros Da Hr. induction a as [|c t IH].
  - cbn [app lead drop_while]. destruct rest as [|d u]; [reflexivity|].
    assert (S : strippable (d :: u) = false).
    { cbn [strippable]. destruct u; [reflexivity|].
      now rewrite (nondigit_not_zero _ (dot_not_digit _ Hr)). }
    cbn [strip_leading]. now rewrite S.
  - cbn [forallb] in Da. apply andb_true_iff in Da as [Dc Dt].
    rewrite <- app_comm_cons. cbn [strip_leading].
    destruct (is_zero c) eqn:Z.
    + destruct t as [|c' t'].
      * cbn [app]. rewrite (is_zero_eq _ Z).
        destruct rest as [|d u]; [reflexivity|].
        cbn [strippable]. rewrite Hr. reflexivity.
      * rewrite lead_cons_zero by (auto; discriminate).
        rewrite <- IH by exact Dt.
        rewrite <- app_comm_cons. cbn [strippable]. rewrite Z.
        cbn [forallb] in Dt. apply andb_true_iff in Dt as [Dc' _].
        now rewrite (digit_not_dot _ Dc').
    + rewrite lead_cons_nonzero by exact Z.
      assert (S : strippable (c :: t ++ rest) = false).
      { cbn [strippable]. destruct (t ++ rest); [reflexivity|]. now rewrite Z. }
      now rewrite S.
Qed.

Lemma forallb_drop_while (p q : ascii -> bool) a :
  forallb p a = true -> forallb p (drop_while q a) = true.
Proof.
  induction a as [|c t IH]; [auto|]. cbn [forallb drop_while].
  intros H. apply andb_true_iff in H as [Hc Ht].
  destruct (q c); [auto|]. cbn [forallb]. now rewrite Hc, Ht.
Qed.

Lemma lead_digits a : forallb is_digit a = true -> forallb is_digit (lead a) = true.
Proof.
  intros D. unfold lead.
  destruct (drop_while is_zero a) eqn:E.
  - destruct a; reflexivity.
  - rewrite <- E. now apply forallb_drop_while.
Qed.

Lemma lead_canonical a :
  forallb is_digit a = true -> a <> [] -> canonical_int (lead a).
Proof.
  intros D Ha. unfold lead.
  destruct (drop_while is_zero a) as [|x u] eqn:E.
  - left. destruct a; [congruence | reflexivity].
  - right. split.
    + rewrite <- E. now apply forallb_drop_while.
    + exists x, u. split; [reflexivity|].
      pose proof (drop_while_head _ _ _ _ E) as Z.
      assert (Dx : is_digit x = true).
      { pose proof (forallb_drop_while is_digit is_zero a D) as F.
        rewrite E in F. cbn [forallb] in F.
        apply andb_true_iff in F. tauto. }
      rewrite (digit_zero_or_nonzero _ Dx) in Z.
      now destruct (is_nonzero x).
Qed.

Lemma lead_positive a :
  positive_digits a -> lead a = a.
Proof.
  intros [_ (c & t & -> & NZ)]. apply lead_cons_nonzero.
  now apply nonzero_not_zero.
Qed.

Lemma lead_canonical_int I : canonical_int I -> lead I = I.
Proof. intros [-> | P]; [reflexivity | now apply lead_positive]. Qed.

(** Digits only: the first [replace] trims, the second finds no point. *)
Lemma normalize_zeros_digits a :
  forallb is_digit a = true -> normalize_zeros a = lead a.
Proof.
  intros D. unfold normalize_zeros. rewrite replace_leading_zeros.
  rewrite <- (app_nil_r a) at 1.
  rewrite strip_leading_digits, app_nil_r by (auto; exact I).
  apply replace_trailing_zeros_nodot, digits_no_dots. now apply lead_digits.
Qed.

(** Digits, a point, digits. *)
Lemma normalize_zeros_point a ds :
  forallb is_digit a = true -> forallb is_digit ds = true ->
  normalize_zeros (a ++ lit "." ++ ds) = strip_fraction (lead a) ds.
Proof.
  intros Da Dd. unfold normalize_zeros. rewrite replace_leading_zeros.
  rewrite strip_leading_digits by (auto; reflexivity).
  apply replace_trailing_zeros_dot; [|exact Dd].
  apply digits_no_dots. now apply lead_digits.
Qed.

(** ** What the scanner accepts *)

Lemma sign_cases c : is_sign c = true -> c = "+"%char \/ c = "-"%char.
Proof.
  unfold is_sign. intros H. apply orb_true_iff in H as [H|H];
    apply Ascii.eqb_eq in H; auto.
Qed.

Lemma scan_exp_inv ri rf sg s r :
  scan_exp ri rf sg s = Some r ->
  r_sign r = sg /\ r_int r = ri /\ r_frac r = rf
  /\ match r_exp r with
     | None => s = []
     | Some e => exists c, s = c :: e /\ is_exp c = true
                           /\ is_signed_digits e = true
     end.
Proof.
  unfold scan_exp. destruct s as [|c t].
  - intros H. injection H as <-. cbn. auto.
  - destruct (is_exp c) eqn:E; [|discriminate].
    destruct (is_signed_digits t) eqn:Sd; [|discriminate].
    intros H. injection H as <-. cbn. repeat split. now exists c.
Qed.

Lemma scan_inv s r :
  scan s = Some r ->
  (r_sign r = [] \/ r_sign r = lit "+" \/ r_sign r = lit "-")
  /\ forallb is_digit (r_int r) = true
  /\ forallb is_digit (raw_frac r) = true
  /\ exists x,
      exp_text r x
      /\ s = r_sign r ++ r_int r
               ++ match r_frac r with Some f => lit "." ++ f | None => [] end
               ++ x.
Proof.
  assert (Hsi : forall sg t,
             scan_int sg t = Some r ->
             r_sign r = sg
             /\ forallb is_digit (r_int r) = true
             /\ forallb is_digit (raw_frac r) = true
             /\ exists x,
                 exp_text r x
                 /\ t = r_int r
                          ++ match r_frac r with
                             | Some f => lit "." ++ f
                             | None => []
                             end ++ x).
  { intros sg t. unfold scan_int, scan_frac.
    pose proof (take_drop_while is_digit t) as Ht.
    pose proof (forallb_take_while is_digit t) as Dt.
    destruct (drop_while is_digit t) as [|c u] eqn:E.
    - intros H. apply scan_exp_inv in H as (-> & Hi & Hf & He).
      unfold raw_frac, exp_text. rewrite Hi, Hf. repeat split; auto.
      exists []. split; [exact He|]. rewrite app_nil_r in Ht.
      now rewrite !app_nil_r.
    - destruct (is_dot c) eqn:Dot.
      + pose proof (take_drop_while is_digit u) as Hu.
        pose proof (forallb_take_while is_digit u) as Du.
        intros H. apply scan_exp_inv in H as (-> & Hi & Hf & He).
        unfold raw_frac, exp_text. rewrite Hi, Hf. repeat split; auto.
        exists (drop_while is_digit u). split; [exact He|].
        rewrite <- Ht at 1. f_equal. rewrite (is_dot_eq _ Dot).
        cbn [lit list_ascii_of_string app]. f_equal. now rewrite Hu.
      + intros H. apply scan_exp_inv in H as (-> & Hi & Hf & He).
        unfold raw_frac, exp_text. rewrite Hi, Hf. repeat split; auto.
        exists (c :: u). split; [exact He|]. now rewrite <- Ht at 1. }
  unfold scan. destruct s as [|c t].
  - intros H. apply Hsi in H as (Hs & Hi & Hf & x & Hx & Ht).
    rewrite Hs. repeat split; auto. exists x. auto.
  - destruct (is_sign c) eqn:Sg.
    + intros H. apply Hsi in H as (Hs & Hi & Hf & x & Hx & Ht).
      rewrite Hs. repeat split; auto.
      * destruct (sign_cases _ Sg) as [-> | ->]; auto.
      * exists x. split; [exact Hx|]. cbn [app]. now rewrite <- Ht.
    + intros H. apply Hsi in H as (Hs & Hi & Hf & x & Hx & Ht).
      rewrite Hs. repeat split; auto. exists x. auto.
Qed.

(** ** The invariants of the parsed constants *)

Lemma drop_zeros_positive ds :
  forallb is_digit ds = true ->
  drop_while is_zero ds = [] \/ positive_digits (drop_while is_zero ds).
Proof.
  intros D. destruct (drop_while is_zero ds) as [|x u] eqn:E; [now left|].
  right. split.
  - rewrite <- E. now apply forallb_drop_while.
  - exists x, u. split; [reflexivity|].
    pose proof (drop_while_head _ _ _ _ E) as Z.
    pose proof (forallb_drop_while is_digit is_zero ds D) as F.
    rewrite E in F. cbn [forallb] in F. apply andb_true_iff in F as [Dx _].
    rewrite (digit_zero_or_nonzero _ Dx) in Z. now destruct (is_nonzero x).
Qed.

Lemma parsed_of_raw_wf s r : scan s = Some r -> wf_parsed (parsed_of_raw r).
Proof.
  intros H. apply scan_inv in H as (Hs & Hi & Hf & _).
  unfold wf_parsed, parsed_of_raw. cbn [sign mantissa_int mantissa_frac].
  repeat split.
  - unfold sign_text. destruct (str_eqb (r_sign r) (lit "-")); auto.
  - now apply drop_zeros_positive.
  - now apply forallb_strip_trailing.
  - apply strip_trailing_idem.
Qed.

Lemma parse_wf s p : parse s = Some p -> wf_parsed p.
Proof.
  rewrite parse_scan. destruct (scan s) as [r|] eqn:E; [|discriminate].
  intros H. injection H as <-. eapply parsed_of_raw_wf. exact E.
Qed.

Lemma wf_mantissa_digits p : wf_parsed p -> forallb is_digit (mantissa p) = true.
Proof.
  intros (_ & Hi & Hf & _). unfold mantissa. rewrite forallb_app, Hf.
  destruct Hi as [-> | [D _]]; [reflexivity | now rewrite D].
Qed.

(** A mantissa that is not empty has a nonzero digit. *)
Lemma wf_mantissa_nonzero p :
  wf_parsed p -> mantissa p <> [] -> forallb is_zero (mantissa p) = false.
Proof.
  intros (_ & Hi & Hf & Hs) Hne. unfold mantissa in *. rewrite forallb_app.
  destruct Hi as [Hi | [_ (c & t & Hi & NZ)]].
  - rewrite Hi in *. cbn [app forallb andb] in *.
    destruct (forallb is_zero (mantissa_frac p)) eqn:Z; [|reflexivity].
    apply strip_trailing_zeros_nil in Z. congruence.
  - rewrite Hi. cbn [forallb]. now rewrite (nonzero_not_zero _ NZ).
Qed.

(** ** The shape of [returnValue] *)

Lemma slice_prefix m z :
  0 < z < Z.of_nat (length m) ->
  slice m (NFin 0) (Some (NFin z)) = firstn (Z.to_nat z) m.
Proof.
  intros Hz. unfold slice, slice_index.
  replace (0 <? 0) with false by reflexivity.
  replace (z <? 0) with false by (symmetry; apply Z.ltb_ge; lia).
  rewrite Z.min_l, Z.min_l by lia. cbn [Z.to_nat skipn].
  now rewrite Nat.sub_0_r.
Qed.

Lemma slice_suffix m z :
  0 < z < Z.of_nat (length m) ->
  slice m (NFin z) None = skipn (Z.to_nat z) m.
Proof.
  intros Hz. unfold slice, slice_index.
  replace (z <? 0) with false by (symmetry; apply Z.ltb_ge; lia).
  rewrite Z.min_l by lia. apply firstn_all2. rewrite length_skipn. lia.
Qed.

Lemma padEnd0_zeros m d : exists k, padEnd0 m d = m ++ zeros k.
Proof.
  unfold padEnd0. destruct (ToLength d <=? Z.of_nat (length m)).
  - exists O. now rewrite app_nil_r.
  - now eexists.
Qed.

Lemma repeat0_zeros d z : repeat0 d = Return z -> exists k, z = zeros k.
Proof.
  destruct d as [| neg | x]; cbn.
  - intros H. injection H as <-. now exists O.
  - discriminate.
  - destruct (x <? 0); [discriminate|].
    intros H. injection H as <-. now eexists.
Qed.

Lemma reconstruct_cases p rv :
  reconstruct p = Return rv ->
  (mantissa p = [] /\ rv = []) \/ (mantissa p <> [] /\ shape (mantissa p) rv).
Proof.
  unfold reconstruct. fold (mantissa p).
  destruct (truthy_num (exponent p)).
  - destruct (mantissa p) as [|c t] eqn:M.
    + cbn. intros H. injection H as <-. now left.
    + rewrite <- M.
      assert (Hlen : (0 <? length (mantissa p))%nat = true)
        by (rewrite M; reflexivity).
      rewrite Hlen.
      set (d := num_add_length (length (mantissa_int p)) (exponent p)).
      destruct (length_le_num (length (mantissa p)) d) eqn:Le.
      * intros H. injection H as <-. right. split; [congruence|].
        destruct (padEnd0_zeros (mantissa p) d) as [k ->]. constructor.
      * destruct (num_pos d) eqn:Pos.
        -- intros H. injection H as <-. right. split; [congruence|].
           destruct d as [| neg | z]; try discriminate.
           ++ cbn in Le, Pos. destruct neg; discriminate.
           ++ cbn in Le, Pos. apply Z.ltb_lt in Pos. apply Z.leb_gt in Le.
              rewrite slice_prefix, slice_suffix by lia.
              apply shape_split. lia.
        -- destruct (repeat0 (num_neg d)) as [z|e] eqn:R; cbn; [|discriminate].
           intros H. injection H as <-. right. split; [congruence|].
           destruct (repeat0_zeros _ _ R) as [k ->]. constructor.
  - unfold mantissa.
    destruct (mantissa_frac p) as [|c t] eqn:F; cbn [truthy_str].
    + rewrite app_nil_r.
      destruct (mantissa_int p) as [|c' t'] eqn:I; cbn [truthy_str].
      * intros H. injection H as <-. now left.
      * intros H. injection H as <-. right. split; [discriminate|].
        rewrite <- (app_nil_r (c' :: t')) at 2. apply (shape_padded _ O).
    + intros H. injection H as <-. right. split.
      { destruct (mantissa_int p); discriminate. }
      destruct (mantissa_int p) as [|c' t'] eqn:I; cbn [truthy_str].
      * apply (shape_small _ O).
      * pose proof (shape_split ((c' :: t') ++ c :: t) (length (c' :: t'))) as S.
        rewrite firstn_app, firstn_all, Nat.sub_diag, firstn_O, app_nil_r in S.
        rewrite skipn_app, skipn_all, Nat.sub_diag in S. cbn [skipn app] in S.
        apply S. cbn [length app]. rewrite length_app. cbn [length]. lia.
Qed.

(** ** Every result is canonical *)

Lemma forallb_firstn (p : ascii -> bool) n m :
  forallb p m = true -> forallb p (firstn n m) = true.
Proof.
  intros H. rewrite <- (firstn_skipn n m), forallb_app in H.
  apply andb_true_iff in H. tauto.
Qed.

Lemma forallb_skipn (p : ascii -> bool) n m :
  forallb p m = true -> forallb p (skipn n m) = true.
Proof.
  intros H. rewrite <- (firstn_skipn n m), forallb_app in H.
  apply andb_true_iff in H. tauto.
Qed.

Lemma zeros_digits k : forallb is_digit (zeros k) = true.
Proof. induction k; cbn; auto. Qed.

Lemma lead_of_nonzero x :
  forallb is_digit x = true -> forallb is_zero x = false ->
  positive_digits (lead x).
Proof.
  intros D NZ. unfold lead.
  destruct (drop_zeros_positive x D) as [E | P].
  - apply drop_while_nil_all in E. congruence.
  - destruct (drop_while is_zero x) eqn:E; [|exact P].
    destruct P as [_ (c & t & Hc & _)]. discriminate.
Qed.

Lemma strip_trailing_canonical ds x u :
  forallb is_digit ds = true -> strip_trailing ds = x :: u ->
  canonical_frac (x :: u).
Proof.
  intros D E. repeat split.
  - rewrite <- E. now apply forallb_strip_trailing.
  - discriminate.
  - rewrite <- E. apply strip_trailing_idem.
Qed.

Lemma normalize_shape m rv :
  forallb is_digit m = true -> forallb is_zero m = false -> shape m rv ->
  truthy_str rv = true /\ canonical_unsigned (normalize_zeros rv).
Proof.
  intros D NZ S.
  assert (M : m <> []) by (intros ->; discriminate).
  destruct S as [k | n Hn | k].
  - (* digits only *)
    assert (Dk : forallb is_digit (m ++ zeros k) = true)
      by now rewrite forallb_app, D, zeros_digits.
    split; [destruct m; [congruence | reflexivity]|].
    rewrite (normalize_zeros_digits _ Dk). left.
    apply lead_of_nonzero; [exact Dk|]. now rewrite forallb_app, NZ.
  - (* the point inside the mantissa *)
    remember (firstn n m) as a eqn:Ea.
    remember (skipn n m) as ds eqn:Eds.
    assert (Da : forallb is_digit a = true)
      by (rewrite Ea; now apply forallb_firstn).
    assert (Dd : forallb is_digit ds = true)
      by (rewrite Eds; now apply forallb_skipn).
    assert (Ha : a <> []).
    { intros E. apply (f_equal (@length ascii)) in E. rewrite Ea in E.
      rewrite length_firstn in E. cbn [length] in E. lia. }
    assert (Hd : ds <> []).
    { intros E. apply (f_equal (@length ascii)) in E. rewrite Eds in E.
      rewrite length_skipn in E. cbn [length] in E. lia. }
    split; [destruct a; [congruence | reflexivity]|].
    rewrite (normalize_zeros_point _ _ Da Dd). unfold strip_fraction.
    destruct (strip_trailing ds) as [|x u] eqn:E.
    + destruct ds as [|d ds']; [congruence|]. left.
      apply lead_of_nonzero; [exact Da|].
      apply strip_trailing_nil_zeros in E.
      rewrite <- (firstn_skipn n m), forallb_app in NZ.
      rewrite <- Ea, <- Eds, E, andb_true_r in NZ. exact NZ.
    + right. exists (lead a), (x :: u). split; [reflexivity|]. split.
      * now apply lead_canonical.
      * eapply strip_trailing_canonical; eauto.
  - (* the point before the mantissa *)
    change (lit "0." ++ zeros k ++ m) with (lit "0" ++ lit "." ++ (zeros k ++ m)).
    assert (Dd : forallb is_digit (zeros k ++ m) = true)
      by now rewrite forallb_app, D, zeros_digits.
    split; [reflexivity|].
    rewrite (normalize_zeros_point (lit "0") _ eq_refl Dd).
    unfold strip_fraction.
    destruct (strip_trailing (zeros k ++ m)) as [|x u] eqn:E.
    + apply strip_trailing_nil_zeros in E.
      rewrite forallb_app, NZ, andb_false_r in E. discriminate.
    + right. exists (lit "0"), (x :: u). split; [reflexivity|]. split.
      * now left.
      * eapply strip_trailing_canonical; eauto.
Qed.

(** A result that is not ["0"] is the sign followed by digits in one of the
    two forms. *)
Lemma finish_nonzero p rv :
  wf_parsed p -> reconstruct p = Return rv -> mantissa p <> [] ->
  exists U, finish (sign p) rv = sign p ++ U /\ canonical_unsigned U.
Proof.
  intros W H M.
  destruct (reconstruct_cases p rv H) as [[M' _] | [_ S]]; [congruence|].
  destruct (normalize_shape (mantissa p) rv (wf_mantissa_digits p W)
              (wf_mantissa_nonzero p W M) S) as [T C].
  exists (normalize_zeros rv). unfold finish. now rewrite T.
Qed.

Lemma canonical_of_unsigned sg U :
  sign_text sg -> canonical_unsigned U -> canonical (sg ++ U).
Proof.
  intros Hsg [P | (I & F & -> & CI & CF)].
  - now apply canonical_integer.
  - now apply canonical_fraction.
Qed.

Theorem finish_canonical p rv :
  wf_parsed p -> reconstruct p = Return rv -> canonical (finish (sign p) rv).
Proof.
  intros W H. pose proof W as (Hsg & _).
  destruct (reconstruct_cases p rv H) as [[M ->] | [M _]].
  - apply canonical_zero.
  - destruct (finish_nonzero p rv W H M) as (U & -> & C).
    now apply canonical_of_unsigned.
Qed.

(** ** A canonical string is returned as it is *)

Lemma scan_canonical sg I o :
  sign_text sg -> forallb is_digit I = true -> I <> [] ->
  match o with Some F => forallb is_digit F = true | None => True end ->
  scan (sg ++ I ++ match o with Some F => lit "." ++ F | None => [] end)
  = Some (Raw sg I o None).
Proof.
  intros Hsg DI HI Ho.
  assert (Hsi : scan_int sg (I ++ match o with
                                   | Some F => lit "." ++ F
                                   | None => []
                                   end) = Some (Raw sg I o None)).
  { unfold scan_int. destruct o as [F|].
    - cbn [lit list_ascii_of_string app].
      rewrite take_while_app_stop, drop_while_app_stop by (auto; reflexivity).
      unfold scan_frac. cbn [is_dot Ascii.eqb].
      replace (is_dot ".") with true by reflexivity.
      rewrite (take_while_all _ _ Ho), (drop_while_all _ _ Ho). reflexivity.
    - rewrite app_nil_r, (take_while_all _ _ DI), (drop_while_all _ _ DI).
      reflexivity. }
  destruct Hsg as [-> | ->].
  - cbn [app]. destruct I as [|c t]; [congruence|].
    cbn [forallb] in DI. apply andb_true_iff in DI as [Dc _].
    unfold scan. rewrite <- app_comm_cons, (digit_not_sign _ Dc).
    exact Hsi.
  - exact Hsi.
Qed.

Lemma drop_zeros_positive_id I :
  positive_digits I -> drop_while is_zero I = I.
Proof.
  intros [_ (c & t & -> & NZ)]. cbn [drop_while].
  now rewrite (nonzero_not_zero _ NZ).
Qed.

Lemma sign_of_sign_text sg :
  sign_text sg -> (if str_eqb sg (lit "-") then lit "-" else []) = sg.
Proof. intros [-> | ->]; reflexivity. Qed.

Theorem canonical_fixed out :
  canonical out -> Num2FracStr (VString out) = Return out.
Proof.
  intros C. unfold Num2FracStr. cbn [String_]. rewrite parse_scan.
  destruct C as [| sg I Hsg P | sg I F Hsg CI CF].
  - reflexivity.
  - pose proof P as [DI (c & t & HI & NZ)].
    pose proof (scan_canonical sg I None Hsg DI) as Hscan.
    cbn [app] in Hscan. rewrite app_nil_r in Hscan.
    rewrite Hscan by (auto; rewrite HI; discriminate).
    cbn [option_map]. unfold reconstruct, parsed_of_raw, raw_frac.
    cbn [r_sign r_int r_frac r_exp sign mantissa_int mantissa_frac exponent
         Number_ truthy_num strip_trailing truthy_str].
    rewrite (drop_zeros_positive_id _ P), (sign_of_sign_text _ Hsg).
    rewrite HI. cbn [truthy_str bind]. rewrite <- HI.
    unfold finish. rewrite HI at 1. cbn [truthy_str].
    now rewrite (normalize_zeros_digits _ DI), (lead_positive _ P).
  - destruct CF as (DF & HF & SF).
    assert (DI : forallb is_digit I = true)
      by (destruct CI as [-> | [D _]]; [reflexivity | exact D]).
    assert (HI : I <> [])
      by (destruct CI as [-> | [_ (c & t & -> & _)]]; discriminate).
    rewrite (scan_canonical sg I (Some F) Hsg DI HI DF).
    cbn [option_map]. unfold reconstruct, parsed_of_raw, raw_frac.
    cbn [r_sign r_int r_frac r_exp sign mantissa_int mantissa_frac exponent
         Number_ truthy_num].
    rewrite SF, (sign_of_sign_text _ Hsg).
    destruct F as [|f F']; [congruence|]. cbn [truthy_str].
    assert (Hsi : (if truthy_str (drop_while is_zero I)
                    then drop_while is_zero I else lit "0") = I).
    { destruct CI as [-> | P]; [reflexivity|].
      rewrite (drop_zeros_positive_id _ P).
      destruct P as [_ (c & t & -> & _)]. reflexivity. }
    rewrite Hsi. cbn [bind]. unfold finish.
    assert (T : truthy_str (I ++ lit "." ++ f :: F') = true)
      by (destruct I; [congruence | reflexivity]).
    rewrite T, (normalize_zeros_point _ _ DI DF).
    unfold strip_fraction. rewrite SF, (lead_canonical_int _ CI). reflexivity.
Qed.

(** ** Building a literal *)

Lemma exp_not_dot c : is_exp c = true -> is_dot c = false.
Proof. by_cases_on_ascii c. Qed.

Lemma exp_not_sign c : is_exp c = true -> is_sign c = false.
Proof. by_cases_on_ascii c. Qed.

Lemma dot_not_sign c : is_dot c = true -> is_sign c = false.
Proof. by_cases_on_ascii c. Qed.

Lemma run_then_stop p a rest :
  forallb p a = true ->
  match rest with [] => True | c :: _ => p c = false end ->
  take_while p (a ++ rest) = a /\ drop_while p (a ++ rest) = rest.
Proof.
  intros Ha Hr. destruct rest as [|c t].
  - rewrite app_nil_r. split; [now apply take_while_all | now apply drop_while_all].
  - split; [now apply take_while_app_stop | now apply drop_while_app_stop].
Qed.

(** The scanner reads back what was put together. *)
Lemma scan_build sg I o x :
  (sg = [] \/ sg = lit "+" \/ sg = lit "-") ->
  forallb is_digit I = true ->
  forallb is_digit (match o with Some F => F | None => [] end) = true ->
  match x with
  | [] => True
  | c :: e => is_exp c = true /\ is_signed_digits e = true
  end ->
  scan (sg ++ I ++ frac_text o ++ x)
  = Some (Raw sg I o (match x with [] => None | _ :: e => Some e end)).
Proof.
  intros Hsg DI Do Hx.
  assert (Hexp : forall ri rf,
             scan_exp ri rf sg x
             = Some (Raw sg ri rf (match x with [] => None | _ :: e => Some e end))).
  { intros ri rf. unfold scan_exp. destruct x as [|c e]; [reflexivity|].
    destruct Hx as [-> ->]. reflexivity. }
  assert (Hfrac : scan_frac I sg (frac_text o ++ x)
                  = Some (Raw sg I o (match x with [] => None | _ :: e => Some e end))).
  { unfold scan_frac, frac_text. destruct o as [F|].
    - cbn [lit list_ascii_of_string app].
      replace (is_dot ".") with true by reflexivity.
      destruct (run_then_stop is_digit F x Do) as [-> ->]; [|apply Hexp].
      destruct x as [|c e]; [trivial|]. apply exp_not_digit. tauto.
    - cbn [app]. destruct x as [|c e]; [apply Hexp|].
      destruct Hx as [E _]. rewrite (exp_not_dot _ E). apply Hexp. }
  assert (Hsi : scan_int sg (I ++ frac_text o ++ x)
                 = Some (Raw sg I o (match x with [] => None | _ :: e => Some e end))).
  { unfold scan_int.
    destruct (run_then_stop is_digit I (frac_text o ++ x) DI) as [-> ->];
      [|exact Hfrac].
    unfold frac_text. destruct o as [F|]; [reflexivity|].
    cbn [app]. destruct x as [|c e]; [trivial|]. apply exp_not_digit. tauto. }
  destruct Hsg as [-> | [-> | ->]]; [| exact Hsi | exact Hsi].
  cbn [app]. unfold scan.
  destruct (I ++ frac_text o ++ x) as [|c t] eqn:E; [exact Hsi|].
  assert (Sg : is_sign c = false).
  { destruct I as [|d I'].
    - cbn [app] in E. unfold frac_text in E. destruct o as [F|].
      + injection E as <- _. reflexivity.
      + cbn [app] in E. rewrite E in Hx. apply exp_not_sign. tauto.
    - injection E as <- _. cbn [forallb] in DI.
      apply andb_true_iff in DI as [Dd _]. now apply digit_not_sign. }
  rewrite Sg. exact Hsi.
Qed.

(** ** Decimal numerals *)

Lemma fold_digits_acc b :
  forall acc,
    fold_left (fun a c => 10 * a + digit_value c) b acc
    = acc * 10 ^ Z.of_nat (length b) + Z_of_digits b.
Proof.
  unfold Z_of_digits. induction b as [|c t IH]; intros acc.
  - cbn [fold_left length]. change (Z.of_nat 0) with 0.
    rewrite Z.pow_0_r. lia.
  - cbn [fold_left length]. rewrite IH, (IH (10 * 0 + digit_value c)).
    rewrite Nat2Z.inj_succ, Z.pow_succ_r by lia. ring.
Qed.

Lemma Z_of_digits_app a b :
  Z_of_digits (a ++ b)
  = Z_of_digits a * 10 ^ Z.of_nat (length b) + Z_of_digits b.
Proof.
  unfold Z_of_digits at 1. rewrite fold_left_app.
  fold (Z_of_digits a). apply fold_digits_acc.
Qed.

Lemma Z_of_digits_snoc a c :
  Z_of_digits (a ++ [c]) = 10 * Z_of_digits a + digit_value c.
Proof.
  rewrite Z_of_digits_app. cbn [length]. change (Z.of_nat 1) with 1.
  rewrite Z.pow_1_r. unfold Z_of_digits at 2. cbn [fold_left]. lia.
Qed.

Lemma digit_char_spec d :
  0 <= d < 10 ->
  is_digit (digit_char d) = true /\ digit_value (digit_char d) = d.
Proof.
  intros H.
  assert (C : d = 0 \/ d = 1 \/ d = 2 \/ d = 3 \/ d = 4 \/ d = 5 \/ d = 6
              \/ d = 7 \/ d = 8 \/ d = 9) by lia.
  repeat (destruct C as [-> | C]; [split; reflexivity|]).
  subst. split; reflexivity.
Qed.

Lemma decimal_digits_digits f :
  forall z, 0 <= z -> forallb is_digit (decimal_digits f z) = true.
Proof.
  induction f as [|f IH]; intros z Hz; [reflexivity|].
  cbn [decimal_digits]. destruct (z <? 10) eqn:E.
  - apply Z.ltb_lt in E. cbn [forallb].
    destruct (digit_char_spec z) as [-> _]; [lia | reflexivity].
  - rewrite forallb_app, IH by (apply Z.div_pos; lia). cbn [forallb].
    destruct (digit_char_spec (z mod 10)) as [-> _]; [|reflexivity].
    apply Z.mod_pos_bound. lia.
Qed.

Lemma decimal_digits_value f :
  forall z, 0 <= z < 2 ^ Z.of_nat f -> Z_of_digits (decimal_digits f z) = z.
Proof.
  induction f as [|f IH]; intros z Hz.
  - cbn in Hz. assert (z = 0) by lia. subst. reflexivity.
  - cbn [decimal_digits]. destruct (z <? 10) eqn:E.
    + apply Z.ltb_lt in E. unfold Z_of_digits. cbn [fold_left].
      destruct (digit_char_spec z) as [_ ->]; lia.
    + apply Z.ltb_ge in E. rewrite Z_of_digits_snoc, IH.
      * destruct (digit_char_spec (z mod 10)) as [_ ->].
        -- apply Z.mod_pos_bound. lia.
        -- pose proof (Z.div_mod z 10). lia.
      * rewrite Nat2Z.inj_succ, Z.pow_succ_r in Hz by lia.
        split; [apply Z.div_pos; lia|].
        apply Z.div_lt_upper_bound; lia.
Qed.

Lemma decimal_spec z :
  0 <= z ->
  forallb is_digit (decimal z) = true /\ decimal z <> []
  /\ Z_of_digits (decimal z) = z.
Proof.
  intros Hz. unfold decimal. repeat split.
  - now apply decimal_digits_digits.
  - cbn [decimal_digits]. destruct (z <? 10); [discriminate|].
    intros E. apply app_eq_nil in E as [_ E]. discriminate.
  - apply decimal_digits_value. rewrite Nat2Z.inj_succ, Z2Nat.id.
    + destruct (Z.eq_dec z 0) as [-> | Hne]; [cbn; lia|].
      pose proof (Z.log2_spec z). lia.
    + apply Z.log2_nonneg.
Qed.

Lemma Z_of_signed_minus ds : Z_of_signed ("-"%char :: ds) = - Z_of_digits ds.
Proof. reflexivity. Qed.

Lemma Z_of_signed_plus ds : Z_of_signed ("+"%char :: ds) = Z_of_digits ds.
Proof. reflexivity. Qed.

(** ** The texts of numbers *)

Lemma number_scan neg s n :
  wf_number (Finite neg s n) ->
  exists r,
    scan (Number_toString (Finite neg s n)) = Some r
    /\ (r_exp r = None
        \/ (length (r_int r) <= 1)%nat /\ Z.abs (raw_exponent r) <= 324).
Proof.
  intros ((Ds & c0 & t0 & Hs & NZ0) & _ & Hlen & Hn).
  cbn [Number_toString].
  set (sg := if neg then lit "-" else []).
  assert (Hsg : sg = [] \/ sg = lit "+" \/ sg = lit "-")
    by (unfold sg; destruct neg; auto).
  destruct ((-5 <=? n) && (n <=? 21)) eqn:Range.
  - destruct (Z.of_nat (length s) <=? n) eqn:K.
    + pose proof (scan_build sg (s ++ zeros (Z.to_nat (n - Z.of_nat (length s))))
                    None [] Hsg) as B.
      cbn [frac_text app] in B. rewrite app_nil_r in B.
      eexists. split; [apply B; auto|].
      * now rewrite forallb_app, Ds, zeros_digits.
      * now left.
    + destruct (0 <? n) eqn:P.
      * pose proof (scan_build sg (firstn (Z.to_nat n) s)
                      (Some (skipn (Z.to_nat n) s)) [] Hsg) as B.
        unfold frac_text in B. rewrite app_nil_r in B.
        eexists. split; [apply B; auto|].
        -- now apply forallb_firstn.
        -- now apply forallb_skipn.
        -- now left.
      * pose proof (scan_build sg (lit "0")
                      (Some (zeros (Z.to_nat (- n)) ++ s)) [] Hsg) as B.
        unfold frac_text in B. rewrite app_nil_r in B.
        eexists. split; [apply B; auto|].
        -- now rewrite forallb_app, Ds, zeros_digits.
        -- now left.
  - assert (He : n - 1 < -5 \/ 21 <= n - 1).
    { apply andb_false_iff in Range as [R | R].
      - apply Z.leb_gt in R. lia.
      - apply Z.leb_gt in R. lia. }
    set (c := if n - 1 <? 0 then lit "-" else lit "+").
    destruct (decimal_spec (Z.abs (n - 1)) (Z.abs_nonneg _)) as (Dd & Hd & Vd).
    assert (Hx : is_exp "e" = true
                 /\ is_signed_digits (c ++ decimal (Z.abs (n - 1))) = true).
    { split; [reflexivity|]. unfold c.
      destruct (n - 1 <? 0); cbn [lit list_ascii_of_string app is_signed_digits];
        (replace (is_sign "-") with true by reflexivity);
        (replace (is_sign "+") with true by reflexivity);
        rewrite Dd; destruct (decimal (Z.abs (n - 1))); try congruence;
        reflexivity. }
    assert (Hv : Z.abs (Z_of_signed (c ++ decimal (Z.abs (n - 1)))) <= 324).
    { unfold c. destruct (n - 1 <? 0); cbn [lit list_ascii_of_string app];
        rewrite ?Z_of_signed_minus, ?Z_of_signed_plus, Vd; lia. }
    rewrite Hs. destruct t0 as [|d1 t1].
    + pose proof (scan_build sg [c0] None
                    ("e"%char :: c ++ decimal (Z.abs (n - 1))) Hsg) as B.
      cbn [frac_text app lit list_ascii_of_string] in B |- *.
      eexists. split; [apply B; auto|].
      * rewrite Hs in Ds. exact Ds.
      * right. cbn [r_int r_exp raw_exponent length]. split; [lia | exact Hv].
    + pose proof (scan_build sg [c0] (Some (d1 :: t1))
                    ("e"%char :: c ++ decimal (Z.abs (n - 1))) Hsg) as B.
      cbn [frac_text app lit list_ascii_of_string firstn skipn] in B |- *.
      eexists. split; [apply B; auto|].
      * rewrite Hs in Ds. cbn [forallb] in Ds |- *.
        apply andb_true_iff in Ds as [-> _]. reflexivity.
      * rewrite Hs in Ds. cbn [forallb] in Ds.
        apply andb_true_iff in Ds as [_ Ds]. exact Ds.
      * right. cbn [r_int r_exp raw_exponent length]. split; [lia | exact Hv].
Qed.

(** ** When the function returns *)

Lemma round_double_exact z : Z.abs z < 2 ^ 53 -> round_double z = NFin z.
Proof.
  intros H. unfold round_double.
  now replace (Z.abs z <? 2 ^ 53) with true by (symmetry; apply Z.ltb_lt; lia).
Qed.

(** In the model the only statement that can throw is ["0".repeat]; it does
    not when the exponent is exact as a double and the sum with the length
    is too.  (In an engine [padEnd], [repeat] and the concatenations also
    throw when the text would pass the engine's limit on strings.) *)
Lemma reconstruct_returns p :
  match exponent p with
  | NNaN => True
  | NInf _ => False
  | NFin e => Z.abs e + Z.of_nat (length (mantissa_int p)) < 2 ^ 53
  end ->
  exists rv, reconstruct p = Return rv.
Proof.
  intros H. unfold reconstruct.
  destruct (exponent p) as [| neg | e]; [| contradiction |].
  - cbn [truthy_num]. destruct (truthy_str (mantissa_frac p)); [eauto|].
    destruct (truthy_str (mantissa_int p)); eauto.
  - destruct (truthy_num (NFin e)).
    + destruct (0 <? length (mantissa_int p ++ mantissa_frac p))%nat; [|eauto].
      cbn [num_add_length]. rewrite round_double_exact by lia.
      destruct (length_le_num _ _); [eauto|].
      destruct (num_pos _) eqn:P; [eauto|].
      cbn [num_pos] in P. apply Z.ltb_ge in P.
      cbn [num_neg repeat0].
      replace (- (Z.of_nat (length (mantissa_int p)) + e) <? 0) with false
        by (symmetry; apply Z.ltb_ge; lia).
      cbn [bind]. eauto.
    + destruct (truthy_str (mantissa_frac p)); [eauto|].
      destruct (truthy_str (mantissa_int p)); eauto.
Qed.

Lemma length_drop_while_le p s : (length (drop_while p s) <= length s)%nat.
Proof. pose proof (length_take_drop p s). lia. Qed.

Lemma Number_signed e :
  is_signed_digits e = true -> Number_ (Some e) = round_double (Z_of_signed e).
Proof. intros H. unfold Number_. now rewrite H. Qed.

(** The exponent of a literal, as [Number] gives it. *)
Lemma exponent_of_raw s r :
  scan s = Some r ->
  exponent (parsed_of_raw r)
  = match r_exp r with
    | None => NNaN
    | Some _ => round_double (raw_exponent r)
    end.
Proof.
  intros H. apply scan_inv in H as (_ & _ & _ & x & Hx & _).
  unfold parsed_of_raw, raw_exponent, exp_text in *. cbn [exponent].
  destruct (r_exp r) as [e|]; [|reflexivity].
  destruct Hx as (c & _ & _ & Sd). now apply Number_signed.
Qed.

Theorem result_canonical v p out :
  parse (String_ v) = Some p -> Num2FracStr v = Return out -> canonical out.
Proof.
  intros Hp. unfold Num2FracStr. rewrite Hp.
  destruct (reconstruct p) as [rv|e] eqn:R; cbn [bind]; [|discriminate].
  intros H. injection H as <-. apply finish_canonical; [|exact R].
  eapply parse_wf. exact Hp.
Qed.

(** A number never makes the function throw. *)
Theorem number_never_raises x :
  wf_number x -> exists out, Num2FracStr (VNumber x) = Return out.
Proof.
  intros W. destruct x as [| neg | neg | neg s n].
  - eexists. reflexivity.
  - destruct neg; eexists; reflexivity.
  - eexists. reflexivity.
  - destruct (number_scan neg s n W) as (r & Hscan & Hexp).
    unfold Num2FracStr. cbn [String_]. rewrite parse_scan, Hscan.
    cbn [option_map].
    destruct (reconstruct_returns (parsed_of_raw r)) as [rv ->];
      [|cbn [bind]; eauto].
    rewrite (exponent_of_raw _ _ Hscan).
    destruct Hexp as [-> | [Hl He]]; [exact I|].
    destruct (r_exp r); [|exact I].
    rewrite round_double_exact by lia.
    unfold parsed_of_raw. cbn [mantissa_int].
    pose proof (length_drop_while_le is_zero (r_int r)). lia.
Qed.

(** What a number is turned into: its text as it is when the text is not a
    literal, which happens for NaN and the infinities only; a canonical
    string otherwise. *)
Theorem number_result x out :
  wf_number x -> Num2FracStr (VNumber x) = Return out ->
  (out = Number_toString x /\ (x = NaN \/ exists neg, x = Infinity neg))
  \/ canonical out.
Proof.
  intros W H. destruct x as [| neg | neg | neg s n].
  - left. injection H as <-. split; [reflexivity | now left].
  - left. destruct neg; injection H as <-; split; try reflexivity;
      right; eexists; reflexivity.
  - right. injection H as <-. apply canonical_zero.
  - right. destruct (number_scan neg s n W) as (r & Hscan & _).
    eapply (result_canonical (VNumber (Finite neg s n))); [|exact H].
    cbn [String_]. rewrite parse_scan, Hscan. reflexivity.
Qed.

(** ** Two facts the embedding relies on *)

(** The second group takes part in every match, so [match[2]] is a string. *)
Lemma group2_defined s m :
  exec re_number s = Some m -> exists g, group m 2 = Some g.
Proof.
  rewrite exec_re_number. destruct (scan s) as [r|]; [|discriminate].
  intros H. injection H as <-. unfold group, raw_captures. cbn [captures].
  destruct (r_exp r), (r_frac r); cbn; eauto.
Qed.

(** The fourth group, when it takes part, is a signed decimal integer, the
    only kind of string that [Number_] has to convert. *)
Lemma group4_signed_digits s m e :
  exec re_number s = Some m -> group m 4 = Some e ->
  is_signed_digits e = true.
Proof.
  rewrite exec_re_number. destruct (scan s) as [r|] eqn:Hscan; [|discriminate].
  intros H. injection H as <-. unfold group, raw_captures. cbn [captures].
  apply scan_inv in Hscan as (_ & _ & _ & x & Hx & _). unfold exp_text in Hx.
  destruct (r_exp r) as [t|], (r_frac r); cbn; try discriminate;
    intros E; injection E as <-; destruct Hx as (c & _ & _ & Sd); exact Sd.
Qed.

(** * The claims *)

(** ** C8: the invariants of the parsed literal *)

(** C8. For every input whose text matches the grammar, the parsed literal
    keeps the invariants of the data model: the integer digits never start
    with a zero (the leading zeros of the text are dropped while parsing),
    and the fraction digits never end with a zero (the trailing zeros are
    dropped while parsing).  Both are digits, and they are the digits of the
    text without those zeros. *)
Theorem C8_parsed_literal_invariants (v : value) (p : parsed) :
  parse (String_ v) = Some p ->
  (forall t, mantissa_int p <> "0"%char :: t)
  /\ (forall u, mantissa_frac p <> u ++ ["0"%char])
  /\ forallb is_digit (mantissa_int p) = true
  /\ forallb is_digit (mantissa_frac p) = true
  /\ exists r,
      scan (String_ v) = Some r
      /\ mantissa_int p = drop_while is_zero (r_int r)
      /\ mantissa_frac p = strip_trailing (raw_frac r).
Proof.
  intros H. pose proof (parse_wf _ _ H) as (_ & Hi & Hf & Hs).
  repeat split.
  - intros t E. destruct Hi as [Hi | [_ (c & u & Hc & NZ)]]; [congruence|].
    rewrite Hc in E. injection E as -> _. discriminate.
  - intros u E. rewrite E in Hs.
    pose proof (strip_trailing_last _ _ _ Hs). discriminate.
  - destruct Hi as [-> | [D _]]; [reflexivity | exact D].
  - exact Hf.
  - rewrite parse_scan in H. destruct (scan (String_ v)) as [r|]; [|discriminate].
    injection H as <-. exists r. repeat split.
Qed.

Lemma C8_witness :
  parse (String_ (VString (lit "007.50")))
  = Some (Parsed [] (lit "7") (lit "5") NNaN)
  /\ forall t, lit "7" <> "0"%char :: t.
Proof.
  split; [vm_compute; reflexivity|].
  apply (C8_parsed_literal_invariants (VString (lit "007.50"))
           (Parsed [] (lit "7") (lit "5") NNaN)).
  vm_compute. reflexivity.
Defined.

(** ** C9: literals without a digit in the mantissa *)

Lemma reconstruct_empty p : mantissa p = [] -> reconstruct p = Return [].
Proof.
  unfold mantissa, reconstruct. intros M. rewrite M.
  apply app_eq_nil in M as [-> ->]. cbn.
  destruct (truthy_num (exponent p)); reflexivity.
Qed.

(** C9. A text made of an optional sign, an optional point and an optional
    exponent, with no digit before the exponent, is accepted by the pattern
    and the function returns "0". *)
Theorem C9_no_digit_in_mantissa (sg dot ex : str) :
  (sg = [] \/ sg = lit "+" \/ sg = lit "-") ->
  (dot = [] \/ dot = lit ".") ->
  match ex with
  | [] => True
  | c :: t => is_exp c = true /\ is_signed_digits t = true
  end ->
  parse (sg ++ dot ++ ex) <> None
  /\ Num2FracStr (VString (sg ++ dot ++ ex)) = Return (lit "0").
Proof.
  intros Hsg Hdot Hex.
  set (o := match dot with [] => None | _ :: _ => Some (@nil ascii) end).
  assert (Hd : dot = frac_text o)
    by (unfold o; destruct Hdot as [-> | ->]; reflexivity).
  assert (Do : forallb is_digit (match o with Some F => F | None => [] end) = true)
    by (unfold o; destruct dot; reflexivity).
  pose proof (scan_build sg [] o ex Hsg eq_refl Do Hex) as B.
  cbn [app] in B. rewrite <- Hd in B.
  unfold Num2FracStr. cbn [String_]. rewrite parse_scan, B. cbn [option_map].
  split; [discriminate|].
  rewrite reconstruct_empty; [reflexivity|].
  unfold mantissa, parsed_of_raw, raw_frac.
  cbn [mantissa_int mantissa_frac r_int r_frac drop_while app].
  unfold o. destruct dot; reflexivity.
Qed.

Lemma C9_witness :
  Num2FracStr (VString (lit "-" ++ lit "." ++ lit "e3")) = Return (lit "0").
Proof.
  apply (C9_no_digit_in_mantissa (lit "-") (lit ".") (lit "e3")).
  - right. right. reflexivity.
  - right. reflexivity.
  - split; reflexivity.
Defined.

(** ** C10: the pattern is anchored and nothing is trimmed *)

Lemma signed_digits_alphabet e :
  is_signed_digits e = true -> forallb is_literal_char e = true.
Proof.
  unfold is_signed_digits. destruct e as [|c t]; [discriminate|].
  assert (W : forall u, forallb is_digit u = true ->
                        forallb is_literal_char u = true).
  { intros u. apply forallb_weaken. intros d D. unfold is_literal_char.
    now rewrite D. }
  destruct (is_sign c) eqn:Sg.
  - intros H. apply andb_true_iff in H as [_ H]. cbn [forallb].
    unfold is_literal_char at 1. rewrite Sg, orb_true_r. cbn [orb andb].
    now apply W.
  - apply W.
Qed.

(** An accepted text has no character outside the alphabet of literals. *)
Lemma scan_alphabet s r : scan s = Some r -> forallb is_literal_char s = true.
Proof.
  intros H. apply scan_inv in H as (Hs & Hi & Hf & x & Hx & ->).
  assert (W : forall u, forallb is_digit u = true ->
                        forallb is_literal_char u = true).
  { intros u. apply forallb_weaken. intros d D. unfold is_literal_char.
    now rewrite D. }
  rewrite !forallb_app. repeat (apply andb_true_iff; split).
  - destruct Hs as [-> | [-> | ->]]; reflexivity.
  - now apply W.
  - unfold raw_frac in Hf. destruct (r_frac r); [|reflexivity].
    cbn [lit list_ascii_of_string app forallb]. now rewrite (W _ Hf).
  - unfold exp_text in Hx. destruct (r_exp r) as [e|]; [|now rewrite Hx].
    destruct Hx as (c & -> & E & Sd). cbn [forallb].
    unfold is_literal_char at 1. rewrite E, orb_true_r.
    now apply signed_digits_alphabet.
Qed.

Lemma space_not_literal c : is_space c = true -> is_literal_char c = false.
Proof. by_cases_on_ascii c. Qed.

(** C10. A text with white space before or after it is rejected: the
    pattern is anchored at both ends and the function trims nothing, so it
    throws the error that carries the text.  This holds whatever stands
    between the white space, a valid literal included. *)
Theorem C10_surrounding_white_space (pre body post : str) :
  forallb is_space pre = true -> forallb is_space post = true ->
  pre <> [] \/ post <> [] ->
  Num2FracStr (VString (pre ++ body ++ post))
  = Throw (invalid_number (pre ++ body ++ post)).
Proof.
  intros Hpre Hpost Hne. unfold Num2FracStr. cbn [String_ typeof_number].
  rewrite parse_scan.
  destruct (scan (pre ++ body ++ post)) as [r|] eqn:E; [|reflexivity].
  exfalso. apply scan_alphabet in E. rewrite !forallb_app in E.
  apply andb_true_iff in E as [E1 E2]. apply andb_true_iff in E2 as [_ E2].
  destruct Hne as [Hne | Hne].
  - destruct pre as [|c t]; [congruence|]. cbn [forallb] in Hpre, E1.
    apply andb_true_iff in Hpre as [Sp _]. apply andb_true_iff in E1 as [L _].
    rewrite (space_not_literal _ Sp) in L. discriminate.
  - destruct post as [|c t]; [congruence|]. cbn [forallb] in Hpost, E2.
    apply andb_true_iff in Hpost as [Sp _]. apply andb_true_iff in E2 as [L _].
    rewrite (space_not_literal _ Sp) in L. discriminate.
Qed.

Lemma C10_witness :
  scan (lit "1") <> None
  /\ Num2FracStr (VString (lit " " ++ lit "1" ++ []))
     = Throw (invalid_number (lit " " ++ lit "1" ++ []))
  /\ Num2FracStr (VString ([] ++ lit "1" ++ lit " "))
     = Throw (invalid_number ([] ++ lit "1" ++ lit " ")).
Proof.
  split; [vm_compute; discriminate|]. split.
  - apply (C10_surrounding_white_space (lit " ") (lit "1") []);
      [reflexivity | reflexivity | left; discriminate].
  - apply (C10_surrounding_white_space [] (lit "1") (lit " "));
      [reflexivity | reflexivity | right; discriminate].
Defined.

(** ** C7: the scenarios of the specification *)

(** C7. The six scenarios.  The number 12.145e+3 is the double 12145, whose
    digits are 12145 with the point after the fifth; 12.145e-2 is the
    double nearest to 0.12145, digits 12145 with the point before the
    first; -0.0001 has the digit 1 with the point three places before it. *)
Theorem C7_scenarios :
  Num2FracStr (VNumber (Finite false (lit "12145") 5)) = Return (lit "12145")
  /\ Num2FracStr (VNumber (Finite false (lit "12145") 0))
     = Return (lit "0.12145")
  /\ Num2FracStr (VString (lit "1.2300")) = Return (lit "1.23")
  /\ Num2FracStr (VNumber (Finite true (lit "1") (-3)))
     = Return (lit "-0.0001")
  /\ Num2FracStr (VString (lit "007.50")) = Return (lit "7.5")
  /\ Num2FracStr (VString (lit "not-a-number-string"))
     = Throw (invalid_number (lit "not-a-number-string")).
Proof. repeat split; vm_compute; reflexivity. Qed.

(** ** C4: the format of the result *)

Lemma Return_inj {A : Type} (a b : A) : Return a = Return b -> a = b.
Proof. intros H. now injection H. Qed.

Lemma count_no_dots s :
  forallb (fun c => negb (is_dot c)) s = true ->
  count_occ ascii_dec s "."%char = O.
Proof.
  induction s as [|c t IH]; [reflexivity|]. cbn [forallb count_occ].
  intros H. apply andb_true_iff in H as [Hc Ht].
  destruct (ascii_dec c "."); [subst; discriminate | auto].
Qed.

Lemma digits_no_exp s :
  forallb is_digit s = true -> forallb (fun c => negb (is_exp c)) s = true.
Proof.
  apply forallb_weaken. intros c D. now rewrite (digit_not_exp _ D).
Qed.

Lemma sign_text_no_exp sg :
  sign_text sg -> forallb (fun c => negb (is_exp c)) sg = true.
Proof. intros [-> | ->]; reflexivity. Qed.

Lemma sign_text_no_dots sg : sign_text sg -> count_occ ascii_dec sg "."%char = O.
Proof. intros [-> | ->]; reflexivity. Qed.

Lemma canonical_int_digits I : canonical_int I -> forallb is_digit I = true.
Proof. intros [-> | [D _]]; [reflexivity | exact D]. Qed.

Lemma digit_not_minus c : is_digit c = true -> Ascii.eqb c "-" = false.
Proof. by_cases_on_ascii c. Qed.

(** The digits of a result, after the sign. *)
Lemma unsigned_part_sign sg c t :
  sign_text sg -> is_digit c = true -> unsigned_part (sg ++ c :: t) = c :: t.
Proof.
  intros [-> | ->] D; [|reflexivity].
  cbn [app unsigned_part]. now rewrite (digit_not_minus _ D).
Qed.

Lemma positive_digits_head I :
  positive_digits I ->
  exists c t, I = c :: t /\ is_digit c = true /\ is_zero c = false.
Proof.
  intros [_ (c & t & -> & NZ)]. exists c, t. repeat split.
  - now apply nonzero_is_digit.
  - now apply nonzero_not_zero.
Qed.

(** The four properties of the claim, for a canonical string. *)
Lemma canonical_format out :
  canonical out ->
  forallb (fun c => negb (is_exp c)) out = true
  /\ (count_occ ascii_dec out "."%char <= 1)%nat
  /\ (forall t, unsigned_part out = "0"%char :: t ->
                out = lit "0" \/ exists t', t = "."%char :: t')
  /\ (In "."%char out -> forall u, out <> u ++ ["0"%char]).
Proof.
  intros [| sg I Hsg P | sg I F Hsg CI (DF & HF & SF)].
  - repeat split; [cbn; lia | now left |].
    intros [H | []]. discriminate.
  - pose proof P as [DI _].
    destruct (positive_digits_head _ P) as (c & t & -> & Dc & Zc).
    repeat split.
    + now rewrite forallb_app, sign_text_no_exp, digits_no_exp.
    + rewrite count_occ_app, sign_text_no_dots, count_no_dots by
        (auto using digits_no_dots). lia.
    + intros u. rewrite unsigned_part_sign by auto.
      intros E. injection E as -> _. discriminate.
    + intros Hin. exfalso. apply in_app_or in Hin as [Hin | Hin].
      * destruct Hsg as [-> | ->]; [contradiction|].
        destruct Hin as [E | []]. discriminate.
      * apply digits_no_dots in DI. rewrite forallb_forall in DI.
        specialize (DI _ Hin). discriminate.
  - pose proof (canonical_int_digits _ CI) as DI.
    repeat split.
    + rewrite !forallb_app, sign_text_no_exp by auto.
      rewrite (digits_no_exp I), (digits_no_exp F) by auto.
      reflexivity.
    + rewrite !count_occ_app, sign_text_no_dots by auto.
      rewrite (count_no_dots I), (count_no_dots F) by auto using digits_no_dots.
      cbn. lia.
    + intros t. destruct CI as [-> | P].
      * destruct Hsg as [-> | ->]; cbn; intros E; injection E as <-;
          right; eexists; reflexivity.
      * destruct (positive_digits_head _ P) as (c & u & -> & Dc & Zc).
        rewrite <- app_comm_cons, unsigned_part_sign by auto.
        intros E. injection E as -> _. discriminate.
    + intros _ u E.
      destruct (exists_last HF) as (F' & z & ->).
      rewrite !app_assoc in E. apply app_inj_tail in E as [_ ->].
      pose proof (strip_trailing_last _ _ _ SF). discriminate.
Qed.

(** C4. Whenever the function returns, the result has no exponent marker
    and at most one point; after the sign, a zero comes first only when it
    is the whole result or stands just before the point; a result with a
    point does not end in a zero.  (Numbers are those a double can be.) *)
Theorem C4_output_format (v : value) (out : str) :
  wf_value v -> Num2FracStr v = Return out ->
  forallb (fun c => negb (is_exp c)) out = true
  /\ (count_occ ascii_dec out "."%char <= 1)%nat
  /\ (forall t, unsigned_part out = "0"%char :: t ->
                out = lit "0" \/ exists t', t = "."%char :: t')
  /\ (In "."%char out -> forall u, out <> u ++ ["0"%char]).
Proof.
  intros W H. destruct v as [x | s].
  - destruct (number_result x out W H) as [[-> Hx] | C];
      [|now apply canonical_format].
    destruct Hx as [-> | [[] ->]]; cbn;
      (repeat split; [lia | discriminate | intros Hin; exfalso; intuition discriminate]).
  - apply canonical_format.
    destruct (parse (String_ (VString s))) as [p|] eqn:P.
    + eapply result_canonical; eauto.
    + unfold Num2FracStr in H. rewrite P in H. discriminate.
Qed.

Lemma C4_witness :
  forallb (fun c => negb (is_exp c)) (lit "-0.00012") = true
  /\ (count_occ ascii_dec (lit "-0.00012") "."%char <= 1)%nat.
Proof.
  pose proof (C4_output_format (VString (lit "-12.0e-5")) (lit "-0.00012") I) as H.
  assert (E : Num2FracStr (VString (lit "-12.0e-5")) = Return (lit "-0.00012"))
    by (vm_compute; reflexivity).
  destruct (H E) as (H1 & H2 & _). split; assumption.
Defined.

(** ** C5: the sign and the zeros *)

Lemma zeros_value ds :
  forallb is_zero ds = true -> Z_of_digits ds = 0.
Proof.
  induction ds as [|c t IH] using rev_ind; [reflexivity|].
  rewrite forallb_app. cbn [forallb]. intros H.
  apply andb_true_iff in H as [Ht Hc]. rewrite andb_true_r in Hc.
  rewrite Z_of_digits_snoc, IH, (is_zero_eq _ Hc) by exact Ht. reflexivity.
Qed.

Lemma digit_value_range c : is_digit c = true -> 0 <= digit_value c <= 9.
Proof.
  unfold is_digit, in_range, digit_value. intros H.
  apply andb_true_iff in H as [L U].
  apply Nat.leb_le in L. apply Nat.leb_le in U. lia.
Qed.

Lemma digit_value_zero c : digit_value c = 0 -> is_zero c = true.
Proof.
  unfold digit_value, is_zero. intros H.
  assert (E : nat_of_ascii c = 48%nat) by lia.
  apply (f_equal ascii_of_nat) in E. rewrite ascii_nat_embedding in E.
  now rewrite E.
Qed.

Lemma Z_of_digits_nonneg ds : forallb is_digit ds = true -> 0 <= Z_of_digits ds.
Proof.
  induction ds as [|c t IH] using rev_ind; [cbn; lia|].
  rewrite forallb_app. cbn [forallb]. intros H.
  apply andb_true_iff in H as [Ht Hc]. rewrite andb_true_r in Hc.
  rewrite Z_of_digits_snoc. pose proof (digit_value_range _ Hc).
  specialize (IH Ht). lia.
Qed.

Lemma value_zero_zeros ds :
  forallb is_digit ds = true -> Z_of_digits ds = 0 -> forallb is_zero ds = true.
Proof.
  induction ds as [|c t IH] using rev_ind; [reflexivity|].
  rewrite !forallb_app. cbn [forallb]. intros H.
  apply andb_true_iff in H as [Ht Hc]. rewrite andb_true_r in Hc.
  rewrite Z_of_digits_snoc. intros V.
  pose proof (digit_value_range _ Hc). pose proof (Z_of_digits_nonneg _ Ht).
  rewrite IH, (digit_value_zero c) by (auto; lia). reflexivity.
Qed.

(** The parsed mantissa is empty exactly when the digits of the text are
    all zeros, that is when the literal denotes zero. *)
Lemma mantissa_empty_iff s r :
  scan s = Some r ->
  (mantissa (parsed_of_raw r) = [] <-> Z_of_digits (r_int r ++ raw_frac r) = 0).
Proof.
  intros H. apply scan_inv in H as (_ & Di & Df & _).
  unfold mantissa, parsed_of_raw. cbn [mantissa_int mantissa_frac].
  split.
  - intros E. apply app_eq_nil in E as [Ei Ef].
    apply zeros_value. rewrite forallb_app.
    apply drop_while_nil_all in Ei. apply strip_trailing_nil_zeros in Ef.
    now rewrite Ei, Ef.
  - intros V. apply value_zero_zeros in V; [|now rewrite forallb_app, Di, Df].
    rewrite forallb_app in V. apply andb_true_iff in V as [Vi Vf].
    now rewrite (drop_while_all _ _ Vi), (strip_trailing_zeros_nil _ Vf).
Qed.

Lemma canonical_unsigned_head U :
  canonical_unsigned U -> exists c t, U = c :: t /\ is_digit c = true.
Proof.
  intros [P | (I & F & -> & CI & _)].
  - destruct (positive_digits_head _ P) as (c & t & -> & D & _). eauto.
  - destruct CI as [-> | P]; [eexists; eexists; split; reflexivity|].
    destruct (positive_digits_head _ P) as (c & t & -> & D & _).
    rewrite <- app_comm_cons. eauto.
Qed.

Lemma sign_of_raw r :
  sign (parsed_of_raw r) = lit "-" <-> r_sign r = lit "-".
Proof.
  unfold parsed_of_raw, str_eqb. cbn [sign].
  destruct (list_eq_dec ascii_dec (r_sign r) (lit "-")) as [E | E].
  - tauto.
  - split; [discriminate | tauto].
Qed.

(** C5 as it stands fails for the number minus infinity: its text is not
    a literal, so no sign and no magnitude are parsed, and the [typeof]
    guard returns the text as it is, with its minus sign. *)
Lemma C5_counterexample :
  Num2FracStr (VNumber (Infinity true)) = Return (lit "-Infinity")
  /\ (exists t, lit "-Infinity" = "-"%char :: t)
  /\ parse (String_ (VNumber (Infinity true))) = None
  /\ ~ (exists r,
          scan (String_ (VNumber (Infinity true))) = Some r
          /\ r_sign r = lit "-"
          /\ Z_of_digits (r_int r ++ raw_frac r) <> 0).
Proof.
  split; [reflexivity|]. split; [eexists; reflexivity|].
  split; [vm_compute; reflexivity|].
  intros (r & H & _). vm_compute in H. discriminate.
Qed.

(** C5, amended.  For an input whose text matches the grammar (every
    string on which the function returns, and every number but NaN and the
    infinities), the result starts with a minus sign exactly when the text
    has one and its digits are not all zeros; a text whose digits are all
    zeros gives exactly "0".  The zero forms named in the specification
    follow. *)
Theorem C5_sign_and_zero :
  (forall v r out,
      scan (String_ v) = Some r -> Num2FracStr v = Return out ->
      ((exists t, out = "-"%char :: t)
       <-> r_sign r = lit "-" /\ Z_of_digits (r_int r ++ raw_frac r) <> 0))
  /\ (forall v r,
         scan (String_ v) = Some r ->
         Z_of_digits (r_int r ++ raw_frac r) = 0 ->
         Num2FracStr v = Return (lit "0"))
  /\ Num2FracStr (VNumber (Zero false)) = Return (lit "0")
  /\ Num2FracStr (VNumber (Zero true)) = Return (lit "0")
  /\ Num2FracStr (VString (lit "0")) = Return (lit "0")
  /\ Num2FracStr (VString (lit "0.0")) = Return (lit "0")
  /\ Num2FracStr (VString (lit "0e10")) = Return (lit "0")
  /\ Num2FracStr (VString (lit "-0")) = Return (lit "0")
  /\ Num2FracStr (VString (lit "-0.00")) = Return (lit "0")
  /\ Num2FracStr (VString (lit "-0e5")) = Return (lit "0").
Proof.
  split; [|split; [|repeat split; vm_compute; reflexivity]].
  - intros v r out Hscan. unfold Num2FracStr.
    rewrite parse_scan, Hscan. cbn [option_map].
    destruct (reconstruct (parsed_of_raw r)) as [rv|e] eqn:R; cbn [bind];
      [|discriminate].
    intros H. apply Return_inj in H. subst out.
    rewrite <- (mantissa_empty_iff _ _ Hscan), <- sign_of_raw.
    pose proof (parsed_of_raw_wf _ _ Hscan) as W.
    destruct (list_eq_dec ascii_dec (mantissa (parsed_of_raw r)) []) as [M | M].
    + rewrite reconstruct_empty in R by exact M. injection R as <-.
      cbn [finish truthy_str]. split; [intros [t E]; discriminate | tauto].
    + destruct (finish_nonzero _ _ W R M) as (U & -> & CU).
      destruct (canonical_unsigned_head _ CU) as (c & t & -> & D).
      destruct W as ([-> | ->] & _).
      * cbn [app]. split; [|intros [E _]; discriminate].
        intros [u E]. injection E as -> _. discriminate.
      * split; [intros _; split; [reflexivity | exact M]|].
        intros _. eexists. reflexivity.
  - intros v r Hscan V. unfold Num2FracStr.
    rewrite parse_scan, Hscan. cbn [option_map].
    rewrite reconstruct_empty; [reflexivity|].
    now apply (mantissa_empty_iff _ _ Hscan).
Qed.

Lemma C5_witness :
  (exists t, lit "-0.5" = "-"%char :: t)
  /\ Num2FracStr (VString (lit "-000.000e7")) = Return (lit "0").
Proof.
  destruct C5_sign_and_zero as (Hsign & Hzero & _). split.
  - apply (Hsign (VString (lit "-.5")) (Raw (lit "-") [] (Some (lit "5")) None)).
    + vm_compute. reflexivity.
    + vm_compute. reflexivity.
    + split; [reflexivity | vm_compute; discriminate].
  - apply (Hzero (VString (lit "-000.000e7"))
                 (Raw (lit "-") (lit "000") (Some (lit "000")) (Some (lit "7")))).
    + vm_compute. reflexivity.
    + vm_compute. reflexivity.
Defined.

(** ** C6: normalizing a result again *)

(** C6 as it stands fails for NaN (and for the infinities): the number NaN
    is returned as the text "NaN", and the string "NaN" is rejected. *)
Lemma C6_counterexample :
  Num2FracStr (VNumber NaN) = Return (lit "NaN")
  /\ Num2FracStr (VString (lit "NaN")) = Throw (invalid_number (lit "NaN")).
Proof. split; vm_compute; reflexivity. Qed.

(** C6, amended.  For every input whose text matches the grammar (every
    string on which the function returns, and every number but NaN and the
    infinities), the result is returned unchanged when it is given to the
    function again as a string. *)
Theorem C6_idempotent_on_literals (v : value) (p : parsed) (out : str) :
  parse (String_ v) = Some p -> Num2FracStr v = Return out ->
  Num2FracStr (VString out) = Return out.
Proof.
  intros Hp H. apply canonical_fixed. eapply result_canonical; eauto.
Qed.

Lemma C6_witness :
  Num2FracStr (VString (lit "0.0012145")) = Return (lit "0.0012145").
Proof.
  apply (C6_idempotent_on_literals (VString (lit "12.145e-4"))
           (Parsed [] (lit "12") (lit "145") (NFin (-4))));
    vm_compute; reflexivity.
Defined.

(** ** C2: the reconstruction step *)

(** The reconstruction by the model is the one of the specification when
    the exponent is an exact double and small enough for the split point to
    be exact too.  (The model returns whatever the length of the text; the
    code returns when its engine can hold the text.) *)
Lemma reconstruct_exact p e :
  exponent p = NFin e -> e <> 0 -> mantissa p <> [] ->
  Z.abs e + Z.of_nat (length (mantissa p)) < 2 ^ 53 ->
  reconstruct p = Return (spec_unsigned p e).
Proof.
  intros He Hne M B. unfold reconstruct, spec_unsigned, splitPoint.
  fold (mantissa p). rewrite He. cbn [truthy_num].
  replace (e =? 0) with false by (symmetry; apply Z.eqb_neq; exact Hne).
  cbn [negb].
  assert (Hlen : (0 <? length (mantissa p))%nat = true).
  { destruct (mantissa p); [congruence | reflexivity]. }
  rewrite Hlen. cbn [num_add_length].
  assert (Hi : Z.of_nat (length (mantissa_int p))
               <= Z.of_nat (length (mantissa p))).
  { unfold mantissa. rewrite length_app. lia. }
  set (sp := Z.of_nat (length (mantissa_int p)) + e) in *.
  rewrite round_double_exact by lia.
  cbn [length_le_num num_pos num_neg].
  destruct (Z.of_nat (length (mantissa p)) <=? sp) eqn:Le.
  - apply Z.leb_le in Le. unfold padEnd0. cbn [ToLength].
    rewrite Z.max_l, Z.min_l by lia.
    destruct (sp <=? Z.of_nat (length (mantissa p))) eqn:Le'; [|reflexivity].
    apply Z.leb_le in Le'.
    replace (sp - Z.of_nat (length (mantissa p))) with 0 by lia.
    cbn [Z.to_nat zeros repeat]. now rewrite app_nil_r.
  - apply Z.leb_gt in Le. destruct (0 <? sp) eqn:Pos.
    + apply Z.ltb_lt in Pos. now rewrite slice_prefix, slice_suffix by lia.
    + apply Z.ltb_ge in Pos. cbn [repeat0].
      replace (- sp <? 0) with false by (symmetry; apply Z.ltb_ge; lia).
      reflexivity.
Qed.

(** C2, the failing input.  The string 1e-1000...0 (four hundred zeros) is
    a literal with a nonzero exponent and the mantissa 1, for which the
    unsigned result should be "0." followed by zeros and 1.  The code has
    no unsigned result for it: [Number] turns the exponent into minus
    infinity, the split point is minus infinity, and
    ["0".repeat(Infinity)] throws a RangeError. *)
Theorem C2_literal_without_reconstruction :
  exists r,
    scan tiny_literal = Some r
    /\ raw_exponent r <> 0
    /\ mantissa (parsed_of_raw r) <> []
    /\ reconstruct (parsed_of_raw r) = Throw RangeError
    /\ reconstruct (parsed_of_raw r)
       <> Return (spec_unsigned (parsed_of_raw r) (raw_exponent r)).
Proof.
  exists (Raw [] (lit "1") None (Some (lit "-1" ++ zeros 400))).
  assert (E : reconstruct
                (parsed_of_raw
                   (Raw [] (lit "1") None (Some (lit "-1" ++ zeros 400))))
              = Throw RangeError) by (vm_compute; reflexivity).
  split; [vm_compute; reflexivity|].
  split; [vm_compute; discriminate|].
  split; [vm_compute; discriminate|].
  split; [exact E|]. rewrite E. discriminate.
Qed.

(** ** C1: the value of the result *)

Local Open Scope Q_scope.

Lemma ten_nonzero : ~ (10 # 1) == 0.
Proof. discriminate. Qed.

Lemma inject_pow10 k : (0 <= k)%Z -> inject_Z (10 ^ k) == (10 # 1) ^ k.
Proof. intros H. now rewrite Zpower_Qpower. Qed.

(** Moving a power of ten between the digits and the exponent. *)
Lemma decimal_Q_scale neg m k e :
  (0 <= k)%Z -> decimal_Q neg (m * 10 ^ k) e == decimal_Q neg m (e + k).
Proof.
  intros H. unfold decimal_Q.
  rewrite inject_Z_mult, inject_pow10, Qpower_plus by (auto using ten_nonzero).
  ring.
Qed.

Lemma decimal_Q_zero neg e : decimal_Q neg 0 e == 0.
Proof. unfold decimal_Q. destruct neg; ring. Qed.

Lemma decimal_Q_eq neg m e e' : e = e' -> decimal_Q neg m e == decimal_Q neg m e'.
Proof. intros ->. reflexivity. Qed.

Local Close Scope Q_scope.

Lemma Z_of_zeros k : Z_of_digits (zeros k) = 0.
Proof. apply zeros_value, forallb_zeros. Qed.

Lemma Z_of_digits_zeros_r a k :
  Z_of_digits (a ++ zeros k) = Z_of_digits a * 10 ^ Z.of_nat k.
Proof. rewrite Z_of_digits_app, Z_of_zeros, length_zeros. lia. Qed.

Lemma Z_of_digits_zeros_l k a : Z_of_digits (zeros k ++ a) = Z_of_digits a.
Proof. rewrite Z_of_digits_app, Z_of_zeros. lia. Qed.

Lemma Z_of_drop_zeros a : Z_of_digits (drop_while is_zero a) = Z_of_digits a.
Proof.
  rewrite <- (take_drop_while is_zero a) at 2.
  rewrite Z_of_digits_app, (zeros_value (take_while is_zero a)); [lia|].
  apply forallb_take_while.
Qed.

Lemma Z_of_lead a : Z_of_digits (lead a) = Z_of_digits a.
Proof.
  unfold lead. destruct (drop_while is_zero a) as [|x u] eqn:E.
  - apply drop_while_nil_all in E. rewrite (zeros_value a E).
    destruct a; reflexivity.
  - rewrite <- E. apply Z_of_drop_zeros.
Qed.

Lemma Z_of_lead_app a b : Z_of_digits (lead a ++ b) = Z_of_digits (a ++ b).
Proof. now rewrite !Z_of_digits_app, Z_of_lead. Qed.

Lemma lead_nonempty a : a <> [] -> lead a <> [].
Proof.
  intros H. unfold lead. destruct (drop_while is_zero a); [|discriminate].
  destruct a; [congruence | discriminate].
Qed.

(** The value of a literal without exponent. *)
Lemma scan_plain sg I o :
  sign_text sg -> forallb is_digit I = true ->
  forallb is_digit (match o with Some F => F | None => [] end) = true ->
  exists r,
    scan (sg ++ I ++ frac_text o) = Some r
    /\ raw_value r
       = decimal_Q (str_eqb sg (lit "-"))
                   (Z_of_digits (I ++ match o with Some F => F | None => [] end))
                   (0 - Z.of_nat (length (match o with Some F => F | None => [] end))).
Proof.
  intros Hsg DI Do.
  assert (Hsg' : sg = [] \/ sg = lit "+" \/ sg = lit "-")
    by (destruct Hsg; auto).
  pose proof (scan_build sg I o [] Hsg' DI Do Logic.I) as B.
  rewrite app_nil_r in B. eexists. split; [exact B|]. reflexivity.
Qed.

(** The value of what the two [replace] calls leave, for digits. *)
Lemma value_digits sg x :
  sign_text sg -> forallb is_digit x = true ->
  exists r,
    scan (sg ++ normalize_zeros x) = Some r
    /\ (raw_value r == decimal_Q (str_eqb sg (lit "-")) (Z_of_digits x) 0)%Q.
Proof.
  intros Hsg D. rewrite (normalize_zeros_digits _ D).
  destruct (scan_plain sg (lead x) None Hsg (lead_digits _ D) eq_refl)
    as (r & Hr & V).
  cbn [frac_text] in Hr. rewrite app_nil_r in Hr.
  exists r. split; [exact Hr|]. rewrite V, app_nil_r, Z_of_lead. reflexivity.
Qed.

(** The same for digits, a point, digits. *)
Lemma value_point sg a ds :
  sign_text sg -> forallb is_digit a = true -> forallb is_digit ds = true ->
  exists r,
    scan (sg ++ normalize_zeros (a ++ lit "." ++ ds)) = Some r
    /\ (raw_value r
        == decimal_Q (str_eqb sg (lit "-")) (Z_of_digits (a ++ ds))
                     (- Z.of_nat (length ds)))%Q.
Proof.
  intros Hsg Da Dd. rewrite (normalize_zeros_point _ _ Da Dd).
  unfold strip_fraction.
  destruct (strip_trailing_split ds) as [k Hk].
  pose proof (forallb_strip_trailing is_digit ds Dd) as Dc.
  remember (strip_trailing ds) as core eqn:E.
  assert (Hl : Z.of_nat (length ds) = Z.of_nat (length core) + Z.of_nat k).
  { rewrite Hk at 1. rewrite length_app, length_zeros. lia. }
  assert (Hv : Z_of_digits (a ++ ds)
               = Z_of_digits (a ++ core) * 10 ^ Z.of_nat k).
  { rewrite Hk at 1. now rewrite app_assoc, Z_of_digits_zeros_r. }
  destruct core as [|x u].
  - destruct ds as [|d ds'].
    + destruct (scan_plain sg (lead a) (Some []) Hsg (lead_digits _ Da) eq_refl)
        as (r & Hr & V).
      exists r. split; [exact Hr|].
      rewrite V, Z_of_lead_app. reflexivity.
    + destruct (scan_plain sg (lead a) None Hsg (lead_digits _ Da) eq_refl)
        as (r & Hr & V).
      cbn [frac_text] in Hr. rewrite app_nil_r in Hr.
      exists r. split; [exact Hr|].
      rewrite V, Hv, !app_nil_r, Z_of_lead, decimal_Q_scale by lia.
      apply decimal_Q_eq. cbn [length] in Hl |- *. lia.
  - destruct (scan_plain sg (lead a) (Some (x :: u)) Hsg (lead_digits _ Da) Dc)
      as (r & Hr & V).
    exists r. split; [exact Hr|].
    rewrite V, Hv, Z_of_lead_app, decimal_Q_scale by lia.
    apply decimal_Q_eq. lia.
Qed.

(** The value of a literal, from the parsed digits: the sign, times the
    mantissa digits, times ten to the exponent less the number of fraction
    digits. *)
Lemma raw_value_parsed s r :
  scan s = Some r ->
  (raw_value r
   == decimal_Q (str_eqb (r_sign r) (lit "-"))
                (Z_of_digits (mantissa (parsed_of_raw r)))
                (raw_exponent r
                 - Z.of_nat (length (mantissa_frac (parsed_of_raw r)))))%Q.
Proof.
  intros _. unfold raw_value, mantissa, parsed_of_raw.
  cbn [mantissa_int mantissa_frac].
  destruct (strip_trailing_split (raw_frac r)) as [k Hk].
  rewrite Hk at 1 2. rewrite app_assoc, Z_of_digits_zeros_r.
  rewrite decimal_Q_scale by lia.
  rewrite (Z_of_digits_app (r_int r)), (Z_of_digits_app (drop_while _ _)).
  rewrite Z_of_drop_zeros. apply decimal_Q_eq.
  rewrite length_app, length_zeros. lia.
Qed.

(** Without an exponent, or with the exponent zero, the code builds what the
    specification builds for the exponent 0. *)
Lemma reconstruct_zero p :
  truthy_num (exponent p) = false -> mantissa p <> [] ->
  reconstruct p = Return (spec_unsigned p 0).
Proof.
  intros He M. unfold reconstruct, spec_unsigned, splitPoint, mantissa in *.
  rewrite He, Z.add_0_r, length_app.
  destruct (mantissa_frac p) as [|c t] eqn:F; cbn [truthy_str].
  - rewrite app_nil_r in *.
    destruct (mantissa_int p) as [|c' t'] eqn:I; [congruence|].
    cbn [truthy_str length].
    replace (Z.of_nat (S (length t') + 0) <=? Z.of_nat (S (length t')))
      with true by (symmetry; apply Z.leb_le; lia).
    replace (Z.of_nat (S (length t')) - Z.of_nat (S (length t') + 0))
      with 0 by lia.
    cbn [Z.to_nat zeros repeat]. now rewrite app_nil_r.
  - replace (Z.of_nat (length (mantissa_int p) + length (c :: t))
             <=? Z.of_nat (length (mantissa_int p)))
      with false by (symmetry; apply Z.leb_gt; cbn [length]; lia).
    destruct (mantissa_int p) as [|c' t'] eqn:I; cbn [truthy_str].
    + reflexivity.
    + replace (0 <? Z.of_nat (length (c' :: t'))) with true
        by (symmetry; apply Z.ltb_lt; cbn [length]; lia).
      rewrite Nat2Z.id.
      now rewrite firstn_app, firstn_all, Nat.sub_diag, firstn_O, app_nil_r,
        skipn_app, skipn_all, Nat.sub_diag.
Qed.

(** The value of the normalized reconstruction. *)
Lemma spec_unsigned_value p e :
  wf_parsed p -> mantissa p <> [] ->
  exists r,
    scan (sign p ++ normalize_zeros (spec_unsigned p e)) = Some r
    /\ (raw_value r
        == decimal_Q (str_eqb (sign p) (lit "-"))
                     (Z_of_digits (mantissa p))
                     (e - Z.of_nat (length (mantissa_frac p))))%Q.
Proof.
  intros W M. pose proof W as (Hsg & _).
  pose proof (wf_mantissa_digits p W) as D.
  assert (Hlen : Z.of_nat (length (mantissa p))
                 = Z.of_nat (length (mantissa_int p))
                   + Z.of_nat (length (mantissa_frac p))).
  { unfold mantissa. rewrite length_app. lia. }
  unfold spec_unsigned, splitPoint.
  set (sp := Z.of_nat (length (mantissa_int p)) + e) in *.
  destruct (Z.of_nat (length (mantissa p)) <=? sp) eqn:Le.
  - apply Z.leb_le in Le.
    destruct (value_digits (sign p)
                (mantissa p ++ zeros (Z.to_nat (sp - Z.of_nat (length (mantissa p)))))
                Hsg) as (r & Hr & V).
    { now rewrite forallb_app, D, zeros_digits. }
    exists r. split; [exact Hr|].
    rewrite V, Z_of_digits_zeros_r, decimal_Q_scale by lia.
    apply decimal_Q_eq. lia.
  - apply Z.leb_gt in Le. destruct (0 <? sp) eqn:Pos.
    + apply Z.ltb_lt in Pos.
      destruct (value_point (sign p) (firstn (Z.to_nat sp) (mantissa p))
                  (skipn (Z.to_nat sp) (mantissa p)) Hsg) as (r & Hr & V).
      { now apply forallb_firstn. }
      { now apply forallb_skipn. }
      exists r. split; [exact Hr|].
      rewrite V, firstn_skipn. apply decimal_Q_eq.
      rewrite length_skipn. lia.
    + apply Z.ltb_ge in Pos.
      destruct (value_point (sign p) (lit "0")
                  (zeros (Z.to_nat (- sp)) ++ mantissa p) Hsg eq_refl)
        as (r & Hr & V).
      { now rewrite forallb_app, D, zeros_digits. }
      exists r. split; [exact Hr|].
      rewrite V. change (lit "0") with (zeros 1).
      rewrite !Z_of_digits_zeros_l. apply decimal_Q_eq.
      rewrite length_app, length_zeros. lia.
Qed.

Lemma length_strip_trailing ds : (length (strip_trailing ds) <= length ds)%nat.
Proof.
  destruct (strip_trailing_split ds) as [k Hk]. rewrite Hk at 2.
  rewrite length_app. lia.
Qed.

(** The mantissa is not longer than the text. *)
Lemma mantissa_length s r :
  scan s = Some r ->
  (length (mantissa (parsed_of_raw r)) <= length s)%nat.
Proof.
  intros H. apply scan_inv in H as (_ & _ & _ & x & _ & ->).
  unfold mantissa, parsed_of_raw, raw_frac. cbn [mantissa_int mantissa_frac].
  pose proof (length_drop_while_le is_zero (r_int r)).
  rewrite !length_app. destruct (r_frac r) as [f|].
  - pose proof (length_strip_trailing f). rewrite length_app. lia.
  - cbn [strip_trailing length]. lia.
Qed.

Lemma sign_flag r :
  str_eqb (sign (parsed_of_raw r)) (lit "-") = str_eqb (r_sign r) (lit "-").
Proof.
  unfold parsed_of_raw. cbn [sign].
  destruct (str_eqb (r_sign r) (lit "-")); reflexivity.
Qed.

(** C1, the failing input.  The string 1e-1000...0 (four hundred zeros) is
    accepted by the grammar and denotes a rational number, but no string
    is returned for it: the function throws (the RangeError of
    ["0".repeat(Infinity)], the exponent being minus infinity as a
    number). *)
Theorem C1_literal_without_result :
  literal_value tiny_literal <> None
  /\ forall out, Num2FracStr (VString tiny_literal) <> Return out.
Proof.
  split.
  - assert (E : scan tiny_literal
                = Some (Raw [] (lit "1") None (Some (lit "-1" ++ zeros 400))))
      by (vm_compute; reflexivity).
    unfold literal_value. rewrite E. discriminate.
  - assert (E : Num2FracStr (VString tiny_literal) = Throw RangeError)
      by (vm_compute; reflexivity).
    intros out. rewrite E. discriminate.
Qed.

(** ** C3: when the function throws *)

(** A string that is not a literal makes the function throw the error that
    carries the string. *)
Theorem invalid_string_raises s :
  parse s = None ->
  Num2FracStr (VString s)
  = Throw (Error (lit "Invalid Number: " ++ [quote] ++ s ++ [quote])).
Proof. intros H. unfold Num2FracStr. cbn [String_]. now rewrite H. Qed.

(** The errors of the function on a string: the one above for a string that
    is not a literal, and no other error than a RangeError for a literal. *)
Theorem string_errors s e :
  Num2FracStr (VString s) = Throw e ->
  (parse s = None /\ e = invalid_number s)
  \/ (parse s <> None /\ e = RangeError).
Proof.
  unfold Num2FracStr. cbn [String_ typeof_number].
  destruct (parse s) as [p|] eqn:P.
  - intros H. right. split; [discriminate|].
    unfold reconstruct in H.
    destruct (truthy_num (exponent p)).
    + destruct (0 <? _)%nat; [|discriminate].
      destruct (length_le_num _ _); [discriminate|].
      destruct (num_pos _); [discriminate|].
      destruct (num_neg _) as [| neg | z]; cbn in H; try discriminate.
      * now injection H as <-.
      * destruct (z <? 0); cbn in H; [now injection H as <- | discriminate].
    + destruct (truthy_str (mantissa_frac p)); [discriminate|].
      destruct (truthy_str (mantissa_int p)); discriminate.
  - intros H. left. split; [reflexivity|]. now injection H as <-.
Qed.

(** C3, the failing input.  The string 1e-1000...0 (four hundred zeros) is
    a literal of the grammar, and the function throws on it: [Number] turns
    the exponent into minus infinity and ["0".repeat(Infinity)] throws a
    RangeError, which is not the error for an invalid number. *)
Theorem C3_literal_that_raises :
  parse tiny_literal <> None
  /\ Num2FracStr (VString tiny_literal) = Throw RangeError
  /\ Throw RangeError <> @Throw str (invalid_number tiny_literal).
Proof.
  split; [|split].
  - assert (E : parse tiny_literal
                = Some (Parsed [] (lit "1") [] (NInf true)))
      by (vm_compute; reflexivity).
    rewrite E. discriminate.
  - vm_compute. reflexivity.
  - discriminate.
Qed.


(** * Further properties of the function

    The properties below are read off the source alone.  They are numbered
    X1, X2, ... *)

(** ** The pattern of [match] *)

(** The outcome for a string that the pattern accepts. *)
Lemma outcome_of_scan s r :
  scan s = Some r ->
  Num2FracStr (VString s)
  = (rv <- reconstruct (parsed_of_raw r) ;;
     Return (finish (sign (parsed_of_raw r)) rv)).
Proof.
  intros H. unfold Num2FracStr. cbn [String_].
  rewrite parse_scan, H. reflexivity.
Qed.

Lemma exec_none_scan s : exec re_number s = None <-> scan s = None.
Proof.
  rewrite exec_re_number. destruct (scan s); cbn [option_map]; split;
    intros H; try discriminate; reflexivity.
Qed.

(** X1. The pattern of [match] accepts exactly the texts made of an
    optional sign, digits (possibly none), optionally a point with digits
    (possibly none), and optionally an exponent (e or E, an optional sign,
    at least one digit); a match always starts at index 0 and covers the
    whole text. *)
Theorem X1_pattern_accepts_the_grammar (s : str) :
  (exec re_number s <> None
   <-> exists sg I o x,
         s = sg ++ I ++ frac_text o ++ x
         /\ (sg = [] \/ sg = lit "+" \/ sg = lit "-")
         /\ forallb is_digit I = true
         /\ forallb is_digit (match o with Some F => F | None => [] end) = true
         /\ match x with
            | [] => True
            | c :: e => is_exp c = true /\ is_signed_digits e = true
            end)
  /\ (forall m, exec re_number s = Some m -> index m = 0%nat /\ matched m = s).
Proof.
  split; [split|].
  - intros H. destruct (scan s) as [r|] eqn:Hscan.
    + destruct (scan_inv _ _ Hscan) as (Hs & HI & HF & x & Hx & E).
      exists (r_sign r), (r_int r), (r_frac r), x.
      split; [exact E|]. split; [exact Hs|]. split; [exact HI|].
      split; [exact HF|].
      unfold exp_text in Hx. destruct (r_exp r) as [e|].
      * destruct Hx as (c & -> & Hc & He). split; assumption.
      * subst x. exact I.
    + exfalso. apply H. apply exec_none_scan. exact Hscan.
  - intros (sg & I & o & x & -> & Hs & HI & HF & Hx).
    rewrite exec_re_number, (scan_build sg I o x Hs HI HF Hx).
    discriminate.
  - intros m. rewrite exec_re_number.
    destruct (scan s); cbn [option_map]; [|discriminate].
    intros H. injection H as <-. split; reflexivity.
Qed.

(** X2. What the four groups of the pattern capture: the sign as written
    (empty when there is none); the digits before the point without their
    leading zeros; the digits after the point without their trailing zeros,
    undefined when the text has no point; the text of the exponent after
    its letter, undefined when there is no exponent. *)
Theorem X2_pattern_captures (sg I : str) (o : option str) (x : str) :
  (sg = [] \/ sg = lit "+" \/ sg = lit "-") ->
  forallb is_digit I = true ->
  forallb is_digit (match o with Some F => F | None => [] end) = true ->
  match x with
  | [] => True
  | c :: e => is_exp c = true /\ is_signed_digits e = true
  end ->
  exists m,
    exec re_number (sg ++ I ++ frac_text o ++ x) = Some m
    /\ group m 1 = Some sg
    /\ group m 2 = Some (drop_while is_zero I)
    /\ group m 3 = option_map strip_trailing o
    /\ group m 4 = match x with [] => None | _ :: e => Some e end.
Proof.
  intros Hs HI HF Hx.
  rewrite exec_re_number, (scan_build sg I o x Hs HI HF Hx).
  cbn [option_map]. eexists. split; [reflexivity|].
  unfold group, raw_captures.
  cbn [captures r_sign r_int r_frac r_exp].
  destruct o, x; repeat split; reflexivity.
Qed.

Lemma X2_witness :
  exists m,
    exec re_number (lit "-" ++ lit "007" ++ frac_text (Some (lit "50"))
                      ++ lit "E+3") = Some m
    /\ group m 1 = Some (lit "-")
    /\ group m 2 = Some (lit "7")
    /\ group m 3 = Some (lit "5")
    /\ group m 4 = Some (lit "+3").
Proof.
  apply (X2_pattern_captures (lit "-") (lit "007") (Some (lit "50"))
           (lit "E+3")).
  - right. right. reflexivity.
  - reflexivity.
  - reflexivity.
  - split; reflexivity.
Defined.

(** ** The errors *)

(** X3. For a string, the error with the message [Invalid Number: "..."],
    which quotes the string, is thrown exactly when the pattern of [match]
    does not accept the string. *)
Theorem X3_invalid_number_error (s : str) :
  Num2FracStr (VString s)
  = Throw (Error (lit "Invalid Number: " ++ [quote] ++ s ++ [quote]))
  <-> exec re_number s = None.
Proof.
  split.
  - intros H. destruct (string_errors _ _ H) as [[P _] | [_ E]].
    + unfold parse in P. destruct (exec re_number s); [discriminate|].
      reflexivity.
    + discriminate.
  - intros H. apply invalid_string_raises. unfold parse. now rewrite H.
Qed.

(** A double for every integer from -2^1024 down is minus infinity. *)
Lemma round_double_minus_infinity z :
  z <= - 2 ^ 1024 -> round_double z = NInf true.
Proof.
  intros Hz.
  assert (P53 : 2 ^ 53 < 2 ^ 1024)
    by (apply Z.pow_lt_mono_r; lia).
  unfold round_double.
  set (a := Z.abs z).
  assert (Ha : 2 ^ 1024 <= a) by (unfold a; lia).
  destruct (Z.ltb_spec a (2 ^ 53)) as [L | _]; [lia|].
  set (e := Z.log2 a - 52).
  assert (Hlog : 1024 <= Z.log2 a).
  { change 1024 with (Z.log2 (2 ^ 1024)) at 1.
    - apply Z.log2_le_mono. exact Ha. }
  assert (He : 0 <= e) by (unfold e; lia).
  set (q := Z.shiftr a e).
  assert (Hq : 2 ^ 52 <= q).
  { unfold q. rewrite Z.shiftr_div_pow2 by exact He.
    apply Z.div_le_lower_bound; [apply Z.pow_pos_nonneg; lia|].
    rewrite <- Z.pow_add_r by lia.
    replace (e + 52) with (Z.log2 a) by (unfold e; lia).
    apply Z.log2_spec. lia. }
  match goal with
  | |- context [Z.shiftl ?t e] => set (q2 := t)
  end.
  assert (Hq2 : q <= q2).
  { unfold q2.
    repeat match goal with
           | |- context [if ?b then _ else _] => destruct b
           end; lia. }
  assert (Hv : 2 ^ 1024 <= Z.shiftl q2 e).
  { rewrite Z.shiftl_mul_pow2 by exact He.
    assert (Pe : 0 < 2 ^ e) by (apply Z.pow_pos_nonneg; lia).
    assert (2 ^ 1024 <= 2 ^ 52 * 2 ^ e).
    { rewrite <- Z.pow_add_r by lia. apply Z.pow_le_mono_r; [lia|].
      unfold e. lia. }
    nia. }
  destruct (Z.leb_spec (2 ^ 1024) (Z.shiftl q2 e)) as [_ | L]; [|lia].
  destruct (Z.ltb_spec z 0) as [_ | L]; [reflexivity|lia].
Qed.

(** X4. A literal with a nonzero digit in its mantissa and an exponent of
    -2^1024 or below makes the function throw a RangeError: the exponent
    becomes minus infinity as a number, and the count of the zeros to
    [repeat] becomes infinite. *)
Theorem X4_range_error (s : str) (r : raw) :
  scan s = Some r ->
  Z_of_digits (r_int r ++ raw_frac r) <> 0 ->
  raw_exponent r <= - 2 ^ 1024 ->
  Num2FracStr (VString s) = Throw RangeError.
Proof.
  intros Hscan Hm He.
  rewrite (outcome_of_scan _ _ Hscan).
  assert (M : mantissa (parsed_of_raw r) <> []).
  { intros M. apply Hm. apply (mantissa_empty_iff _ _ Hscan). exact M. }
  assert (E : exponent (parsed_of_raw r) = NInf true).
  { rewrite (exponent_of_raw _ _ Hscan).
    unfold raw_exponent in *. destruct (r_exp r) as [e|].
    - apply round_double_minus_infinity. exact He.
    - exfalso. assert (0 < 2 ^ 1024) by (apply Z.pow_pos_nonneg; lia). lia. }
  unfold reconstruct. rewrite E. cbn [truthy_num].
  unfold mantissa in M.
  destruct (mantissa_int (parsed_of_raw r) ++ mantissa_frac (parsed_of_raw r))
    as [|c t] eqn:Em; [congruence|].
  reflexivity.
Qed.

Lemma X4_witness :
  Num2FracStr (VString (lit "-02.50E-2" ++ zeros 320)) = Throw RangeError.
Proof.
  apply (X4_range_error (lit "-02.50E-2" ++ zeros 320)
           (Raw (lit "-") (lit "02") (Some (lit "50"))
              (Some (lit "-2" ++ zeros 320)))).
  - vm_compute. reflexivity.
  - vm_compute. discriminate.
  - vm_compute. discriminate.
Defined.

(** ** What the result does not depend on *)

Lemma scan_int_sign sg sg' s :
  scan_int sg' s
  = option_map (fun r => Raw sg' (r_int r) (r_frac r) (r_exp r))
               (scan_int sg s).
Proof.
  unfold scan_int, scan_frac, scan_exp.
  repeat match goal with
         | |- context [match ?x with _ => _ end] => destruct x
         end; reflexivity.
Qed.

Lemma scan_unsigned s :
  match s with c :: _ => is_sign c = false | [] => True end ->
  scan s = scan_int [] s.
Proof.
  destruct s as [|c t]; [reflexivity|]. cbn [scan]. now intros ->.
Qed.

(** The constants of a text and of the same text behind a sign. *)
Lemma scan_signed c s r :
  is_sign c = true ->
  match s with c' :: _ => is_sign c' = false | [] => True end ->
  scan s = Some r ->
  scan (c :: s) = Some (Raw [c] (r_int r) (r_frac r) (r_exp r)).
Proof.
  intros Hc Hs H. rewrite (scan_unsigned _ Hs) in H.
  cbn [scan]. rewrite Hc, (scan_int_sign [] [c] s), H. reflexivity.
Qed.

Lemma scan_unsigned_sign s r :
  match s with c :: _ => is_sign c = false | [] => True end ->
  scan s = Some r -> r_sign r = [].
Proof.
  intros Hs H. rewrite (scan_unsigned _ Hs) in H.
  unfold scan_int, scan_frac, scan_exp in H.
  repeat match type of H with
         | context [match ?x with _ => _ end] => destruct x
         end; try discriminate; injection H as <-; reflexivity.
Qed.

(** X5. A plus sign in front of a literal changes nothing: the result is
    that of the literal without it. *)
Theorem X5_plus_sign_is_dropped (s : str) :
  match s with c :: _ => is_sign c = false | [] => True end ->
  exec re_number s <> None ->
  Num2FracStr (VString ("+"%char :: s)) = Num2FracStr (VString s).
Proof.
  intros Hs H. destruct (scan s) as [r|] eqn:Hscan.
  - rewrite (outcome_of_scan _ _ Hscan).
    rewrite (outcome_of_scan _ _ (scan_signed "+" s r eq_refl Hs Hscan)).
    pose proof (scan_unsigned_sign _ _ Hs Hscan) as Sg.
    destruct r as [sg ri rf re]. cbn [r_sign] in Sg. subst sg.
    reflexivity.
  - exfalso. apply H. apply exec_none_scan. exact Hscan.
Qed.

Lemma X5_witness :
  Num2FracStr (VString ("+"%char :: lit "1.50e2"))
  = Num2FracStr (VString (lit "1.50e2")).
Proof.
  apply (X5_plus_sign_is_dropped (lit "1.50e2")).
  - reflexivity.
  - vm_compute. discriminate.
Defined.

Lemma canonical_unsigned_not_zero U : canonical_unsigned U -> U <> lit "0".
Proof.
  intros [[_ (c & t & -> & Hc)] | (I & F & -> & HI & HF)] E.
  - injection E as -> _. discriminate.
  - destruct HI as [-> | [_ (c & t & -> & Hc)]].
    + discriminate.
    + injection E as -> E. destruct t; discriminate.
Qed.

(** X6. A minus sign in front of a literal puts a minus sign in front of
    the result, except that the result 0 stays 0. *)
Theorem X6_minus_sign (s out : str) :
  match s with c :: _ => is_sign c = false | [] => True end ->
  Num2FracStr (VString s) = Return out ->
  Num2FracStr (VString ("-"%char :: s))
  = Return (if str_eqb out (lit "0") then lit "0" else "-"%char :: out).
Proof.
  intros Hs H. destruct (scan s) as [r|] eqn:Hscan.
  - pose proof (parsed_of_raw_wf _ _ Hscan) as W0.
    rewrite (outcome_of_scan _ _ Hscan) in H.
    rewrite (outcome_of_scan _ _ (scan_signed "-" s r eq_refl Hs Hscan)).
    pose proof (scan_unsigned_sign _ _ Hs Hscan) as Sg.
    destruct r as [sg ri rf re]. cbn [r_sign r_int r_frac r_exp] in *.
    subst sg.
    set (p := parsed_of_raw (Raw [] ri rf re)) in *.
    set (p' := parsed_of_raw (Raw ["-"%char] ri rf re)) in *.
    assert (R : reconstruct p' = reconstruct p) by reflexivity.
    rewrite R.
    destruct (reconstruct p) as [rv|e] eqn:Rp; cbn [bind] in *;
      [|discriminate].
    apply Return_inj in H. subst out.
    destruct (list_eq_dec ascii_dec (mantissa p) []) as [M | M].
    + rewrite (reconstruct_empty _ M) in Rp. apply Return_inj in Rp.
      subst rv. reflexivity.
    + destruct (finish_nonzero p rv W0 Rp M) as (U & EU & CU).
      change (sign p) with (@nil ascii) in *. cbn [app] in EU.
      change (sign p') with (lit "-").
      rewrite EU. unfold str_eqb.
      destruct (list_eq_dec ascii_dec U (lit "0")) as [Z0 | _].
      * exfalso. exact (canonical_unsigned_not_zero _ CU Z0).
      * unfold finish in *. destruct (truthy_str rv).
        -- cbn [app] in EU. rewrite EU. reflexivity.
        -- exfalso. apply (canonical_unsigned_not_zero _ CU).
           symmetry. exact EU.
  - exfalso. unfold Num2FracStr in H. cbn [String_] in H.
    rewrite parse_scan, Hscan in H. discriminate.
Qed.

Lemma X6_witness :
  Num2FracStr (VString ("-"%char :: lit "0.5e1")) = Return (lit "-5")
  /\ Num2FracStr (VString ("-"%char :: lit "0.0")) = Return (lit "0").
Proof.
  split.
  - apply (X6_minus_sign (lit "0.5e1") (lit "5")).
    + reflexivity.
    + vm_compute. reflexivity.
  - apply (X6_minus_sign (lit "0.0") (lit "0")).
    + reflexivity.
    + vm_compute. reflexivity.
Defined.

(** X7. Zeros in front of the digits, and zeros behind the digits that
    follow the point, do not change the result; neither does a point with
    nothing but zeros behind it. *)
Theorem X7_padding_zeros (sg I : str) (o : option str) (x : str) (j k : nat) :
  (sg = [] \/ sg = lit "+" \/ sg = lit "-") ->
  forallb is_digit I = true ->
  forallb is_digit (match o with Some F => F | None => [] end) = true ->
  match x with
  | [] => True
  | c :: e => is_exp c = true /\ is_signed_digits e = true
  end ->
  Num2FracStr
    (VString (sg ++ (zeros j ++ I)
                ++ frac_text (Some (match o with Some F => F | None => [] end
                                    ++ zeros k))
                ++ x))
  = Num2FracStr (VString (sg ++ I ++ frac_text o ++ x)).
Proof.
  intros Hs HI HF Hx.
  rewrite (outcome_of_scan _ _ (scan_build sg I o x Hs HI HF Hx)).
  assert (HI' : forallb is_digit (zeros j ++ I) = true).
  { rewrite forallb_app, zeros_digits, HI. reflexivity. }
  assert (HF' : forallb is_digit
                  (match Some (match o with Some F => F | None => [] end
                               ++ zeros k) with
                   | Some F => F
                   | None => []
                   end) = true).
  { rewrite forallb_app, zeros_digits, HF. reflexivity. }
  rewrite (outcome_of_scan _ _
             (scan_build sg (zeros j ++ I)
                (Some (match o with Some F => F | None => [] end ++ zeros k))
                x Hs HI' HF' Hx)).
  assert (E : parsed_of_raw
                (Raw sg (zeros j ++ I)
                   (Some (match o with Some F => F | None => [] end
                          ++ zeros k))
                   (match x with [] => None | _ :: e => Some e end))
              = parsed_of_raw
                  (Raw sg I o (match x with [] => None | _ :: e => Some e end))).
  { unfold parsed_of_raw, raw_frac. cbn [r_sign r_int r_frac r_exp].
    rewrite (drop_while_app_all is_zero (zeros j) I (forallb_zeros j)).
    rewrite strip_trailing_app_zeros. reflexivity. }
  rewrite E. reflexivity.
Qed.

Lemma X7_witness :
  Num2FracStr (VString (lit "-" ++ (zeros 2 ++ lit "7")
                          ++ frac_text (Some ([] ++ zeros 3)) ++ lit "e1"))
  = Num2FracStr (VString (lit "-" ++ lit "7" ++ frac_text None ++ lit "e1")).
Proof.
  apply (X7_padding_zeros (lit "-") (lit "7") None (lit "e1") 2 3).
  - right. right. reflexivity.
  - reflexivity.
  - reflexivity.
  - split; reflexivity.
Defined.

(** X8. Of the exponent, only the integer it writes counts: the letter may
    be e or E, the integer may have a plus sign and leading zeros; and an
    exponent that writes zero gives the result of the text without
    exponent. *)
Theorem X8_exponent_spelling (sg I : str) (o : option str) (c : ascii)
  (e : str) :
  (sg = [] \/ sg = lit "+" \/ sg = lit "-") ->
  forallb is_digit I = true ->
  forallb is_digit (match o with Some F => F | None => [] end) = true ->
  is_exp c = true -> is_signed_digits e = true ->
  (forall c' e',
      is_exp c' = true -> is_signed_digits e' = true ->
      Z_of_signed e' = Z_of_signed e ->
      Num2FracStr (VString (sg ++ I ++ frac_text o ++ c' :: e'))
      = Num2FracStr (VString (sg ++ I ++ frac_text o ++ c :: e)))
  /\ (Z_of_signed e = 0 ->
      Num2FracStr (VString (sg ++ I ++ frac_text o ++ c :: e))
      = Num2FracStr (VString (sg ++ I ++ frac_text o ++ []))).
Proof.
  intros Hs HI HF Hc He.
  rewrite (outcome_of_scan _ _
             (scan_build sg I o (c :: e) Hs HI HF (conj Hc He))).
  split.
  - intros c' e' Hc' He' Ev.
    rewrite (outcome_of_scan _ _
               (scan_build sg I o (c' :: e') Hs HI HF (conj Hc' He'))).
    unfold parsed_of_raw. cbn [r_sign r_int r_frac r_exp].
    rewrite (Number_signed _ He), (Number_signed _ He'), Ev. reflexivity.
  - intros E0.
    rewrite (outcome_of_scan _ _ (scan_build sg I o [] Hs HI HF Logic.I)).
    unfold parsed_of_raw. cbn [r_sign r_int r_frac r_exp].
    rewrite (Number_signed _ He), E0.
    reflexivity.
Qed.

Lemma X8_witness :
  Num2FracStr (VString ([] ++ lit "12" ++ frac_text (Some (lit "5"))
                          ++ "E"%char :: lit "+003"))
  = Num2FracStr (VString ([] ++ lit "12" ++ frac_text (Some (lit "5"))
                            ++ "e"%char :: lit "3")).
Proof.
  apply (X8_exponent_spelling [] (lit "12") (Some (lit "5")) "e" (lit "3")).
  - left. reflexivity.
  - reflexivity.
  - reflexivity.
  - reflexivity.
  - reflexivity.
  - reflexivity.
  - reflexivity.
  - reflexivity.
Defined.

(** X9. A string of digits alone, the empty string included, is returned
    without its leading zeros, and as 0 when nothing is left. *)
Theorem X9_digit_strings (ds : str) :
  forallb is_digit ds = true ->
  Num2FracStr (VString ds)
  = Return (match drop_while is_zero ds with
            | [] => lit "0"
            | c :: t => c :: t
            end).
Proof.
  intros Hd.
  pose proof (scan_build [] ds None [] (or_introl eq_refl) Hd eq_refl Logic.I)
    as Hscan.
  cbn [frac_text app] in Hscan. rewrite app_nil_r in Hscan.
  rewrite (outcome_of_scan _ _ Hscan).
  unfold parsed_of_raw, raw_frac, reconstruct.
  cbn [r_sign r_int r_frac r_exp exponent mantissa_int mantissa_frac
       Number_ truthy_num strip_trailing truthy_str].
  destruct (drop_zeros_positive ds Hd) as [E | P].
  - rewrite E. reflexivity.
  - destruct (drop_while is_zero ds) as [|c t] eqn:E.
    + reflexivity.
    + cbn [truthy_str bind finish str_eqb].
      unfold finish. cbn [truthy_str].
      rewrite normalize_zeros_digits by apply P.
      rewrite (lead_positive _ P). reflexivity.
Qed.

Lemma X9_witness :
  Num2FracStr (VString (lit "00120")) = Return (lit "120")
  /\ Num2FracStr (VString []) = Return (lit "0").
Proof.
  split.
  - apply (X9_digit_strings (lit "00120")). reflexivity.
  - apply (X9_digit_strings []). reflexivity.
Defined.

(** ** Numbers *)

Lemma strip_trailing_suffix a b :
  strip_trailing (a ++ b) = a ++ b -> strip_trailing b = b.
Proof.
  intros H. destruct (list_eq_dec ascii_dec b []) as [-> | Hb];
    [reflexivity|].
  destruct (exists_last Hb) as (b' & c & ->).
  rewrite app_assoc in H.
  apply strip_trailing_fixed.
  exact (strip_trailing_last _ _ _ H).
Qed.

Lemma finish_canonical_unsigned sg U :
  canonical_unsigned U -> finish sg U = sg ++ U.
Proof.
  intros C. unfold finish.
  destruct (canonical_unsigned_head _ C) as (c & t & E & _).
  rewrite E at 1. cbn [truthy_str]. f_equal.
  destruct C as [P | (I & F & -> & CI & DF & HF & SF)].
  - rewrite (normalize_zeros_digits _ (proj1 P)). apply lead_positive, P.
  - rewrite (normalize_zeros_point _ _ (canonical_int_digits _ CI) DF).
    unfold strip_fraction. rewrite SF, (lead_canonical_int _ CI).
    destruct F; [congruence | reflexivity].
Qed.

Lemma fixed_notation_unsigned s n :
  positive_digits s -> strip_trailing s = s ->
  canonical_unsigned (fixed_notation s n).
Proof.
  intros P St. pose proof P as [Ds (c & t & Hs & NZ)].
  unfold fixed_notation.
  destruct (Z.leb_spec (Z.of_nat (length s)) n) as [K | K].
  - left. split.
    + now rewrite forallb_app, Ds, zeros_digits.
    + exists c, (t ++ zeros (Z.to_nat (n - Z.of_nat (length s)))).
      rewrite Hs. split; [reflexivity | exact NZ].
  - destruct (Z.ltb_spec 0 n) as [N | N].
    + right. exists (firstn (Z.to_nat n) s), (skipn (Z.to_nat n) s).
      split; [reflexivity|]. split.
      * right. split; [now apply forallb_firstn|].
        exists c, (firstn (Nat.pred (Z.to_nat n)) t). rewrite Hs.
        split; [|exact NZ].
        destruct (Z.to_nat n) as [|m] eqn:E; [lia|]. reflexivity.
      * split; [now apply forallb_skipn|]. split.
        -- intros E. apply (f_equal (@length ascii)) in E.
           rewrite length_skipn in E. cbn [length] in E. lia.
        -- apply (strip_trailing_suffix (firstn (Z.to_nat n) s)).
           rewrite firstn_skipn. exact St.
    + right. exists (lit "0"), (zeros (Z.to_nat (- n)) ++ s).
      split; [reflexivity|]. split; [now left|].
      split; [now rewrite forallb_app, Ds, zeros_digits|]. split.
      * rewrite Hs. intros E. apply app_eq_nil in E as [_ E]. discriminate.
      * assert (Hne : s <> []) by (rewrite Hs; discriminate).
        destruct (exists_last Hne) as (s' & d & E).
        rewrite E in St |- *. rewrite app_assoc.
        apply strip_trailing_fixed.
        exact (strip_trailing_last _ _ _ St).
Qed.

Lemma sign_text_of_bool (neg : bool) :
  sign_text (if neg then lit "-" else []).
Proof. destruct neg; [now right | now left]. Qed.

Lemma sign_flag_of_bool (neg : bool) :
  str_eqb (if neg then lit "-" else []) (lit "-") = neg.
Proof. destruct neg; reflexivity. Qed.

(** The result for a finite number that is not zero. *)
Lemma finite_number_result neg s n :
  wf_number (Finite neg s n) ->
  Num2FracStr (VNumber (Finite neg s n))
  = Return ((if neg then lit "-" else []) ++ fixed_notation s n).
Proof.
  intros W. pose proof W as (P & St & Hlen & Hn).
  pose proof P as [Ds (c0 & t0 & Hs & NZ0)].
  pose proof (fixed_notation_unsigned s n P St) as CU.
  set (sg := if neg then lit "-" else []).
  assert (Hsg : sign_text sg) by apply sign_text_of_bool.
  destruct ((-5 <=? n) && (n <=? 21)) eqn:Range.
  - (* the text of the number is in fixed notation already *)
    assert (T : Number_toString (Finite neg s n) = sg ++ fixed_notation s n).
    { cbn [Number_toString]. rewrite Range. reflexivity. }
    pose proof (canonical_fixed _ (canonical_of_unsigned _ _ Hsg CU)) as F.
    unfold Num2FracStr in *. cbn [String_] in *. rewrite T.
    destruct (parse (sg ++ fixed_notation s n)); [exact F | discriminate].
  - (* the text of the number has an exponent *)
    assert (He : n - 1 < -5 \/ 21 <= n - 1).
    { apply andb_false_iff in Range as [R | R].
      - apply Z.leb_gt in R. lia.
      - apply Z.leb_gt in R. lia. }
    set (c := if n - 1 <? 0 then lit "-" else lit "+").
    destruct (decimal_spec (Z.abs (n - 1)) (Z.abs_nonneg _)) as (Dd & Hd & Vd).
    assert (Hx : is_exp "e" = true
                 /\ is_signed_digits (c ++ decimal (Z.abs (n - 1))) = true).
    { split; [reflexivity|]. unfold c.
      destruct (n - 1 <? 0); cbn [lit list_ascii_of_string app is_signed_digits];
        (replace (is_sign "-") with true by reflexivity);
        (replace (is_sign "+") with true by reflexivity);
        rewrite Dd; destruct (decimal (Z.abs (n - 1))); try congruence;
        reflexivity. }
    assert (Hv : Z_of_signed (c ++ decimal (Z.abs (n - 1))) = n - 1).
    { unfold c. destruct (Z.ltb_spec (n - 1) 0);
        cbn [lit list_ascii_of_string app];
        rewrite ?Z_of_signed_minus, ?Z_of_signed_plus, Vd; lia. }
    assert (Hsg' : sg = [] \/ sg = lit "+" \/ sg = lit "-")
      by (destruct Hsg; auto).
    assert (Hscan : exists o,
               scan (Number_toString (Finite neg s n))
               = Some (Raw sg [c0] o (Some (c ++ decimal (Z.abs (n - 1)))))
               /\ match o with Some F => F | None => [] end = t0).
    { cbn [Number_toString]. rewrite Range. fold sg. fold c.
      rewrite Hs. destruct t0 as [|d1 t1].
      - exists None. split; [|reflexivity].
        apply (scan_build sg [c0] None
                 ("e"%char :: c ++ decimal (Z.abs (n - 1))) Hsg');
          [|reflexivity|exact Hx].
        rewrite Hs in Ds. exact Ds.
      - exists (Some (d1 :: t1)). split; [|reflexivity].
        apply (scan_build sg [c0] (Some (d1 :: t1))
                 ("e"%char :: c ++ decimal (Z.abs (n - 1))) Hsg');
          [| |exact Hx].
        + rewrite Hs in Ds. cbn [forallb] in Ds |- *.
          apply andb_true_iff in Ds as [-> _]. reflexivity.
        + rewrite Hs in Ds. cbn [forallb] in Ds.
          apply andb_true_iff in Ds as [_ Ds]. exact Ds. }
    destruct Hscan as (o & Hscan & Ho).
    unfold Num2FracStr. cbn [String_]. rewrite parse_scan, Hscan.
    cbn [option_map].
    set (p := parsed_of_raw _).
    assert (Mi : mantissa_int p = [c0]).
    { unfold p, parsed_of_raw. cbn [mantissa_int r_int drop_while].
      now rewrite (nonzero_not_zero _ NZ0). }
    assert (Mf : mantissa_frac p = t0).
    { unfold p, parsed_of_raw, raw_frac. cbn [mantissa_frac r_frac].
      rewrite Ho. apply (strip_trailing_suffix [c0]).
      cbn [app]. rewrite <- Hs. exact St. }
    assert (M : mantissa p = s) by (unfold mantissa; now rewrite Mi, Mf, Hs).
    assert (E : exponent p = NFin (n - 1)).
    { unfold p, parsed_of_raw. cbn [exponent r_exp].
      rewrite (Number_signed _ (proj2 Hx)), Hv.
      apply round_double_exact.
      assert (2 ^ 10 < 2 ^ 53) by (apply Z.pow_lt_mono_r; lia).
      change (2 ^ 10) with 1024 in *. lia. }
    assert (Sg : sign p = sg).
    { unfold p, parsed_of_raw. cbn [sign r_sign].
      apply sign_of_sign_text. exact Hsg. }
    rewrite (reconstruct_exact p (n - 1) E).
    + cbn [bind]. rewrite Sg.
      assert (U : spec_unsigned p (n - 1) = fixed_notation s n).
      { unfold spec_unsigned, splitPoint, fixed_notation.
        rewrite M, Mi. cbn [length].
        replace (Z.of_nat 1 + (n - 1)) with n by lia. reflexivity. }
      rewrite U, (finish_canonical_unsigned sg _ CU). reflexivity.
    + lia.
    + rewrite M, Hs. discriminate.
    + rewrite M.
      assert (2 ^ 10 < 2 ^ 53) by (apply Z.pow_lt_mono_r; lia).
      change (2 ^ 10) with 1024 in *. lia.
Qed.

(** X10. What a number is turned into: NaN and the infinities into their
    names, zero of either sign into 0, and any other number into its digits
    in fixed notation, with the decimal point where the number has it, for
    every magnitude.  So a number never makes the function throw, and a
    number that JavaScript itself writes without an exponent comes back as
    JavaScript writes it. *)
Theorem X10_numbers_in_fixed_notation (x : number) :
  wf_number x ->
  Num2FracStr (VNumber x) = Return (Number_fixed x)
  /\ (match x with Finite _ _ n => -5 <= n <= 21 | _ => True end ->
      Number_fixed x = Number_toString x).
Proof.
  intros W. split.
  - destruct x as [| neg | neg | neg s n].
    + reflexivity.
    + destruct neg; reflexivity.
    + reflexivity.
    + apply finite_number_result. exact W.
  - destruct x as [| neg | neg | neg s n]; try reflexivity.
    intros [L U]. cbn [Number_fixed Number_toString].
    apply Z.leb_le in L, U. rewrite L, U. reflexivity.
Qed.

Lemma X10_witness :
  Num2FracStr (VNumber (Finite true (lit "12145") (-6)))
  = Return (lit "-0.00000012145")
  /\ Num2FracStr (VNumber (Finite false (lit "5") 23))
     = Return (lit "50000000000000000000000").
Proof.
  split.
  - apply (X10_numbers_in_fixed_notation (Finite true (lit "12145") (-6))).
    split; [split; [reflexivity|]|].
    + exists "1"%char, (lit "2145"). split; reflexivity.
    + split; [reflexivity|]. split; [cbn; lia | lia].
  - apply (X10_numbers_in_fixed_notation (Finite false (lit "5") 23)).
    split; [split; [reflexivity|]|].
    + exists "5"%char, []. split; reflexivity.
    + split; [reflexivity|]. split; [cbn; lia | lia].
Defined.

(** X11. The result for a finite number denotes the number: for the digits
    s and the position n of the decimal point, the text returned is a
    literal whose exact value is s * 10^(n - length(s)), negated when the
    number is negative. *)
Theorem X11_number_value (neg : bool) (s : str) (n : Z) :
  wf_number (Finite neg s n) ->
  exists out q,
    Num2FracStr (VNumber (Finite neg s n)) = Return out
    /\ literal_value out = Some q
    /\ (q == decimal_Q neg (Z_of_digits s) (n - Z.of_nat (length s)))%Q.
Proof.
  intros W. rewrite (finite_number_result neg s n W).
  destruct W as (P & St & _).
  set (sg := if neg then lit "-" else []).
  set (p := Parsed sg s [] NNaN).
  assert (Wp : wf_parsed p).
  { split; [apply sign_text_of_bool|]. split; [right; exact P|].
    split; reflexivity. }
  assert (M : mantissa p = s) by apply app_nil_r.
  assert (Mne : mantissa p <> []).
  { rewrite M. destruct P as [_ (c & t & -> & _)]. discriminate. }
  destruct (spec_unsigned_value p (n - Z.of_nat (length s)) Wp Mne)
    as (r & Hr & V).
  assert (U : spec_unsigned p (n - Z.of_nat (length s)) = fixed_notation s n).
  { unfold spec_unsigned, splitPoint, fixed_notation. rewrite M.
    cbn [mantissa_int p].
    replace (Z.of_nat (length s) + (n - Z.of_nat (length s))) with n by lia.
    reflexivity. }
  rewrite U in Hr.
  pose proof (fixed_notation_unsigned s n P St) as CU.
  pose proof (finish_canonical_unsigned [] _ CU) as Fn.
  unfold finish in Fn.
  destruct (canonical_unsigned_head _ CU) as (c & t & E & _).
  rewrite E in Fn at 1. cbn [truthy_str app] in Fn. rewrite Fn in Hr.
  exists (sg ++ fixed_notation s n), (raw_value r).
  split; [reflexivity|]. split.
  - unfold literal_value. change (sign p) with sg in Hr. now rewrite Hr.
  - rewrite V. change (sign p) with sg. unfold sg.
    rewrite sign_flag_of_bool. cbn [mantissa_frac p length].
    rewrite M. apply decimal_Q_eq. lia.
Qed.

Lemma X11_witness :
  exists out q,
    Num2FracStr (VNumber (Finite false (lit "12145") (-6))) = Return out
    /\ literal_value out = Some q
    /\ (q == decimal_Q false (Z_of_digits (lit "12145"))
                (-6 - Z.of_nat (length (lit "12145"))))%Q.
Proof.
  apply (X11_number_value false (lit "12145") (-6)).
  split; [split; [reflexivity|]|].
  - exists "1"%char, (lit "2145"). split; reflexivity.
  - split; [reflexivity|]. split; [cbn; lia | lia].
Defined.

(** ** One result for every value *)

Lemma digit_value_inj c d : digit_value c = digit_value d -> c = d.
Proof.
  unfold digit_value. intros H.
  rewrite <- (ascii_nat_embedding c), <- (ascii_nat_embedding d).
  f_equal. lia.
Qed.

Lemma nonzero_value c : is_nonzero c = true -> 1 <= digit_value c <= 9.
Proof.
  intros H. pose proof (digit_value_range _ (nonzero_is_digit _ H)).
  destruct (Z.eq_dec (digit_value c) 0) as [E | E]; [|lia].
  apply digit_value_zero in E. rewrite (nonzero_not_zero _ H) in E.
  discriminate.
Qed.

Lemma Z_of_digits_bound ds :
  forallb is_digit ds = true -> 0 <= Z_of_digits ds < 10 ^ Z.of_nat (length ds).
Proof.
  induction ds as [|c ds IH] using rev_ind; intros H.
  - cbn. lia.
  - rewrite forallb_app in H. apply andb_true_iff in H as [H Hc].
    cbn [forallb] in Hc. rewrite andb_true_r in Hc.
    rewrite Z_of_digits_snoc, length_app. cbn [length].
    rewrite Nat2Z.inj_add, Z.pow_add_r by lia.
    pose proof (digit_value_range _ Hc). specialize (IH H).
    change (10 ^ Z.of_nat 1) with 10. lia.
Qed.

Lemma Z_of_digits_inj a :
  forall b,
    forallb is_digit a = true -> forallb is_digit b = true ->
    length a = length b -> Z_of_digits a = Z_of_digits b -> a = b.
Proof.
  induction a as [|c a IH] using rev_ind; intros b Ha Hb L E.
  - destruct b; [reflexivity | discriminate].
  - destruct (list_eq_dec ascii_dec b []) as [-> | Hne].
    + rewrite length_app in L. cbn [length] in L. lia.
    + destruct (exists_last Hne) as (b' & d & ->).
      rewrite forallb_app in Ha, Hb.
      apply andb_true_iff in Ha as [Ha Hc], Hb as [Hb Hd].
      cbn [forallb] in Hc, Hd. rewrite andb_true_r in Hc, Hd.
      rewrite !Z_of_digits_snoc in E. rewrite !length_app in L.
      cbn [length] in L.
      pose proof (digit_value_range _ Hc). pose proof (digit_value_range _ Hd).
      assert (Ev : digit_value c = digit_value d) by lia.
      assert (Ea : Z_of_digits a = Z_of_digits b') by lia.
      rewrite (digit_value_inj _ _ Ev), (IH b' Ha Hb); [reflexivity|lia|exact Ea].
Qed.

Lemma positive_digits_value I :
  positive_digits I -> 10 ^ (Z.of_nat (length I) - 1) <= Z_of_digits I.
Proof.
  intros [D (c & t & -> & NZ)].
  change (c :: t) with ([c] ++ t). rewrite Z_of_digits_app.
  cbn [length app]. replace (Z.of_nat (S (length t)) - 1)
    with (Z.of_nat (length t)) by lia.
  cbn [forallb] in D. apply andb_true_iff in D as [_ D].
  pose proof (Z_of_digits_bound _ D). pose proof (nonzero_value _ NZ).
  change (Z_of_digits [c]) with (10 * 0 + digit_value c). nia.
Qed.

Lemma canonical_int_inj I1 I2 :
  canonical_int I1 -> canonical_int I2 ->
  Z_of_digits I1 = Z_of_digits I2 -> I1 = I2.
Proof.
  assert (Pos : forall I, positive_digits I -> 0 < Z_of_digits I).
  { intros I P. pose proof (positive_digits_value _ P).
    assert (0 < 10 ^ (Z.of_nat (length I) - 1)); [|lia].
    apply Z.pow_pos_nonneg; [lia|].
    destruct P as [_ (c & t & -> & _)]. cbn [length]. lia. }
  intros [-> | P1] [-> | P2] E.
  - reflexivity.
  - apply Pos in P2. change (Z_of_digits (lit "0")) with 0 in E. lia.
  - apply Pos in P1. change (Z_of_digits (lit "0")) with 0 in E. lia.
  - apply Z_of_digits_inj; [apply P1 | apply P2 | | exact E].
    pose proof (positive_digits_value _ P1) as L1.
    pose proof (positive_digits_value _ P2) as L2.
    pose proof (Z_of_digits_bound _ (proj1 P1)) as U1.
    pose proof (Z_of_digits_bound _ (proj1 P2)) as U2.
    assert (A : Z.of_nat (length I1) - 1 < Z.of_nat (length I2)).
    { apply (Z.pow_lt_mono_r_iff 10); lia. }
    assert (B : Z.of_nat (length I2) - 1 < Z.of_nat (length I1)).
    { apply (Z.pow_lt_mono_r_iff 10); lia. }
    lia.
Qed.

(** The last digit after the point of a canonical text is not zero. *)
Lemma last_digit_nonzero u F :
  forallb is_digit F = true -> strip_trailing F = F -> F <> [] ->
  Z_of_digits (u ++ F) mod 10 <> 0.
Proof.
  intros D St Hne. destruct (exists_last Hne) as (F' & c & ->).
  pose proof (strip_trailing_last _ _ _ St) as NZ.
  rewrite forallb_app in D. apply andb_true_iff in D as [_ Dc].
  cbn [forallb] in Dc. rewrite andb_true_r in Dc.
  rewrite app_assoc, Z_of_digits_snoc.
  pose proof (digit_value_range _ Dc).
  assert (digit_value c <> 0).
  { intros E. apply digit_value_zero in E. congruence. }
  rewrite Z.add_comm, Z.mul_comm, Z_mod_plus_full, Z.mod_small; lia.
Qed.

Lemma canonical_decompose out :
  canonical out ->
  exists neg I F,
    out = decimal_text neg I F
    /\ canonical_int I
    /\ forallb is_digit F = true
    /\ strip_trailing F = F
    /\ (neg = true -> Z_of_digits (I ++ F) <> 0).
Proof.
  assert (Sg : forall sg, sign_text sg ->
                 exists neg : bool, sg = if neg then lit "-" else []).
  { intros sg [-> | ->]; [now exists false | now exists true]. }
  intros [| sg I Hsg P | sg I F Hsg CI CF].
  - exists false, (lit "0"), [].
    split; [reflexivity|]. split; [now left|]. split; [reflexivity|].
    split; [reflexivity | discriminate].
  - destruct (Sg _ Hsg) as (neg & ->).
    exists neg, I, [].
    split; [unfold decimal_text; now rewrite app_nil_r|].
    split; [now right|]. split; [reflexivity|].
    split; [reflexivity|].
    intros _. rewrite app_nil_r.
    pose proof (positive_digits_value _ P).
    assert (0 < 10 ^ (Z.of_nat (length I) - 1)); [|lia].
    apply Z.pow_pos_nonneg; [lia|].
    destruct P as [_ (c & t & -> & _)]. cbn [length]. lia.
  - destruct (Sg _ Hsg) as (neg & ->). destruct CF as (DF & HF & SF).
    exists neg, I, F. split.
    + unfold decimal_text. destruct F; [congruence | reflexivity].
    + split; [exact CI|]. split; [exact DF|]. split; [exact SF|].
      intros _ E.
      pose proof (last_digit_nonzero I F DF SF HF) as L.
      rewrite E in L. now apply L.
Qed.

Lemma decimal_text_scan neg I F :
  canonical_int I -> forallb is_digit F = true ->
  scan (decimal_text neg I F)
  = Some (Raw (if neg then lit "-" else []) I
            (match F with [] => None | _ :: _ => Some F end) None).
Proof.
  intros CI DF. unfold decimal_text.
  assert (HI : I <> [])
    by (destruct CI as [-> | [_ (c & t & -> & _)]]; discriminate).
  destruct F as [|f F'].
  - pose proof (scan_canonical _ I None (sign_text_of_bool neg)
                  (canonical_int_digits _ CI) HI Logic.I) as H.
    exact H.
  - exact (scan_canonical _ I (Some (f :: F')) (sign_text_of_bool neg)
             (canonical_int_digits _ CI) HI DF).
Qed.

Lemma decimal_text_value neg I F :
  canonical_int I -> forallb is_digit F = true ->
  exists q,
    literal_value (decimal_text neg I F) = Some q
    /\ (q == decimal_Q neg (Z_of_digits (I ++ F)) (- Z.of_nat (length F)))%Q.
Proof.
  intros CI DF. unfold literal_value.
  rewrite (decimal_text_scan neg I F CI DF). cbn [option_map].
  eexists. split; [reflexivity|].
  unfold raw_value, raw_frac, raw_exponent.
  cbn [r_sign r_int r_frac r_exp]. rewrite sign_flag_of_bool.
  destruct F; cbn [length]; [rewrite app_nil_r|]; apply decimal_Q_eq; lia.
Qed.

(** From an equation between two decimal numbers to one between
    integers. *)
Lemma decimal_Q_cancel neg neg' a b e :
  (decimal_Q neg a e == decimal_Q neg' b e)%Q ->
  (if neg then -1 else 1) * a = (if neg' then -1 else 1) * b.
Proof.
  unfold decimal_Q. intros H.
  apply Qmult_inj_r in H; [|apply Qpower_not_0, ten_nonzero].
  apply inject_Z_injective.
  rewrite !inject_Z_mult.
  destruct neg, neg'; exact H.
Qed.

Lemma decimal_Q_cross neg neg' a b f f' :
  0 <= f -> 0 <= f' ->
  (decimal_Q neg a (- f) == decimal_Q neg' b (- f'))%Q ->
  (if neg then -1 else 1) * (a * 10 ^ f')
  = (if neg' then -1 else 1) * (b * 10 ^ f).
Proof.
  intros Hf Hf' H.
  apply (decimal_Q_cancel neg neg' _ _ (- f - f')).
  rewrite (decimal_Q_scale neg a f' (- f - f') Hf').
  rewrite (decimal_Q_scale neg' b f (- f - f') Hf).
  rewrite (decimal_Q_eq neg a (- f - f' + f') (- f)) by lia.
  rewrite (decimal_Q_eq neg' b (- f - f' + f) (- f')) by lia.
  exact H.
Qed.

(** Two integers that do not end in zero, scaled to be equal, are scaled
    alike. *)
Lemma scale_alike m1 m2 f1 f2 :
  0 <= f1 < f2 -> m1 * 10 ^ f2 = m2 * 10 ^ f1 -> m2 mod 10 = 0.
Proof.
  intros Hf E.
  replace f2 with (f1 + 1 + (f2 - f1 - 1)) in E by lia.
  rewrite !Z.pow_add_r in E by lia.
  assert (P : 0 < 10 ^ f1) by (apply Z.pow_pos_nonneg; lia).
  assert (E' : m2 = m1 * 10 ^ (f2 - f1 - 1) * 10).
  { change (10 ^ 1) with 10 in E. nia. }
  rewrite E'. apply Z_mod_mult.
Qed.

(** A canonical text is determined by the number it denotes. *)
Lemma decimal_text_inj neg1 I1 F1 neg2 I2 F2 :
  canonical_int I1 -> forallb is_digit F1 = true -> strip_trailing F1 = F1 ->
  (neg1 = true -> Z_of_digits (I1 ++ F1) <> 0) ->
  canonical_int I2 -> forallb is_digit F2 = true -> strip_trailing F2 = F2 ->
  (neg2 = true -> Z_of_digits (I2 ++ F2) <> 0) ->
  (decimal_Q neg1 (Z_of_digits (I1 ++ F1)) (- Z.of_nat (length F1))
   == decimal_Q neg2 (Z_of_digits (I2 ++ F2)) (- Z.of_nat (length F2)))%Q ->
  neg1 = neg2 /\ I1 = I2 /\ F1 = F2.
Proof.
  intros C1 D1 S1 N1 C2 D2 S2 N2 H.
  apply decimal_Q_cross in H; [|lia|lia].
  set (f1 := Z.of_nat (length F1)) in *.
  set (f2 := Z.of_nat (length F2)) in *.
  set (m1 := Z_of_digits (I1 ++ F1)) in *.
  set (m2 := Z_of_digits (I2 ++ F2)) in *.
  assert (P1 : 0 < 10 ^ f1) by (apply Z.pow_pos_nonneg; lia).
  assert (P2 : 0 < 10 ^ f2) by (apply Z.pow_pos_nonneg; lia).
  assert (G1 : 0 <= m1).
  { apply Z_of_digits_nonneg.
    now rewrite forallb_app, (canonical_int_digits _ C1), D1. }
  assert (G2 : 0 <= m2).
  { apply Z_of_digits_nonneg.
    now rewrite forallb_app, (canonical_int_digits _ C2), D2. }
  assert (L1 : F1 <> [] -> m1 mod 10 <> 0)
    by (intros Hne; now apply last_digit_nonzero).
  assert (L2 : F2 <> [] -> m2 mod 10 <> 0)
    by (intros Hne; now apply last_digit_nonzero).
  assert (Hneg : neg1 = neg2 /\ m1 * 10 ^ f2 = m2 * 10 ^ f1).
  { destruct neg1, neg2; try (split; [reflexivity | lia]).
    - specialize (N1 eq_refl). exfalso. nia.
    - specialize (N2 eq_refl). exfalso. nia. }
  destruct Hneg as [-> Hm]. split; [reflexivity|].
  assert (Hf : f1 = f2).
  { destruct (Z.lt_trichotomy f1 f2) as [Lt | [Eq | Gt]]; [|exact Eq|].
    - exfalso. apply L2.
      + intros ->. unfold f2 in Lt. cbn [length] in Lt. lia.
      + apply (scale_alike m1 m2 f1 f2); [lia | exact Hm].
    - exfalso. apply L1.
      + intros ->. unfold f1 in Gt. cbn [length] in Gt. lia.
      + apply (scale_alike m2 m1 f2 f1); [lia | symmetry; exact Hm]. }
  assert (Em : m1 = m2) by (rewrite Hf in Hm; nia).
  unfold m1, m2 in Em. rewrite !Z_of_digits_app in Em.
  fold f1 f2 in Em. rewrite Hf in Em.
  pose proof (Z_of_digits_bound _ D1) as B1.
  pose proof (Z_of_digits_bound _ D2) as B2.
  fold f1 in B1. fold f2 in B2. rewrite Hf in B1.
  assert (EI : Z_of_digits I1 = Z_of_digits I2) by nia.
  assert (EF : Z_of_digits F1 = Z_of_digits F2) by nia.
  split.
  - now apply canonical_int_inj.
  - apply Z_of_digits_inj; auto. unfold f1, f2 in Hf. lia.
Qed.

Lemma canonical_value_inj out1 out2 q1 q2 :
  canonical out1 -> canonical out2 ->
  literal_value out1 = Some q1 -> literal_value out2 = Some q2 ->
  (q1 == q2)%Q -> out1 = out2.
Proof.
  intros C1 C2 V1 V2 E.
  destruct (canonical_decompose _ C1) as (n1 & I1 & F1 & -> & CI1 & D1 & S1 & N1).
  destruct (canonical_decompose _ C2) as (n2 & I2 & F2 & -> & CI2 & D2 & S2 & N2).
  destruct (decimal_text_value n1 I1 F1 CI1 D1) as (p1 & Hp1 & E1).
  destruct (decimal_text_value n2 I2 F2 CI2 D2) as (p2 & Hp2 & E2).
  rewrite V1 in Hp1. rewrite V2 in Hp2.
  injection Hp1 as <-. injection Hp2 as <-.
  rewrite E1, E2 in E.
  destruct (decimal_text_inj n1 I1 F1 n2 I2 F2) as (-> & -> & ->); auto.
Qed.

(** The result of a literal whose exponent is exact as a double: a
    canonical text of the same value.  (The model returns whatever the
    length of the text; the code returns when its engine can hold the
    text.) *)
Lemma outcome_value s r :
  scan s = Some r ->
  Z.abs (raw_exponent r) + Z.of_nat (length (mantissa (parsed_of_raw r)))
  < 2 ^ 53 ->
  exists out r',
    Num2FracStr (VString s) = Return out
    /\ canonical out
    /\ scan out = Some r'
    /\ (raw_value r' == raw_value r)%Q.
Proof.
  intros Hscan B.
  pose proof (parsed_of_raw_wf _ _ Hscan) as W.
  assert (R : exists rv, reconstruct (parsed_of_raw r) = Return rv
                /\ exists r',
                    scan (finish (sign (parsed_of_raw r)) rv) = Some r'
                    /\ (raw_value r' == raw_value r)%Q).
  { destruct (list_eq_dec ascii_dec (mantissa (parsed_of_raw r)) [])
      as [M | M].
    - exists []. split; [exact (reconstruct_empty _ M)|].
      cbn [finish truthy_str]. eexists. split; [reflexivity|].
      rewrite (raw_value_parsed _ _ Hscan), M.
      change (Z_of_digits []) with 0. rewrite decimal_Q_zero. reflexivity.
    - assert (R : reconstruct (parsed_of_raw r)
                  = Return (spec_unsigned (parsed_of_raw r) (raw_exponent r))).
      { destruct (Z.eq_dec (raw_exponent r) 0) as [E0 | E0].
        - rewrite E0. apply reconstruct_zero; [|exact M].
          rewrite (exponent_of_raw _ _ Hscan).
          destruct (r_exp r); [|reflexivity].
          now rewrite E0.
        - apply reconstruct_exact; auto.
          rewrite (exponent_of_raw _ _ Hscan).
          unfold raw_exponent in *. destruct (r_exp r); [|congruence].
          apply round_double_exact. lia. }
      eexists. split; [exact R|].
      destruct (reconstruct_cases _ _ R) as [[M' _] | [_ Sh]]; [congruence|].
      destruct (normalize_shape (mantissa (parsed_of_raw r)) _
                  (wf_mantissa_digits _ W) (wf_mantissa_nonzero _ W M) Sh)
        as [T _].
      unfold finish. rewrite T.
      destruct (spec_unsigned_value (parsed_of_raw r) (raw_exponent r) W M)
        as (r' & Hr' & V).
      exists r'. split; [exact Hr'|].
      rewrite V, (raw_value_parsed _ _ Hscan), sign_flag. reflexivity. }
  destruct R as (rv & R & r' & Hr' & V).
  exists (finish (sign (parsed_of_raw r)) rv), r'.
  rewrite (outcome_of_scan _ _ Hscan), R. cbn [bind].
  split; [reflexivity|]. split; [|split; assumption].
  apply finish_canonical; assumption.
Qed.

(** X12. When the function returns a text for each of two literals (whose
    exponents and split points are exact as doubles: exponent magnitude
    plus length below 2^53), the two texts are the same exactly when the
    two literals denote the same number: the result is a canonical form. *)
Theorem X12_one_result_for_every_value (s1 s2 o1 o2 : str) (q1 q2 : Q) :
  literal_value s1 = Some q1 -> literal_value s2 = Some q2 ->
  Z.abs (literal_exponent s1) + Z.of_nat (length s1) < 2 ^ 53 ->
  Z.abs (literal_exponent s2) + Z.of_nat (length s2) < 2 ^ 53 ->
  Num2FracStr (VString s1) = Return o1 ->
  Num2FracStr (VString s2) = Return o2 ->
  (o1 = o2 <-> (q1 == q2)%Q).
Proof.
  unfold literal_value, literal_exponent.
  destruct (scan s1) as [r1|] eqn:H1; [|discriminate].
  destruct (scan s2) as [r2|] eqn:H2; [|discriminate].
  cbn [option_map]. intros E1 E2 B1 B2 R1 R2.
  injection E1 as <-. injection E2 as <-.
  pose proof (mantissa_length _ _ H1) as L1.
  pose proof (mantissa_length _ _ H2) as L2.
  destruct (outcome_value s1 r1 H1) as (o1' & r1' & O1 & C1 & S1 & V1); [lia|].
  destruct (outcome_value s2 r2 H2) as (o2' & r2' & O2 & C2 & S2 & V2); [lia|].
  rewrite R1 in O1. rewrite R2 in O2.
  apply Return_inj in O1, O2. subst o1' o2'. split.
  - intros E. subst o2.
    rewrite S1 in S2. injection S2 as <-.
    rewrite <- V1, <- V2. reflexivity.
  - intros E.
    apply (canonical_value_inj o1 o2 (raw_value r1') (raw_value r2') C1 C2).
    + unfold literal_value. now rewrite S1.
    + unfold literal_value. now rewrite S2.
    + rewrite V1, V2. exact E.
Qed.

Lemma X12_witness :
  lit "1.25" = lit "1.25"
  <-> (raw_value (Raw (lit "+") (lit "012") (Some (lit "50")) (Some (lit "-1")))
       == raw_value (Raw [] (lit "125") None (Some (lit "-2"))))%Q.
Proof.
  apply (X12_one_result_for_every_value (lit "+012.50e-1") (lit "125E-2")
           (lit "1.25") (lit "1.25")).
  - reflexivity.
  - reflexivity.
  - vm_compute. reflexivity.
  - vm_compute. reflexivity.
  - vm_compute. reflexivity.
  - vm_compute. reflexivity.
Defined.

(** ** The two replacements of the return statement *)

Lemma strip_leading_split s : exists k, s = zeros k ++ strip_leading s.
Proof.
  induction s as [|c t IH].
  - exists O. reflexivity.
  - cbn [strip_leading]. destruct (strippable (c :: t)) eqn:E.
    + destruct IH as (k & IH). exists (S k).
      assert (Hc : is_zero c = true).
      { destruct t as [|c' t']; [discriminate|]. cbn [strippable] in E.
        now apply andb_true_iff in E as [E _]. }
      rewrite (is_zero_eq _ Hc). cbn [zeros repeat app]. f_equal. exact IH.
    + exists O. reflexivity.
Qed.

Lemma strip_leading_stops s : strippable (strip_leading s) = false.
Proof.
  induction s as [|c t IH].
  - reflexivity.
  - cbn [strip_leading]. destruct (strippable (c :: t)) eqn:E;
      [exact IH | exact E].
Qed.

Lemma strip_leading_fixed s : strippable s = false -> strip_leading s = s.
Proof.
  destruct s as [|c t]; [reflexivity|]. cbn [strip_leading]. now intros ->.
Qed.

(** X13. The first replacement, on any text: it removes zeros from the
    front and nothing else; it stops before a zero that is the last
    character or stands before the point; doing it twice changes nothing
    more. *)
Theorem X13_first_replacement (s : str) :
  (exists k, s = zeros k ++ replace s re_leading_zeros [])
  /\ (forall t, replace s re_leading_zeros [] = "0"%char :: t ->
                t = [] \/ exists t', t = "."%char :: t')
  /\ replace (replace s re_leading_zeros []) re_leading_zeros []
     = replace s re_leading_zeros [].
Proof.
  rewrite !replace_leading_zeros. split; [apply strip_leading_split|].
  split.
  - intros t E. pose proof (strip_leading_stops s) as H. rewrite E in H.
    destruct t as [|c' t']; [now left|]. right. exists t'.
    cbn [strippable] in H.
    replace (is_zero "0") with true in H by reflexivity.
    cbn [andb] in H. apply negb_false_iff in H.
    now rewrite (is_dot_eq _ H).
  - apply strip_leading_fixed, strip_leading_stops.
Qed.

(** X14. The second replacement: a text without a point is left as it is,
    so the zeros that end an integer stay; in a text that ends with a
    point and digits, the zeros at the end of these digits are removed, and
    the point with them when no digit is left; a point that ends the text
    stays. *)
Theorem X14_second_replacement (a ds : str) :
  forallb (fun c => negb (is_dot c)) a = true ->
  forallb is_digit ds = true ->
  replace a re_trailing_zeros [RGroup 1] = a
  /\ replace (a ++ lit "." ++ ds) re_trailing_zeros [RGroup 1]
     = match strip_trailing ds, ds with
       | [], [] => a ++ lit "."
       | [], _ :: _ => a
       | c :: core, _ => a ++ lit "." ++ c :: core
       end.
Proof.
  intros Ha Hd. split.
  - apply replace_trailing_zeros_nodot. exact Ha.
  - rewrite (replace_trailing_zeros_dot a ds Ha Hd). unfold strip_fraction.
    destruct (strip_trailing ds); reflexivity.
Qed.

Lemma X14_witness :
  replace (lit "1200") re_trailing_zeros [RGroup 1] = lit "1200"
  /\ replace (lit "1200" ++ lit "." ++ lit "0500") re_trailing_zeros [RGroup 1]
     = lit "1200.05".
Proof.
  split.
  - apply (X14_second_replacement (lit "1200") (lit "0500")); reflexivity.
  - apply (X14_second_replacement (lit "1200") (lit "0500")); reflexivity.
Defined.

(** ** Strings that are refused *)

(** X15. A string with a character other than a digit, a sign, the point,
    e or E is refused with the Invalid Number error, wherever the
    character stands. *)
Theorem X15_foreign_character (s : str) (c : ascii) :
  In c s -> is_literal_char c = false ->
  Num2FracStr (VString s) = Throw (invalid_number s).
Proof.
  intros Hin Hc. apply invalid_string_raises. rewrite parse_scan.
  destruct (scan s) as [r|] eqn:Hscan; [|reflexivity].
  pose proof (scan_alphabet _ _ Hscan) as A.
  rewrite forallb_forall in A. rewrite (A _ Hin) in Hc. discriminate.
Qed.

Lemma X15_witness :
  Num2FracStr (VString (lit "1,000.5")) = Throw (invalid_number (lit "1,000.5")).
Proof.
  apply (X15_foreign_character (lit "1,000.5") ","%char).
  - simpl. right. left. reflexivity.
  - reflexivity.
Defined.

(** ** Numbers and their texts *)

(** X16. Giving a finite number or giving the text JavaScript writes for
    it is the same; NaN and the infinities differ: the number comes back
    as its name, the name given as a string is refused. *)
Theorem X16_number_or_its_text (x : number) :
  wf_number x ->
  match x with
  | NaN | Infinity _ =>
      Num2FracStr (VNumber x) = Return (Number_toString x)
      /\ Num2FracStr (VString (Number_toString x))
         = Throw (invalid_number (Number_toString x))
  | Zero _ | Finite _ _ _ =>
      Num2FracStr (VNumber x) = Num2FracStr (VString (Number_toString x))
  end.
Proof.
  intros W. destruct x as [| neg | neg | neg s n].
  - split; reflexivity.
  - destruct neg; split; reflexivity.
  - reflexivity.
  - destruct (number_scan neg s n W) as (r & Hscan & _).
    unfold Num2FracStr. cbn [String_]. rewrite parse_scan, Hscan.
    reflexivity.
Qed.

Lemma X16_witness :
  Num2FracStr (VNumber (Finite false (lit "15") 23))
  = Num2FracStr (VString (lit "1.5e+22")).
Proof.
  apply (X16_number_or_its_text (Finite false (lit "15") 23)).
  split; [split; [reflexivity|]|].
  - exists "1"%char, (lit "5"). split; reflexivity.
  - split; [reflexivity|]. split; [cbn; lia | lia].
Defined.

(** ** The text of a result *)

(** X17. When the function returns a text for a string accepted by the
    grammar (whose exponent and split point are exact as doubles: exponent
    magnitude plus length below 2^53), that text is a literal of the
    grammar again and denotes exactly the rational number that the input
    denotes. *)
Theorem X17_value_of_a_result (s out : str) (q : Q) :
  literal_value s = Some q ->
  Z.abs (literal_exponent s) + Z.of_nat (length s) < 2 ^ 53 ->
  Num2FracStr (VString s) = Return out ->
  exists q', literal_value out = Some q' /\ (q' == q)%Q.
Proof.
  unfold literal_value, literal_exponent.
  destruct (scan s) as [r|] eqn:Hscan; [|discriminate].
  cbn [option_map]. intros Hq B R. injection Hq as <-.
  pose proof (mantissa_length _ _ Hscan) as L.
  destruct (outcome_value s r Hscan) as (out' & r' & O & _ & S' & V); [lia|].
  rewrite R in O. apply Return_inj in O. subst out'.
  exists (raw_value r'). rewrite S'. split; [reflexivity | exact V].
Qed.

Lemma X17_witness :
  exists q',
    literal_value (lit "0.0012145") = Some q' /\ (q' == 12145 # 10000000)%Q.
Proof.
  apply (X17_value_of_a_result (lit "12.145e-4") (lit "0.0012145")
           (12145 # 10000000)).
  - vm_compute. reflexivity.
  - vm_compute. reflexivity.
  - vm_compute. reflexivity.
Defined.

(** X18. When the [if (exponent)] statement leaves a [returnValue] for a
    literal with a nonzero exponent [e] (exact as a double, like the split
    point: the magnitude of [e] plus the number of mantissa digits is below
    2^53) and a mantissa that is not empty, that text is: the mantissa
    padded with zeros up to the split point, or the mantissa split by the
    point at the split point, or "0." and zeros followed by the mantissa,
    where the split point is the number of integer digits plus [e]. *)
Theorem X18_reconstruction_of_a_result (s : str) (r : raw) (rv : str) :
  scan s = Some r ->
  raw_exponent r <> 0 ->
  mantissa (parsed_of_raw r) <> [] ->
  Z.abs (raw_exponent r) + Z.of_nat (length (mantissa (parsed_of_raw r)))
  < 2 ^ 53 ->
  reconstruct (parsed_of_raw r) = Return rv ->
  parse s = Some (parsed_of_raw r)
  /\ rv = spec_unsigned (parsed_of_raw r) (raw_exponent r).
Proof.
  intros Hscan Hne M B R. split; [now rewrite parse_scan, Hscan|].
  rewrite (reconstruct_exact (parsed_of_raw r) (raw_exponent r)) in R; auto.
  - now apply Return_inj in R.
  - rewrite (exponent_of_raw _ _ Hscan).
    unfold raw_exponent in *. destruct (r_exp r); [|congruence].
    apply round_double_exact. lia.
Qed.

Lemma X18_witness :
  parse (lit "12.145e-4") = Some (Parsed [] (lit "12") (lit "145") (NFin (-4)))
  /\ lit "0.0012145"
     = spec_unsigned (Parsed [] (lit "12") (lit "145") (NFin (-4))) (-4).
Proof.
  apply (X18_reconstruction_of_a_result (lit "12.145e-4")
           (Raw [] (lit "12") (Some (lit "145")) (Some (lit "-4")))
           (lit "0.0012145")).
  - vm_compute. reflexivity.
  - vm_compute. discriminate.
  - vm_compute. discriminate.
  - vm_compute. reflexivity.
  - vm_compute. reflexivity.
Defined.
